(** * IOMirea-server: the event distribution engine

    A shallow embedding of [iomirea/models/snowflake.py] and
    [iomirea/models/event_emitter.py], and the properties of the
    identifier generator, the listener and the listener registry. *)

From Stdlib Require Import ZArith Lia QArith Lqa Sorted.
From stdpp Require Import base gmap sets list strings.

Set Warnings "-register-all,-abstract-large-number,-clear-no-such-hyp".

(** Python exceptions raised by the modelled code. *)
Inductive exn : Set :=
| KeyError
| TypeError
| ValueError
| RuntimeError
| ConnectionResetError.

(** * Snowflake generator ([models/snowflake.py]) *)

Module Snowflake.
Local Open Scope Z_scope.

Definition WORKER_BITS : Z := 5.
Definition DATACENTER_BITS : Z := 5.
Definition SEQUENCE_BITS : Z := 12.

Definition MAX_WORKER_ID : Z := Z.lxor (-1) (Z.shiftl (-1) WORKER_BITS).
Definition MAX_DATACENTER_ID : Z := Z.lxor (-1) (Z.shiftl (-1) DATACENTER_BITS).

Definition WORKER_SHIFT : Z := SEQUENCE_BITS.
Definition DATACENTER_SHIFT : Z := SEQUENCE_BITS + WORKER_BITS.
Definition TIMESTAMP_SHIFT : Z := SEQUENCE_BITS + WORKER_BITS + DATACENTER_BITS.

Definition SEQUENCE_MASK : Z := Z.lxor (-1) (Z.shiftl (-1) SEQUENCE_BITS).

(** The attributes of a [SnowflakeGenerator] instance. *)
Record SnowflakeGenerator : Set := {
  worker_id : Z;
  datacenter_id : Z;
  sequence : Z;
  _last_timestamp : Z
}.

(** [SnowflakeGenerator.__init__]: both identifiers are range-checked. *)
Definition __init__ (worker_id datacenter_id : Z) : exn + SnowflakeGenerator :=
  if negb ((0 <=? worker_id) && (worker_id <=? MAX_WORKER_ID))
  then inl ValueError
  else if negb ((0 <=? datacenter_id) && (datacenter_id <=? MAX_DATACENTER_ID))
  then inl ValueError
  else inr {| worker_id := worker_id; datacenter_id := datacenter_id;
              sequence := 0; _last_timestamp := -1 |}.

(** How a call of [gen_id] ends: it returns an identifier, raises, or is
    still busy-waiting in [til_next_ms] when the observed clock readings
    run out. *)
Inductive result : Set :=
| Returned (id : Z)
| Raised (e : exn)
| Spinning.

Section Generator.

(** [EPOCH_OFFSET_MS] comes from the [constants] module. *)
Variable EPOCH_OFFSET_MS : Z.

(** The system clock: [clock k] is the value of
    [floor(time.time() * 1000)] at the [k]-th reading. *)
Variable clock : nat → Z.

Definition gen_timestamp (now : nat) : Z * nat := (clock now, S now).

(** [til_next_ms]: read the clock until it passes [_last_timestamp];
    [fuel] bounds the number of readings observed. *)
Fixpoint til_next_ms (fuel : nat) (self : SnowflakeGenerator) (now : nat)
  : option (Z * nat) :=
  match fuel with
  | O => None
  | S fuel' =>
      let '(timestamp, now') := gen_timestamp now in
      if timestamp <=? _last_timestamp self
      then til_next_ms fuel' self now'
      else Some (timestamp, now')
  end.

Definition set_sequence (self : SnowflakeGenerator) (s : Z) : SnowflakeGenerator :=
  {| worker_id := worker_id self; datacenter_id := datacenter_id self;
     sequence := s; _last_timestamp := _last_timestamp self |}.

Definition set_last_timestamp (self : SnowflakeGenerator) (t : Z)
  : SnowflakeGenerator :=
  {| worker_id := worker_id self; datacenter_id := datacenter_id self;
     sequence := sequence self; _last_timestamp := t |}.

(** The value composed by the [return] statement of [gen_id]. *)
Definition snowflake (self : SnowflakeGenerator) (timestamp : Z) : Z :=
  Z.lor
    (Z.lor
       (Z.lor (Z.shiftl (timestamp - EPOCH_OFFSET_MS) TIMESTAMP_SHIFT)
              (Z.shiftl (datacenter_id self) DATACENTER_SHIFT))
       (Z.shiftl (worker_id self) WORKER_SHIFT))
    (sequence self).

(** [gen_id]: the result, the generator after the call and the number of
    clock readings consumed so far. *)
Definition gen_id (fuel : nat) (self : SnowflakeGenerator) (now : nat)
  : result * SnowflakeGenerator * nat :=
  let '(timestamp, now) := gen_timestamp now in
  if timestamp <? _last_timestamp self then (Raised RuntimeError, self, now)
  else
    let finish (self : SnowflakeGenerator) (timestamp : Z) (now : nat) :=
      let self := set_last_timestamp self timestamp in
      (Returned (snowflake self timestamp), self, now) in
    if _last_timestamp self =? timestamp then
      let self := set_sequence self (Z.land (sequence self + 1) SEQUENCE_MASK) in
      if sequence self =? 0 then
        match til_next_ms fuel self now with
        | None => (Spinning, self, now)
        | Some (timestamp, now) => finish self timestamp now
        end
      else finish self timestamp now
    else finish (set_sequence self 0) timestamp now.

(** [n] sequential calls of [gen_id] by one caller; a caller whose call
    never returns makes no further call. *)
Fixpoint gen_ids (fuel n : nat) (self : SnowflakeGenerator) (now : nat)
  : list result * SnowflakeGenerator * nat :=
  match n with
  | O => ([], self, now)
  | S n' =>
      let '(r, self, now) := gen_id fuel self now in
      match r with
      | Spinning => ([r], self, now)
      | _ => let '(rs, self, now) := gen_ids fuel n' self now in
             (r :: rs, self, now)
      end
  end.

(** The identifier a generator issued last. *)
Definition issued (self : SnowflakeGenerator) : Z :=
  snowflake self (_last_timestamp self).

(** The identifiers among the results of a run of calls. *)
Definition returned (rs : list result) : list Z :=
  omap (λ r, match r with Returned id => Some id | _ => None end) rs.

(** A generator built by [__init__] and only updated by [gen_id]. *)
Definition wf (self : SnowflakeGenerator) : Prop :=
  0 ≤ worker_id self ≤ MAX_WORKER_ID ∧
  0 ≤ datacenter_id self ≤ MAX_DATACENTER_ID ∧
  0 ≤ sequence self ≤ SEQUENCE_MASK.

End Generator.

End Snowflake.

(** * Websocket listeners and the event emitter ([models/event_emitter.py]) *)

Module Emitter.

Definition HEARTBEAT_INTERVAL : Z := 30000.

Inductive Opcode : Set :=
| DISPATCH | HEARTBEAT | IDENTIFY | PRESENCE | RESUME | RECONNECT
| REQUEST_USERS | INVALIDATE_SESSION | HELLO | HEARTBEAT_ACK.

Definition Opcode_value (op : Opcode) : Z :=
  match op with
  | DISPATCH => 0 | HEARTBEAT => 1 | IDENTIFY => 2 | PRESENCE => 3
  | RESUME => 4 | RECONNECT => 5 | REQUEST_USERS => 6
  | INVALIDATE_SESSION => 7 | HELLO => 8 | HEARTBEAT_ACK => 9
  end%Z.

Inductive CloseCode : Set :=
| NORMAL | UNKNOWN_OPCODE | BAD_PAYLOAD | NOT_IDENTIFIED | BAD_TOKEN.

Definition CloseCode_value (code : CloseCode) : Z :=
  match code with
  | NORMAL => 1000 | UNKNOWN_OPCODE => 4001 | BAD_PAYLOAD => 4002
  | NOT_IDENTIFIED => 4003 | BAD_TOKEN => 4004
  end%Z.

(** ** Python values exchanged as JSON *)

Inductive pyval : Type :=
| PNone
| PBool (b : bool)
| PInt (n : Z)
| PFloat (x : Q)
| PStr (s : string)
| PList (items : list pyval)
| PDict (items : list (string * pyval)).

Fixpoint assoc (key : string) (items : list (string * pyval)) : option pyval :=
  match items with
  | [] => None
  | (k, v) :: items => if String.eqb k key then Some v else assoc key items
  end.

(** [v[key]] for a string [key]: only a dict can be subscripted by a
    string, and a missing key raises [KeyError]. *)
Definition getitem (v : pyval) (key : string) : exn + pyval :=
  match v with
  | PDict items =>
      match assoc key items with
      | Some x => inr x
      | None => inl KeyError
      end
  | _ => inl TypeError
  end.

(** [v == n] for an integer constant [n]. *)
Definition eq_int (v : pyval) (n : Z) : bool :=
  match v with
  | PInt m => (m =? n)%Z
  | PBool b => ((if b then 1 else 0) =? n)%Z
  | PFloat x => Qeq_bool x (inject_Z n)
  | _ => false
  end.

(** ** State *)

(** A [Listener] object is known by its identity. *)
Definition Listener : Set := positive.

(** The slots of a [Listener]: of its websocket [ws] the state matters,
    [ws_closed]; its [_emitter] is the one emitter of the application. *)
Record Listener_slots : Set := {
  ws_closed : bool;
  user_id : option Z;
  _last_hb : Q
}.

Record EventEmitter : Type := {
  _channels : gmap Z (gset Z);
  _users : gmap Z (gset Z);
  _listeners : gmap Z (gset Listener);
  _closing : bool
}.

(** [EventEmitter.__init__]. *)
Definition new_emitter : EventEmitter :=
  {| _channels := ∅; _users := ∅; _listeners := ∅; _closing := false |}.

(** What a run does to the outside and to the registry lock, in order. *)
Inductive io_event : Type :=
| LockAcquire
| LockRelease
| PgFetchval (user : Z)
| WsSendJson (ws : Listener) (data : pyval) (sent : bool)
| WsClose (ws : Listener) (code : Z) (message : string).

(** The application and what surrounds it.  The store and the tokens
    are the two outside parties of the emitter: [pg_conn] answers
    [SELECT channel_ids FROM users WHERE id = $1], with [None] when there
    is no such row; [tokens] stands for [Token.from_string(...)] followed
    by [token.verify()] ([models/access_token.py] is not among the
    sources) and answers with an exception, a rejected token or the user
    of the token.  [dead_write] is the exception [ws.send_json] raises
    on a closed websocket: the websockets are aiohttp's, and which
    exception it is differs between its versions.  [time] is what
    [time.time()] returns, in seconds. *)
Record World : Type := {
  emitter : EventEmitter;
  objects : Listener → Listener_slots;
  pg_conn : Z → option (list Z);
  tokens : pyval → exn + option Z;
  dead_write : exn;
  time : Q;
  trace : list io_event
}.

Definition set_emitter (e : EventEmitter) (w : World) : World :=
  {| emitter := e; objects := objects w; pg_conn := pg_conn w;
     tokens := tokens w; dead_write := dead_write w; time := time w;
     trace := trace w |}.

Definition set_object (l : Listener) (o : Listener_slots) (w : World) : World :=
  {| emitter := emitter w;
     objects := λ l', if decide (l' = l) then o else objects w l';
     pg_conn := pg_conn w; tokens := tokens w; dead_write := dead_write w;
     time := time w; trace := trace w |}.

Definition log (ev : io_event) (w : World) : World :=
  {| emitter := emitter w; objects := objects w; pg_conn := pg_conn w;
     tokens := tokens w; dead_write := dead_write w; time := time w;
     trace := trace w ++ [ev] |}.

(** ** A state and exception monad *)

Definition ST (S A : Type) : Type := S → (exn + A) * S.

#[global] Instance ST_ret {S} : MRet (ST S) := λ A x s, (inr x, s).

#[global] Instance ST_bind {S} : MBind (ST S) := λ A B f m s,
  match m s with
  | (inr x, s) => f x s
  | (inl e, s) => (inl e, s)
  end.

Definition raise {S A} (e : exn) : ST S A := λ s, (inl e, s).

Definition gets {S A} (f : S → A) : ST S A := λ s, (inr (f s), s).

Definition modify {S} (f : S → S) : ST S unit := λ s, (inr tt, f s).

Definition lift {S A} (r : exn + A) : ST S A := λ s, (r, s).

(** [try: body except ...: handler]; [handler e] is [None] when no
    clause matches [e]. *)
Definition try_except {S A} (body : ST S A) (handler : exn → option (ST S A))
  : ST S A := λ s,
  match body s with
  | (inr x, s) => (inr x, s)
  | (inl e, s) =>
      match handler e with
      | Some h => h s
      | None => (inl e, s)
      end
  end.

(** [for x in xs: body], with the local variables the body updates
    threaded as [acc]. *)
Fixpoint for_in {S A B} (xs : list A) (acc : B) (body : B → A → ST S B)
  : ST S B :=
  match xs with
  | [] => mret acc
  | x :: xs => acc ← body acc x; for_in xs acc body
  end.

Definition for_each {S A} (xs : list A) (body : A → ST S unit) : ST S unit :=
  for_in xs tt (λ _, body).

Abbreviation M := (ST World).

Definition on_emitter {A} (m : ST EventEmitter A) : M A := λ w,
  let '(r, e) := m (emitter w) in (r, set_emitter e w).

(** [async with self._lock: body]: the lock is released however the
    body ends. *)
Definition async_with_lock {A} (body : M A) : M A := λ w,
  let '(r, w) := body (log LockAcquire w) in (r, log LockRelease w).

(** ** The three indices as Python dicts of sets *)

Record index (V : Type) `{Countable V} : Type := {
  ix_get : EventEmitter → gmap Z (gset V);
  ix_set : gmap Z (gset V) → EventEmitter → EventEmitter
}.
Arguments ix_get {V _ _}.
Arguments ix_set {V _ _}.

Definition channels_ix : index Z :=
  {| ix_get := _channels;
     ix_set := λ d e, {| _channels := d; _users := _users e;
                         _listeners := _listeners e; _closing := _closing e |} |}.

Definition users_ix : index Z :=
  {| ix_get := _users;
     ix_set := λ d e, {| _channels := _channels e; _users := d;
                         _listeners := _listeners e; _closing := _closing e |} |}.

Definition listeners_ix : index Listener :=
  {| ix_get := _listeners;
     ix_set := λ d e, {| _channels := _channels e; _users := _users e;
                         _listeners := d; _closing := _closing e |} |}.

Section Dict.
Context {V : Type} `{Countable V}.
Variable ix : index V.

(** [k in d] *)
Definition contains (k : Z) : ST EventEmitter bool :=
  gets (λ e, bool_decide (k ∈ dom (ix_get ix e))).

(** [d[k]] *)
Definition lookup_item (k : Z) : ST EventEmitter (gset V) :=
  d ← gets (ix_get ix);
  match d !! k with
  | Some s => mret s
  | None => raise KeyError
  end.

(** [d[k] = s] *)
Definition set_item (k : Z) (s : gset V) : ST EventEmitter unit :=
  modify (λ e, ix_set ix (<[k := s]> (ix_get ix e)) e).

(** [del d[k]] *)
Definition del_item (k : Z) : ST EventEmitter unit :=
  d ← gets (ix_get ix);
  match d !! k with
  | Some _ => modify (ix_set ix (delete k d))
  | None => raise KeyError
  end.

(** [d[k].add(x)] *)
Definition add_to (k : Z) (x : V) : ST EventEmitter unit :=
  s ← lookup_item k;
  set_item k ({[x]} ∪ s).

(** [d[k].remove(x)]: [set.remove] raises [KeyError] on a missing
    element. *)
Definition remove_from (k : Z) (x : V) : ST EventEmitter unit :=
  s ← lookup_item k;
  if bool_decide (x ∈ s) then set_item k (s ∖ {[x]}) else raise KeyError.

(** [bool(d[k])] *)
Definition nonempty (k : Z) : ST EventEmitter bool :=
  s ← lookup_item k;
  mret (negb (bool_decide (s = ∅))).

End Dict.

(** ** Events ([models/events.py]) *)

(** Modelled from the spec: [models/events.py] is not among the sources.
    An event carries a name and an opaque payload; a local event also the
    id of its channel, an outer event the id of its user. *)
Record Event : Type := {
  name : pyval;
  payload : pyval
}.

Record LocalEvent : Type := {
  local_event :> Event;
  channel_id : Z
}.

Record OuterEvent : Type := {
  outer_event :> Event;
  event_user_id : Z
}.

Record GlobalEvent : Type := {
  global_event :> Event
}.

(** What [emit] is handed: an instance of one of the three classes, or
    an event of another type. *)
Inductive emitted : Type :=
| Emit_local (event : LocalEvent)
| Emit_outer (event : OuterEvent)
| Emit_global (event : GlobalEvent)
| Emit_other (event : Event).

(** ** [EventEmitter.add_listener] and [EventEmitter.remove_listener] *)

Definition slots (l : Listener) : M Listener_slots := gets (λ w, objects w l).

Definition fetchval (user : Z) : M (option (list Z)) := λ w,
  (inr (pg_conn w user), log (PgFetchval user) w).

(** The [async with] block of [add_listener]; [channels] is what the
    store returned. *)
Definition add_listener_locked (listener : Listener) (user_id : Z)
    (channels : option (list Z)) : ST EventEmitter unit :=
  match channels with
  | None => raise TypeError
  | Some channels =>
      for_each channels (λ channel_id,
        known ← contains channels_ix channel_id;
        if known : bool then add_to channels_ix channel_id user_id
        else set_item channels_ix channel_id {[user_id]});;
      set_item users_ix user_id (list_to_set channels);;
      known ← contains listeners_ix user_id;
      if known : bool then add_to listeners_ix user_id listener
      else set_item listeners_ix user_id {[listener]}
  end.

Definition add_listener (listener : Listener) : M unit :=
  self ← slots listener;
  match user_id self with
  | None => mret tt
  | Some user_id =>
      channels ← fetchval user_id;
      async_with_lock (on_emitter (add_listener_locked listener user_id channels))
  end.

(** One turn of the loop of [remove_listener]. *)
Definition forget_channel (user_id channel_id : Z) : ST EventEmitter unit :=
  remove_from channels_ix channel_id user_id;;
  members ← nonempty channels_ix channel_id;
  (if members : bool then mret tt else del_item channels_ix channel_id);;
  remove_from users_ix user_id channel_id;;
  left ← nonempty users_ix user_id;
  if left : bool then mret tt else del_item users_ix user_id.

(** The [async with] block of [remove_listener]. *)
Definition remove_listener_locked (listener : Listener) (user_id : Z)
  : ST EventEmitter unit :=
  remove_from listeners_ix user_id listener;;
  others ← nonempty listeners_ix user_id;
  if others : bool then mret tt
  else
    del_item listeners_ix user_id;;
    channels ← lookup_item users_ix user_id;
    for_each (elements channels) (forget_channel user_id).

Definition remove_listener (listener : Listener) : M unit :=
  self ← slots listener;
  match user_id self with
  | None => mret tt
  | Some user_id =>
      known ← on_emitter (contains listeners_ix user_id);
      if negb known then mret tt
      else async_with_lock (on_emitter (remove_listener_locked listener user_id))
  end.

(** ** [Listener] *)

(** [ws.send_json(data)]: an open websocket takes the frame; on a closed
    one the call raises, and which exception is the library's. *)
Definition send_json (self : Listener) (data : pyval) : M unit :=
  o ← slots self;
  if ws_closed o
  then
    modify (log (WsSendJson self data false));;
    e ← gets dead_write;
    raise e
  else modify (log (WsSendJson self data true)).

(** [ws.close(code, message)] *)
Definition ws_close (self : Listener) (code : Z) (message : string) : M unit :=
  o ← slots self;
  modify (set_object self {| ws_closed := true; user_id := user_id o;
                             _last_hb := _last_hb o |});;
  modify (log (WsClose self code message)).

Definition on_RuntimeError {A} (h : M A) (e : exn) : option (M A) :=
  match e with RuntimeError => Some h | _ => None end.

Definition notify (self : Listener) (opcode : Opcode) (data : pyval) : M bool :=
  try_except
    (match data with
     | PNone => send_json self (PDict [("op", PInt (Opcode_value opcode))])
     | _ => send_json self (PDict [("op", PInt (Opcode_value opcode));
                                   ("d", data)])
     end;;
     mret true)
    (on_RuntimeError (mret false)).

Definition event_notify (self : Listener) (event : Event) : M bool :=
  try_except
    (send_json self (PDict [("op", PInt (Opcode_value DISPATCH));
                            ("d", payload event);
                            ("t", name event)]);;
     mret true)
    (on_RuntimeError (mret false)).

Definition close (self : Listener) (code : CloseCode) (message : string)
    (cleanup : bool) : M unit :=
  (if cleanup then remove_listener self else mret tt);;
  ws_close self (CloseCode_value code) message.

(** The defaults of [close]'s keyword arguments. *)
Definition close_default (self : Listener) : M unit :=
  close self NORMAL "" true.

Definition set_user_id (self : Listener) (u : Z) : M unit :=
  o ← slots self;
  modify (set_object self {| ws_closed := ws_closed o; user_id := Some u;
                             _last_hb := _last_hb o |}).

Definition set_last_hb (self : Listener) (t : Q) : M unit :=
  o ← slots self;
  modify (set_object self {| ws_closed := ws_closed o; user_id := user_id o;
                             _last_hb := t |}).

(** The [try] block of the IDENTIFY branch: the user of the token. *)
Definition identify_token (data : pyval) : M Z :=
  d ← lift (getitem data "d");
  token ← lift (getitem d "token");
  check ← gets (λ w, tokens w token);
  verified ← lift check;
  match verified with
  | Some user => mret user
  | None => raise ValueError
  end.

Definition _handle (self : Listener) (data : pyval) : M unit :=
  op ← lift (getitem data "op");
  if eq_int op (Opcode_value HEARTBEAT) then
    now ← gets time;
    set_last_hb self now;;
    notify self HEARTBEAT_ACK PNone;;
    mret tt
  else if eq_int op (Opcode_value IDENTIFY) then
    user ← try_except (user ← identify_token data; mret (Some user))
              (λ e, match e with
                    | ValueError | RuntimeError =>
                        Some (notify self INVALIDATE_SESSION PNone;;
                              close self BAD_TOKEN "" true;;
                              mret (None : option Z))
                    | _ => None
                    end);
    match user with
    | None => mret tt
    | Some user =>
        set_user_id self user;;
        add_listener self
    end
  else mret tt.

(** One turn of the loop of [listen]; a frame is given by what
    [json.loads(msg.data)] makes of it. *)
Definition listen_frame (self : Listener) (frame : exn + pyval) : M unit :=
  try_except (data ← lift frame; _handle self data)
    (λ e, match e with
          | KeyError => Some (close self BAD_PAYLOAD "" true)
          | _ => None
          end).

(** [listen]: the greeting, then the frames read until the websocket is
    closed.  The heartbeat task it spawns is [_check_hb] below. *)
Definition listen (self : Listener) (frames : list (exn + pyval)) : M unit :=
  notify self HELLO (PDict [("heartbeat_interval", PInt HEARTBEAT_INTERVAL)]);;
  for_each frames (λ frame,
    o ← slots self;
    if ws_closed o then mret tt else listen_frame self frame).

(** [_check_hb]: [wakes] lists the worlds the task finds each time
    [asyncio.sleep] returns; the task is still asleep when they run out. *)
Fixpoint _check_hb (self : Listener) (wakes : list World) (w : World)
  : option ((exn + unit) * World) :=
  let interval := (inject_Z HEARTBEAT_INTERVAL / 1000)%Q in
  let response_error_treshold := (interval / 10)%Q in
  if ws_closed (objects w self) then Some (close_default self w)
  else
    match wakes with
    | [] => None
    | w :: wakes =>
        let response_error :=
          ((time w - _last_hb (objects w self)) - interval)%Q in
        if negb (Qle_bool response_error response_error_treshold)
        then Some (close_default self w)
        else _check_hb self wakes w
    end.

(** ** Fan-out *)

(** The body shared by the three routines: notify every listener of
    [user], collecting the ones to close. *)
Definition notify_user (event : Event) (to_close : list Listener) (user : Z)
  : M (list Listener) :=
  listeners ← on_emitter (lookup_item listeners_ix user);
  for_in (elements listeners) to_close (λ to_close listener,
    sent ← event_notify listener event;
    mret (if sent : bool then to_close else to_close ++ [listener])).

Definition close_all (to_close : list Listener) : M unit :=
  for_each to_close close_default.

Definition notify_channel (event : LocalEvent) : M unit :=
  to_close ← async_with_lock (
    channels ← gets (λ w, _channels (emitter w));
    for_in (elements (default ∅ (channels !! channel_id event))) []
      (notify_user event));
  close_all to_close.

Definition notify_channels (event : OuterEvent) : M unit :=
  to_close ← async_with_lock (
    users ← gets (λ w, _users (emitter w));
    for_in (elements (default ∅ (users !! event_user_id event))) []
      (λ to_close channel_id,
         members ← on_emitter (lookup_item channels_ix channel_id);
         for_in (elements members) to_close (notify_user event)));
  close_all to_close.

Definition notify_everyone (event : GlobalEvent) : M unit :=
  to_close ← async_with_lock (
    listeners ← gets (λ w, _listeners (emitter w));
    for_in (map_to_list listeners) []
      (λ to_close '(_, listeners),
         for_in (elements listeners) to_close (λ to_close listener,
           sent ← event_notify listener event;
           mret (if sent : bool then to_close else to_close ++ [listener]))));
  close_all to_close.

(** [emit]: the task handed to [asyncio.create_task], if any. *)
Definition emit (event : emitted) : option (M unit) :=
  match event with
  | Emit_local event => Some (notify_channel event)
  | Emit_outer event => Some (notify_channels event)
  | Emit_global event => Some (notify_everyone event)
  | Emit_other _ => None
  end.

(** [EventEmitter.close] *)
Definition emitter_close (code : CloseCode) (message : string) : M unit :=
  on_emitter (modify (λ e, {| _channels := _channels e; _users := _users e;
                              _listeners := _listeners e; _closing := true |}));;
  listeners ← gets (λ w, _listeners (emitter w));
  for_each (map_to_list listeners) (λ '(_, listeners),
    for_each (elements listeners) (λ listener,
      close listener code message false)).

(** ** Runs and registry states *)

Definition set_pg_conn (pg : Z → option (list Z)) (w : World) : World :=
  {| emitter := emitter w; objects := objects w; pg_conn := pg;
     tokens := tokens w; dead_write := dead_write w; time := time w;
     trace := trace w |}.

(** The library raises [e] when a closed websocket is written to. *)
Definition set_dead_write (e : exn) (w : World) : World :=
  {| emitter := emitter w; objects := objects w; pg_conn := pg_conn w;
     tokens := tokens w; dead_write := e; time := time w;
     trace := trace w |}.

(** A member set after one user left it: [None] when nobody is left. *)
Definition without (user : Z) (s : gset Z) : option (gset Z) :=
  if decide (s ∖ {[user]} = ∅) then None else Some (s ∖ {[user]}).

(** A member set after one user joined it. *)
Definition joined (user : Z) (s : option (gset Z)) : gset Z :=
  {[user]} ∪ default ∅ s.

(** The reverse index after [user] joined each of [channels]. *)
Definition join_all (user : Z) (channels : list Z) (d : gmap Z (gset Z))
  : gmap Z (gset Z) :=
  foldl (λ d channel_id, <[channel_id := joined user (d !! channel_id)]> d)
        d channels.

(** The world before any connection: an emitter fresh from [__init__],
    no listener identified, every websocket open, and a library that
    raises [RuntimeError] when a closed websocket is written to, the
    exception [notify] and [event_notify] expect. *)
Definition new_world (pg : Z → option (list Z)) (tk : pyval → exn + option Z)
  : World :=
  {| emitter := new_emitter;
     objects := λ _, {| ws_closed := false; user_id := None; _last_hb := 0 |};
     pg_conn := pg; tokens := tk; dead_write := RuntimeError; time := 0;
     trace := [] |}.

(** An IDENTIFY frame, as [json.loads] returns it. *)
Definition identify_frame (token : string) : exn + pyval :=
  inr (PDict [("op", PInt (Opcode_value IDENTIFY));
              ("d", PDict [("token", PStr token)])]).

(** The peer of [listener] goes away: its websocket is closed. *)
Definition hang_up (listener : Listener) (w : World) : World :=
  set_object listener
    {| ws_closed := true; user_id := user_id (objects w listener);
       _last_hb := _last_hb (objects w listener) |} w.

(** [m] run after [w], keeping the world only. *)
Definition after {A} (m : M A) (w : World) : World := (m w).2.

(** The events a run added to the trace. *)
Definition events {A} (m : M A) (w : World) : list io_event :=
  drop (length (trace w)) (trace (m w).2).

Definition members (e : EventEmitter) (channel_id : Z) : gset Z :=
  default ∅ (_channels e !! channel_id).

Definition channels_of (e : EventEmitter) (user : Z) : gset Z :=
  default ∅ (_users e !! user).

Definition listeners_of (e : EventEmitter) (user : Z) : gset Listener :=
  default ∅ (_listeners e !! user).

(** The membership invariant: the two membership indices mirror each
    other. *)
Definition membership (e : EventEmitter) : Prop :=
  ∀ user channel_id,
    user ∈ members e channel_id ↔ channel_id ∈ channels_of e user.

Definition no_empty_sets (e : EventEmitter) : Prop :=
  (∀ k, _channels e !! k ≠ Some ∅) ∧
  (∀ k, _users e !! k ≠ Some ∅) ∧
  (∀ k, _listeners e !! k ≠ Some ∅).

(** What holds of the indices in every registry state: a user is a
    member of the channels it holds, only users with listeners hold
    channels, and no member set and no listener set is empty. *)
Definition consistent (e : EventEmitter) : Prop :=
  (∀ user channel_id,
     channel_id ∈ channels_of e user → user ∈ members e channel_id) ∧
  (∀ user, is_Some (_listeners e !! user) → is_Some (_users e !! user)) ∧
  (∀ user channel_id,
     channel_id ∈ channels_of e user → is_Some (_listeners e !! user)) ∧
  (∀ channel_id, _channels e !! channel_id ≠ Some ∅) ∧
  (∀ user, _listeners e !! user ≠ Some ∅).

(** The registry states: those the emitter gets into by calls of
    [add_listener], [remove_listener] and [EventEmitter.close], whatever
    happens around it to the listeners, the store and the clock. *)
Inductive reachable : World → Prop :=
| reachable_new w :
    emitter w = new_emitter → reachable w
| reachable_around w w' :
    reachable w → emitter w' = emitter w → reachable w'
| reachable_add w listener :
    reachable w → reachable (after (add_listener listener) w)
| reachable_remove w listener :
    reachable w → reachable (after (remove_listener listener) w)
| reachable_close w code message :
    reachable w → reachable (after (emitter_close code message) w).

(** The registry states got into while the store keeps answering [pg]. *)
Inductive reachable_with (pg : Z → option (list Z)) : World → Prop :=
| reachable_with_new w :
    emitter w = new_emitter → pg_conn w = pg → reachable_with pg w
| reachable_with_around w w' :
    reachable_with pg w → emitter w' = emitter w → pg_conn w' = pg →
    reachable_with pg w'
| reachable_with_add w listener :
    reachable_with pg w → reachable_with pg (after (add_listener listener) w)
| reachable_with_remove w listener :
    reachable_with pg w → reachable_with pg (after (remove_listener listener) w)
| reachable_with_close w code message :
    reachable_with pg w → reachable_with pg (after (emitter_close code message) w).

(** The forward index holds what the store answers. *)
Definition mirrors (pg : Z → option (list Z)) (e : EventEmitter) : Prop :=
  (∀ user cs, _users e !! user = Some cs →
     ∃ channels, pg user = Some channels ∧ cs = list_to_set channels) ∧
  (∀ user channel,
     user ∈ members e channel → channel ∈ channels_of e user).

(** The listeners [ws.send_json] was called on. *)
Definition notified (t : list io_event) : list Listener :=
  omap (λ ev, match ev with WsSendJson l _ _ => Some l | _ => None end) t.

Definition is_write (ev : io_event) : bool :=
  match ev with WsSendJson _ _ _ => true | _ => false end.

Definition is_close (ev : io_event) : bool :=
  match ev with WsClose _ _ _ => true | _ => false end.

Definition is_network (ev : io_event) : bool := is_write ev || is_close ev.

(** Whether the lock is held after the events [t]. *)
Fixpoint lock_after (held : bool) (t : list io_event) : bool :=
  match t with
  | [] => held
  | LockAcquire :: t => lock_after true t
  | LockRelease :: t => lock_after false t
  | _ :: t => lock_after held t
  end.

(** The events [t] respect [allowed], which says what may happen while
    the lock is held and while it is not; an [asyncio.Lock] that is held
    cannot be acquired again. *)
Fixpoint lock_scan (allowed : bool → io_event → bool) (held : bool)
    (t : list io_event) : bool :=
  match t with
  | [] => true
  | LockAcquire :: t => negb held && lock_scan allowed true t
  | LockRelease :: t => lock_scan allowed false t
  | ev :: t => allowed held ev && lock_scan allowed held t
  end.

(** Nothing is written to a websocket and no websocket is closed while
    the lock is held. *)
Definition no_network_under_lock (held : bool) (ev : io_event) : bool :=
  negb (held && is_network ev).

(** No websocket is closed while the lock is held, and nothing is
    written to a websocket while it is not. *)
Definition fan_out_policy (held : bool) (ev : io_event) : bool :=
  if held then negb (is_close ev) else negb (is_write ev).

(** A run that leaves the lock free and respects [fan_out_policy]. *)
Definition disciplined (t : list io_event) : Prop :=
  lock_scan fan_out_policy false t = true ∧ lock_after false t = false.

(** Events that are writes to websockets only. *)
Definition writes (t : list io_event) : Prop := Forall (λ ev, is_write ev) t.

(** The last heartbeat is older than the interval and its tenth. *)
Definition heartbeat_expired (self : Listener) (w : World) : Prop :=
  (33 < time w - _last_hb (objects w self))%Q.

Definition log_all (t : list io_event) (w : World) : World :=
  {| emitter := emitter w; objects := objects w; pg_conn := pg_conn w;
     tokens := tokens w; dead_write := dead_write w; time := time w;
     trace := trace w ++ t |}.

(** The run [m] adds to the trace events that satisfy [P], whatever its
    result. *)
Definition emits {A} (P : list io_event → Prop) (m : M A) : Prop :=
  ∀ w, ∃ t, trace (m w).2 = trace w ++ t ∧ P t.

(** The DISPATCH frame of [event], as written to [listener]. *)
Definition dispatch (event : Event) (w : World) (listener : Listener)
  : io_event :=
  WsSendJson listener
    (PDict [("op", PInt (Opcode_value DISPATCH));
            ("d", payload event); ("t", name event)])
    (negb (ws_closed (objects w listener))).

(** The listeners of the users [users], in the order they are written to. *)
Definition audience (e : EventEmitter) (users : list Z) : list Listener :=
  users ≫= λ user, elements (listeners_of e user).

(** ** [EventEmitter.create_listener] *)

(** [create_listener]: [ws] is the websocket made for the request, known
    by the identity of the listener it is wrapped in; once prepared it is
    open.  [ws.close()] closes with the code 1000 and no message. *)
Definition create_listener (ws : Listener) : M (option Listener) :=
  o ← slots ws;
  modify (set_object ws {| ws_closed := false; user_id := user_id o;
                           _last_hb := _last_hb o |});;
  closing ← gets (λ w, _closing (emitter w));
  if closing : bool then
    ws_close ws 1000 "";;
    mret None
  else
    now ← gets time;
    modify (set_object ws {| ws_closed := false; user_id := None;
                             _last_hb := now |});;
    mret (Some ws).

(** Every listener of the registry, set by set. *)
Definition registered (e : EventEmitter) : list Listener :=
  map_to_list (_listeners e) ≫= λ '(_, listeners), elements listeners.

(** [except RuntimeError] catches [e]. *)
Definition caught (e : exn) : bool :=
  match e with RuntimeError => true | _ => false end.

(** What [notify] and [event_notify] make of a write to [self]: [True]
    when the frame is written, [False] when the write raises
    [RuntimeError], and the exception of the write otherwise. *)
Definition write_result (w : World) (self : Listener) : exn + bool :=
  if ws_closed (objects w self) then
    if caught (dead_write w) then inr false else inl (dead_write w)
  else inr true.

(** The frame presents [token]: it decodes to a value whose [d] holds
    [token] under the key [token]. *)
Definition presented (frame : exn + pyval) (token : pyval) : Prop :=
  ∃ data d, frame = inr data ∧ getitem data "d" = inr d ∧
            getitem d "token" = inr token.

(** Each listener of [to_close] was written to in [t], and the write
    raised [RuntimeError]. *)
Definition failed_in (w : World) (t : list io_event)
    (to_close : list Listener) : Prop :=
  ∀ l, l ∈ to_close →
       dead_write w = RuntimeError ∧ ∃ data, WsSendJson l data false ∈ t.

(** [body] is a turn of a loop of the fan-out: it adds events, leaves the
    library as it is, and the listeners it adds to those to close are
    listeners on which a write of its own failed. *)
Definition collects {A} (body : list Listener → A → M (list Listener))
  : Prop :=
  ∀ to_close x w, ∃ t,
    trace (body to_close x w).2 = trace w ++ t ∧
    dead_write (body to_close x w).2 = dead_write w ∧
    ∀ to_close' t0,
      (body to_close x w).1 = inr to_close' →
      failed_in w t0 to_close → failed_in w (t0 ++ t) to_close'.

(** The listeners of [listeners] a write fails on, in the order they are
    written to. *)
Definition unsent (w : World) (listeners : list Listener) : list Listener :=
  filter (λ l, ws_closed (objects w l) = true) listeners.

(** A write to one of [listeners] raises an exception that
    [event_notify] does not catch. *)
Definition aborts (w : World) (listeners : list Listener) : bool :=
  negb (caught (dead_write w))
  && existsb (λ l, ws_closed (objects w l)) listeners.

(** The listeners of [listeners] that are written to when they are
    taken in this order: those up to the first one whose write raises an
    exception that [event_notify] does not catch, that one included. *)
Fixpoint reached (w : World) (listeners : list Listener) : list Listener :=
  match listeners with
  | [] => []
  | l :: listeners =>
      l :: (if negb (caught (dead_write w)) && ws_closed (objects w l)
            then [] else reached w listeners)
  end.

(** What the loops under the lock come to when they start in [w] with
    [to_close] collected and have [listeners] to write to, in this
    order: the listeners to close or the exception of a write, and the
    writes made. *)
Definition fan_out (event : Event) (w : World)
    (to_close listeners : list Listener) : (exn + list Listener) * World :=
  (if aborts w listeners then inl (dead_write w)
   else inr (to_close ++ unsent w listeners),
   log_all (dispatch event w <$> reached w listeners) w).

(** The listeners [notify_channels] writes to for an event of [user]:
    channel by channel, those of the members of the channel. *)
Definition outer_audience (e : EventEmitter) (user : Z) : list Listener :=
  elements (channels_of e user) ≫= λ channel_id,
    audience e (elements (members e channel_id)).

(** The events of a fan-out all of whose writes succeed. *)
Definition delivered (event : Event) (w : World) (listeners : list Listener)
  : list io_event :=
  [LockAcquire] ++ (dispatch event w <$> listeners) ++ [LockRelease].

End Emitter.

(** * The registration route ([routes/auth.py]) *)

Module Auth.

Local Open Scope Z_scope.

(** The columns [post_register] selects from the [users] table. *)
Record user_row : Set := {
  id : Z;
  name : string;
  email : string;
  verified : bool;
}.

Inductive http_error : Set :=
| HTTPBadRequest (reason : string).

(** [fetchrow] of the query of [post_register]: the first row whose name
    is [$1] or whose email is [$2]. *)
Definition fetchrow (users : list user_row) (nickname mail : string)
  : option user_row :=
  find (λ u, bool_decide (name u = nickname) || bool_decide (email u = mail))
       users.

(** [DELETE FROM users WHERE id = $1] *)
Definition delete_user (users : list user_row) (user_id : Z) : list user_row :=
  filter (λ u, id u ≠ user_id) users.

Section Register.

(** [EmailConfirmationCode.life_time()] comes from the
    [confirmation_codes] module. *)
Variable life_time : Z.

(** [post_register] up to the call of [EmailConfirmationCode.from_data]:
    [new_user_id] is what [sf_gen.gen_id()] returned, and the result is
    the [users] table at that point. *)
Definition post_register (nickname mail : string) (new_user_id : Z)
    (users : list user_row) : http_error + list user_row :=
  match fetchrow users nickname mail with
  | None => inr users
  | Some user =>
      if verified user && bool_decide (name user = nickname) then
        inl (HTTPBadRequest "Nickname is already registered")
      else if verified user && bool_decide (email user = mail) then
        inl (HTTPBadRequest "Email is already registered")
      else if life_time <? Z.shiftr (new_user_id - id user) 22 then
        inr (delete_user users (id user))
      else
        inl (HTTPBadRequest
               "User with this name or email is in registration process")
  end.

End Register.

End Auth.

(** * The middlewares ([middlewares.py]) *)

Module Middlewares.

(** The exception classes [error_handler] names. *)
Inductive exc_class : Set :=
| HTTPSuccessful | HTTPRedirection | HTTPException | HTTPMethodNotAllowed
| CancelledError | Exception.

(** An exception, as the [except] clauses see it. *)
Record exception : Set := {
  isinstance : exc_class → bool;
  status : Z;
  text : string;
}.

(** What a handler answers: its own response, or the one
    [web.json_response({"message": message}, status=status)] makes. *)
Inductive response (R : Type) : Type :=
| Handled (r : R)
| json_response (message : string) (status : Z).
Arguments Handled {R} r.
Arguments json_response {R} message status.

Inductive outcome (A : Type) : Type :=
| Returns (a : A)
| Raises (e : exception).
Arguments Returns {A} a.
Arguments Raises {A} e.

(** [error_handler]: [debug] is [req.config_dict["args"].debug] and
    [handled] what [await handler(req)] does. *)
Definition error_handler {R} (debug : bool) (handled : outcome R)
  : outcome (response R) :=
  match handled with
  | Returns r => Returns (Handled r)
  | Raises e =>
      if isinstance e HTTPSuccessful || isinstance e HTTPRedirection then
        Raises e
      else if isinstance e HTTPException then
        Returns (json_response (text e) (status e))
      else if isinstance e HTTPMethodNotAllowed || isinstance e CancelledError
      then
        if debug then Raises e
        else Returns (json_response "500 Internal server error" 500)
      else if isinstance e Exception then
        Returns (json_response "500: Internal server error" 500)
      else Raises e
  end.

End Middlewares.

(** * Properties of the snowflake generator *)

Module SnowflakeFacts.
Import Snowflake.
Local Open Scope Z_scope.

Lemma MAX_WORKER_ID_eq : MAX_WORKER_ID = 31.
Proof. reflexivity. Qed.

Lemma MAX_DATACENTER_ID_eq : MAX_DATACENTER_ID = 31.
Proof. reflexivity. Qed.

Lemma SEQUENCE_MASK_eq : SEQUENCE_MASK = Z.ones 12.
Proof. reflexivity. Qed.

(** Or-ing a value below [2 ^ n] into a value shifted left by [n] adds it. *)
Lemma lor_shiftl_low (a b n : Z) :
  0 ≤ n → 0 ≤ b < 2 ^ n → Z.lor (Z.shiftl a n) b = a * 2 ^ n + b.
Proof.
  intros Hn Hb.
  assert (Hland : Z.land (Z.shiftl a n) b = 0).
  { apply Z.bits_inj'. intros i Hi.
    rewrite Z.land_spec, Z.bits_0.
    destruct (Z.lt_ge_cases i n) as [Hlt | Hge].
    - rewrite Z.shiftl_spec_low by lia. reflexivity.
    - destruct (Z.eq_dec b 0) as [-> | Hb0].
      + rewrite Z.bits_0. apply andb_false_r.
      + rewrite (Z.bits_above_log2 b i); [apply andb_false_r | lia |].
        apply Z.log2_lt_pow2; [lia |].
        eapply Z.lt_le_trans; [apply Hb |].
        apply Z.pow_le_mono_r; lia. }
  rewrite <- (Z.lxor_lor _ _ Hland), <- (Z.add_nocarry_lxor _ _ Hland).
  rewrite Z.shiftl_mul_pow2 by lia. reflexivity.
Qed.

Lemma sequence_step (s : Z) :
  0 ≤ s ≤ SEQUENCE_MASK →
  Z.land (s + 1) SEQUENCE_MASK = if s =? 4095 then 0 else s + 1.
Proof.
  rewrite SEQUENCE_MASK_eq. intros Hs. change (Z.ones 12) with 4095 in Hs.
  rewrite Z.land_ones by lia. change (2 ^ 12) with 4096.
  destruct (Z.eqb_spec s 4095) as [-> | Hne]; [reflexivity |].
  apply Z.mod_small. lia.
Qed.

Lemma wf_restart (self : SnowflakeGenerator) (t : Z) :
  wf self → wf (set_last_timestamp (set_sequence self 0) t).
Proof.
  intros (? & ? & ?). unfold wf; simpl. rewrite SEQUENCE_MASK_eq.
  change (Z.ones 12) with 4095. lia.
Qed.

(** The generators [__init__] builds are well-formed. *)
Lemma init_wf (worker datacenter : Z) (self : SnowflakeGenerator) :
  __init__ worker datacenter = inr self →
  wf self ∧ sequence self = 0 ∧ _last_timestamp self = -1.
Proof.
  unfold __init__.
  destruct (Z.leb_spec 0 worker), (Z.leb_spec worker MAX_WORKER_ID);
    try done.
  destruct (Z.leb_spec 0 datacenter), (Z.leb_spec datacenter MAX_DATACENTER_ID);
    try done.
  simpl. intros [= <-]. unfold wf. simpl. repeat split; try done.
Qed.

Section Facts.
Variable EPOCH_OFFSET_MS : Z.
Variable clock : nat → Z.

(** The identifier as a sum of its four fields. *)
Lemma snowflake_sum (self : SnowflakeGenerator) (timestamp : Z) :
  wf self →
  snowflake EPOCH_OFFSET_MS self timestamp =
    (timestamp - EPOCH_OFFSET_MS) * 2 ^ 22
    + (datacenter_id self * 2 ^ 17 + (worker_id self * 2 ^ 12 + sequence self)).
Proof.
  intros (Hw & Hd & Hs).
  rewrite MAX_WORKER_ID_eq in Hw. rewrite MAX_DATACENTER_ID_eq in Hd.
  rewrite SEQUENCE_MASK_eq in Hs. change (Z.ones 12) with 4095 in Hs.
  unfold snowflake.
  change TIMESTAMP_SHIFT with 22. change DATACENTER_SHIFT with 17.
  change WORKER_SHIFT with 12.
  rewrite <- !Z.lor_assoc.
  rewrite (lor_shiftl_low (worker_id self)) by lia.
  rewrite (lor_shiftl_low (datacenter_id self)) by lia.
  rewrite lor_shiftl_low by lia.
  reflexivity.
Qed.

Lemma til_next_ms_later fuel self now timestamp now' :
  til_next_ms clock fuel self now = Some (timestamp, now') →
  _last_timestamp self < timestamp.
Proof.
  revert now. induction fuel as [| fuel IH]; intros now; simpl; [done |].
  destruct (Z.leb_spec (clock now) (_last_timestamp self)); [apply IH |].
  intros [= <- <-]. done.
Qed.

(** [til_next_ms] returns once it has read a clock value past
    [_last_timestamp]. *)
Lemma til_next_ms_returns fuel self : ∀ now k,
  (now ≤ k < now + fuel)%nat → _last_timestamp self < clock k →
  is_Some (til_next_ms clock fuel self now).
Proof.
  induction fuel as [| fuel IH]; intros now k Hk Hlater; [lia |]. simpl.
  destruct (Z.leb_spec (clock now) (_last_timestamp self)) as [Hle |]; [| done].
  apply (IH (S now) k); [| done].
  destruct (decide (k = now)) as [-> | Hne]; lia.
Qed.

(** A call that finds the clock at or past [_last_timestamp] returns,
    given that the clock gets past [_last_timestamp] within the readings
    observed. *)
Lemma gen_id_returns fuel self now k :
  _last_timestamp self ≤ clock now →
  (now < k ≤ now + fuel)%nat → _last_timestamp self < clock k →
  ∃ id, (gen_id EPOCH_OFFSET_MS clock fuel self now).1.1 = Returned id.
Proof.
  intros Hnow Hk Hlater. unfold gen_id, gen_timestamp.
  destruct (Z.ltb_spec (clock now) (_last_timestamp self)); [lia |].
  destruct (_ =? _); [| by eauto]. simpl.
  destruct (_ =? _); [| by eauto].
  destruct (til_next_ms_returns fuel
              (set_sequence self (Z.land (sequence self + 1) SEQUENCE_MASK))
              (S now) k) as [[ts now'] ->]; [lia | done |].
  by eauto.
Qed.

(** A call that returns leaves a well-formed generator whose last issued
    identifier is the one returned, greater than the one before. *)
Lemma gen_id_returned fuel self now id self' now' :
  wf self →
  gen_id EPOCH_OFFSET_MS clock fuel self now = (Returned id, self', now') →
  wf self' ∧ id = issued EPOCH_OFFSET_MS self' ∧
  issued EPOCH_OFFSET_MS self < id.
Proof.
  intros Hwf. assert (Hwf' := Hwf). destruct Hwf' as (Hw & Hd & Hs).
  unfold gen_id, gen_timestamp.
  destruct (Z.ltb_spec (clock now) (_last_timestamp self)) as [| Hge]; [done |].
  assert (Hgo : ∀ s t,
    0 ≤ s ≤ SEQUENCE_MASK →
    _last_timestamp self < t ∨ (_last_timestamp self = t ∧ s = sequence self + 1) →
    let g := set_last_timestamp (set_sequence self s) t in
    wf g ∧ snowflake EPOCH_OFFSET_MS g t = issued EPOCH_OFFSET_MS g ∧
    issued EPOCH_OFFSET_MS self < snowflake EPOCH_OFFSET_MS g t).
  { intros s t Hs' Hord g.
    assert (Hg : wf g) by (subst g; unfold wf; simpl; auto).
    split; [done |]. split; [done |].
    unfold issued. rewrite (snowflake_sum self), (snowflake_sum g) by done.
    subst g. simpl.
    rewrite MAX_WORKER_ID_eq in Hw. rewrite MAX_DATACENTER_ID_eq in Hd.
    rewrite SEQUENCE_MASK_eq in Hs, Hs'. change (Z.ones 12) with 4095 in Hs, Hs'.
    lia. }
  destruct (Z.eqb_spec (_last_timestamp self) (clock now)) as [Heq | Hne].
  - simpl. rewrite sequence_step by done.
    destruct (Z.eqb_spec (sequence self) 4095) as [Hwrap | Hnowrap]; simpl.
    + destruct (til_next_ms _ _ _ _) as [[t n] |] eqn:Hwait; [| done].
      apply til_next_ms_later in Hwait. simpl in Hwait.
      intros [= <- <- <-]. apply (Hgo 0 t); [done | by left].
    + destruct (Z.eqb_spec (sequence self + 1) 0) as [| _]; [lia |].
      intros [= <- <- <-].
      apply (Hgo (sequence self + 1) (clock now)); [| by right].
      rewrite SEQUENCE_MASK_eq in Hs |- *. change (Z.ones 12) with 4095 in *. lia.
  - intros [= <- <- <-]. apply (Hgo 0 (clock now)); [done | left; lia].
Qed.

(** A call that raises leaves the generator as it was. *)
Lemma gen_id_raised fuel self now e self' now' :
  gen_id EPOCH_OFFSET_MS clock fuel self now = (Raised e, self', now') →
  e = RuntimeError ∧ self' = self ∧ clock now < _last_timestamp self.
Proof.
  unfold gen_id, gen_timestamp.
  destruct (Z.ltb_spec (clock now) (_last_timestamp self)) as [Hlt | Hge].
  - intros [= <- <- <-]. done.
  - destruct (_ =? _); [| done].
    destruct (_ =? _); [| done].
    by destruct (til_next_ms _ _ _ _) as [[t n] |].
Qed.

(** Every identifier returned by a run of calls is greater than the one
    issued before the run, and the identifiers are returned in strictly
    increasing order. *)
Lemma gen_ids_increasing fuel n : ∀ self now,
  wf self →
  let rs := (gen_ids EPOCH_OFFSET_MS clock fuel n self now).1.1 in
  Forall (λ id, issued EPOCH_OFFSET_MS self < id) (returned rs) ∧
  StronglySorted Z.lt (returned rs).
Proof.
  induction n as [| n IH]; intros self now Hwf; simpl.
  { split; constructor. }
  destruct (gen_id _ _ _ _ _) as [[r self'] now'] eqn:Hcall.
  destruct r as [id | e |]; simpl.
  - apply gen_id_returned in Hcall as (Hwf' & -> & Hlt); [| done].
    specialize (IH self' now' Hwf').
    destruct (gen_ids _ _ _ _ _ _) as [[rs self''] now'']. simpl in *.
    destruct IH as [Hall Hsorted]. split.
    + constructor; [done |].
      eapply Forall_impl; [apply Hall |]. simpl. lia.
    + by constructor.
  - apply gen_id_raised in Hcall as (_ & -> & _).
    specialize (IH self now' Hwf).
    by destruct (gen_ids _ _ _ _ _ _) as [[rs self''] now''].
  - split; constructor.
Qed.

Lemma gen_ids_S_returned fuel n self now id self' now' :
  gen_id EPOCH_OFFSET_MS clock fuel self now = (Returned id, self', now') →
  (gen_ids EPOCH_OFFSET_MS clock fuel (S n) self now).1.1
  = Returned id :: (gen_ids EPOCH_OFFSET_MS clock fuel n self' now').1.1.
Proof.
  intros Hcall. cbn [gen_ids]. rewrite Hcall.
  by destruct (gen_ids _ _ _ _ _ _) as [[rs g] k].
Qed.

Section SameMillisecond.
Variable t : Z.
Hypothesis clock_stands : ∀ k, clock k = t.

Lemma til_next_ms_stuck fuel self now :
  t ≤ _last_timestamp self → til_next_ms clock fuel self now = None.
Proof.
  intros Hle. revert now.
  induction fuel as [| fuel IH]; intros now; simpl; [done |].
  rewrite clock_stands. destruct (Z.leb_spec t (_last_timestamp self)); [| lia].
  apply IH.
Qed.

(** The first call of a millisecond restarts the sequence. *)
Lemma gen_id_first fuel self now :
  _last_timestamp self < t →
  let g := set_last_timestamp (set_sequence self 0) t in
  gen_id EPOCH_OFFSET_MS clock fuel self now
  = (Returned (snowflake EPOCH_OFFSET_MS g t), g, S now).
Proof.
  intros Hlt g. unfold gen_id, gen_timestamp. rewrite clock_stands.
  destruct (Z.ltb_spec t (_last_timestamp self)); [lia |].
  destruct (Z.eqb_spec (_last_timestamp self) t); [lia |]. done.
Qed.

(** A later call of the millisecond takes the next sequence number. *)
Lemma gen_id_next fuel self now :
  wf self → _last_timestamp self = t → sequence self < 4095 →
  gen_id EPOCH_OFFSET_MS clock fuel self now
  = (Returned (issued EPOCH_OFFSET_MS self + 1),
     set_sequence self (sequence self + 1), S now).
Proof.
  intros Hwf Hlast Hseq. unfold gen_id, gen_timestamp. rewrite clock_stands.
  destruct (Z.ltb_spec t (_last_timestamp self)); [lia |].
  destruct (Z.eqb_spec (_last_timestamp self) t); [| lia].
  simpl. rewrite sequence_step by apply Hwf.
  destruct (Z.eqb_spec (sequence self) 4095); [lia |].
  destruct (Z.eqb_spec (sequence self + 1) 0);
    [destruct Hwf as (_ & _ & ?); lia |].
  assert (Hwf' : wf (set_last_timestamp
                       (set_sequence self (sequence self + 1)) t)).
  { destruct Hwf as (? & ? & Hs). unfold wf; simpl.
    rewrite SEQUENCE_MASK_eq in *. change (Z.ones 12) with 4095 in *. lia. }
  unfold issued. rewrite (snowflake_sum _ _ Hwf'), (snowflake_sum _ _ Hwf).
  simpl. rewrite Hlast. unfold set_last_timestamp, set_sequence. simpl.
  rewrite <- Hlast. do 2 f_equal. f_equal. lia.
Qed.

(** Once sequence number 4095 is used, the next call of the millisecond
    waits for the clock. *)
Lemma gen_id_full fuel self now :
  wf self → _last_timestamp self = t → sequence self = 4095 →
  gen_id EPOCH_OFFSET_MS clock fuel self now
  = (Spinning, set_sequence self 0, S now).
Proof.
  intros Hwf Hlast Hseq. unfold gen_id, gen_timestamp. rewrite clock_stands.
  destruct (Z.ltb_spec t (_last_timestamp self)); [lia |].
  destruct (Z.eqb_spec (_last_timestamp self) t); [| lia].
  simpl. rewrite sequence_step by apply Hwf.
  destruct (Z.eqb_spec (sequence self) 4095); [| lia]. simpl.
  rewrite til_next_ms_stuck by (simpl; lia). done.
Qed.

(** [m] further calls in the millisecond, while sequence numbers last. *)
Lemma gen_ids_next fuel m : ∀ self now,
  wf self → _last_timestamp self = t → sequence self + Z.of_nat m ≤ 4095 →
  gen_ids EPOCH_OFFSET_MS clock fuel m self now
  = ((λ k, Returned (issued EPOCH_OFFSET_MS self + 1 + Z.of_nat k)) <$> seq 0 m,
     set_sequence self (sequence self + Z.of_nat m), (now + m)%nat).
Proof.
  induction m as [| m IH]; intros self now Hwf Hlast Hseq.
  { simpl. rewrite Z.add_0_r, Nat.add_0_r. by destruct self. }
  cbn [gen_ids]. rewrite gen_id_next by (done || lia).
  assert (Hwf' : wf (set_sequence self (sequence self + 1))).
  { destruct Hwf as (? & ? & Hs). unfold wf; simpl.
    rewrite SEQUENCE_MASK_eq in *. change (Z.ones 12) with 4095 in *. lia. }
  rewrite IH by (done || simpl; lia).
  assert (Hg : issued EPOCH_OFFSET_MS (set_sequence self (sequence self + 1))
               = issued EPOCH_OFFSET_MS self + 1).
  { unfold issued. rewrite (snowflake_sum _ _ Hwf'), (snowflake_sum _ _ Hwf).
    simpl. lia. }
  rewrite Hg. f_equal; [f_equal |].
  - cbn [seq fmap list_fmap]. f_equal; [f_equal; lia |].
    rewrite <- fmap_S_seq, <- list_fmap_compose.
    apply list_fmap_ext. intros _ k _. simpl. f_equal. lia.
  - unfold set_sequence. simpl. f_equal. lia.
  - lia.
Qed.

(** When sequence numbers run out before the calls do, the run ends in a
    call that does not return. *)
Lemma gen_ids_exhaust fuel m extra : ∀ self now,
  wf self → _last_timestamp self = t → sequence self + Z.of_nat m = 4095 →
  (gen_ids EPOCH_OFFSET_MS clock fuel (m + S extra) self now).1.1
  = ((λ k, Returned (issued EPOCH_OFFSET_MS self + 1 + Z.of_nat k)) <$> seq 0 m)
    ++ [Spinning].
Proof.
  induction m as [| m IH]; intros self now Hwf Hlast Hseq.
  { cbn [Nat.add gen_ids]. rewrite gen_id_full by (done || lia). done. }
  cbn [Nat.add gen_ids]. rewrite gen_id_next by (done || lia).
  assert (Hwf' : wf (set_sequence self (sequence self + 1))).
  { destruct Hwf as (? & ? & Hs). unfold wf; simpl.
    rewrite SEQUENCE_MASK_eq in *. change (Z.ones 12) with 4095 in *. lia. }
  specialize (IH (set_sequence self (sequence self + 1)) (S now) Hwf').
  destruct (gen_ids _ _ _ _ _ _) as [[rs self'] now']. simpl in IH |- *.
  rewrite IH by (done || simpl; lia).
  assert (Hg : issued EPOCH_OFFSET_MS (set_sequence self (sequence self + 1))
               = issued EPOCH_OFFSET_MS self + 1).
  { unfold issued. rewrite (snowflake_sum _ _ Hwf'), (snowflake_sum _ _ Hwf).
    simpl. lia. }
  rewrite Hg. cbn [seq fmap list_fmap app]. f_equal; [f_equal; lia |].
  f_equal. rewrite <- fmap_S_seq, <- list_fmap_compose.
  apply list_fmap_ext. intros _ k _. simpl. f_equal. lia.
Qed.

(** Up to 4096 calls, the first of them the first call of the
    millisecond, return consecutive identifiers. *)
Lemma gen_ids_burst fuel n self now :
  wf self → _last_timestamp self < t → (n ≤ 4096)%nat →
  let g := set_last_timestamp (set_sequence self 0) t in
  (gen_ids EPOCH_OFFSET_MS clock fuel n self now).1.1
  = (λ k, Returned (snowflake EPOCH_OFFSET_MS g t + Z.of_nat k)) <$> seq 0 n.
Proof.
  intros Hwf Hlt Hn g. destruct n as [| m]; [done |].
  cbn [gen_ids]. rewrite gen_id_first by done. fold g.
  assert (Hg : wf g).
  { apply wf_restart, Hwf. }
  rewrite (gen_ids_next fuel m g (S now)) by (done || simpl; lia).
  cbn [seq fmap list_fmap fst]. f_equal; [f_equal; lia |].
  rewrite <- fmap_S_seq, <- list_fmap_compose.
  apply list_fmap_ext. intros _ k _. unfold issued. simpl. f_equal. lia.
Qed.

(** However many calls follow, the 4097-th of the millisecond does not
    return. *)
Lemma gen_ids_overrun fuel m extra self now :
  wf self → _last_timestamp self < t → Z.of_nat m = 4095 →
  let g := set_last_timestamp (set_sequence self 0) t in
  (gen_ids EPOCH_OFFSET_MS clock fuel (S m + S extra) self now).1.1
  = ((λ k, Returned (snowflake EPOCH_OFFSET_MS g t + Z.of_nat k)) <$> seq 0 (S m))
    ++ [Spinning].
Proof.
  intros Hwf Hlt Hm g. cbn [Nat.add].
  rewrite (gen_ids_S_returned _ _ _ _ _ _ _ (gen_id_first fuel self now Hlt)).
  fold g. assert (Hg : wf g) by apply wf_restart, Hwf.
  rewrite (gen_ids_exhaust fuel m extra g (S now) Hg eq_refl)
    by (simpl; lia).
  cbn [seq fmap list_fmap app]. f_equal; [f_equal; lia |]. f_equal.
  rewrite <- fmap_S_seq, <- list_fmap_compose.
  apply list_fmap_ext. intros _ k _. unfold issued. simpl. f_equal. lia.
Qed.

End SameMillisecond.

(** Identifiers of one millisecond differ in the sequence field only. *)
Lemma sequence_field (self : SnowflakeGenerator) (timestamp k : Z) :
  wf self → sequence self = 0 → 0 ≤ k ≤ SEQUENCE_MASK →
  let first := snowflake EPOCH_OFFSET_MS self timestamp in
  Z.shiftr (first + k) SEQUENCE_BITS = Z.shiftr first SEQUENCE_BITS ∧
  Z.land (first + k) SEQUENCE_MASK = k.
Proof.
  intros Hwf Hseq Hk first.
  rewrite SEQUENCE_MASK_eq in Hk |- *. change (Z.ones 12) with 4095 in Hk.
  assert (Hfirst : first =
    ((timestamp - EPOCH_OFFSET_MS) * 1024
     + datacenter_id self * 32 + worker_id self) * 2 ^ 12).
  { subst first. rewrite snowflake_sum by done. rewrite Hseq. lia. }
  rewrite Hfirst. change SEQUENCE_BITS with 12.
  rewrite !Z.shiftr_div_pow2, Z.land_ones by lia. split.
  - rewrite Z.div_add_l, Z.div_mul by lia.
    rewrite (Z.div_small k) by (change (2 ^ 12) with 4096; lia). lia.
  - rewrite Z.add_comm, Z.mod_add by lia.
    apply Z.mod_small. change (2 ^ 12) with 4096. lia.
Qed.

End Facts.

Lemma returned_burst (f : nat → Z) (ks : list nat) (rs : list result) :
  Forall (λ r, r = Spinning) rs →
  returned (((λ k, Returned (f k)) <$> ks) ++ rs) = f <$> ks.
Proof.
  intros Hrs. unfold returned. rewrite omap_app.
  assert (Hnone : omap (λ r, match r with Returned id => Some id | _ => None end)
                    rs = []).
  { induction Hrs as [| r rs -> _ IH]; [done |]. simpl. apply IH. }
  rewrite Hnone, app_nil_r.
  induction ks as [| k ks IH]; [done |]. simpl. f_equal. apply IH.
Qed.

(** ** The claims *)

(** C4 (as stated) fails: with the clock standing still, a fresh generator
    returns 4096 identifiers and its 4097-th call never returns, however
    many clock readings are observed, so 10,000 calls do not complete in
    one millisecond. *)
Lemma gen_id_10000_calls_same_millisecond :
  ¬ ∃ fuel : nat,
      length (returned
                (gen_ids 0 (λ _, 7) fuel 10000
                   {| worker_id := 0; datacenter_id := 0; sequence := 0;
                      _last_timestamp := -1 |} 0).1.1) = 10000%nat.
Proof.
  intros [fuel Hlen].
  change 10000%nat with (S 4095 + S 5903)%nat in Hlen at 1.
  rewrite (gen_ids_overrun 0 (λ _, 7) 7 (λ _, eq_refl) fuel 4095) in Hlen.
  - rewrite returned_burst, length_fmap, length_seq in Hlen by (by constructor).
    apply (f_equal Z.of_nat) in Hlen. vm_compute in Hlen. discriminate.
  - unfold wf. vm_compute. repeat split; discriminate.
  - done.
  - done.
Qed.

(** C4 (as amended): identifiers returned by one generator are strictly
    increasing, whatever the clock does, so no two calls return the same
    identifier; a call that does not find the clock behind returns once
    the clock is past [_last_timestamp].  While the clock reads one value
    [t], at most 4096 calls return: starting with the first call of that
    millisecond they return consecutive identifiers, which differ in the
    12-bit sequence field only; the 4097-th call stays in [til_next_ms]
    until the clock advances, so no run of more than 4096 calls completes
    within one millisecond. *)
Theorem gen_id_strictly_increasing
    (EPOCH_OFFSET_MS : Z) (clock : nat → Z) (fuel : nat)
    (self : SnowflakeGenerator) (now : nat) :
  wf self →
  (∀ n, StronglySorted Z.lt
          (returned (gen_ids EPOCH_OFFSET_MS clock fuel n self now).1.1)) ∧
  (∀ k, _last_timestamp self ≤ clock now →
        (now < k ≤ now + fuel)%nat → _last_timestamp self < clock k →
        ∃ id, (gen_id EPOCH_OFFSET_MS clock fuel self now).1.1 = Returned id) ∧
  (∀ t, (∀ k, clock k = t) → _last_timestamp self < t →
     let first :=
       snowflake EPOCH_OFFSET_MS (set_last_timestamp (set_sequence self 0) t) t in
     (∀ n, (n ≤ 4096)%nat →
        (gen_ids EPOCH_OFFSET_MS clock fuel n self now).1.1
        = (λ k, Returned (first + Z.of_nat k)) <$> seq 0 n) ∧
     (∀ k, 0 ≤ k ≤ SEQUENCE_MASK →
        Z.shiftr (first + k) SEQUENCE_BITS = Z.shiftr first SEQUENCE_BITS ∧
        Z.land (first + k) SEQUENCE_MASK = k) ∧
     (∀ extra,
        (gen_ids EPOCH_OFFSET_MS clock fuel (4096 + S extra) self now).1.1
        = ((λ k, Returned (first + Z.of_nat k)) <$> seq 0 4096) ++ [Spinning])).
Proof.
  intros Hwf. split; [| split].
  - intros n. apply gen_ids_increasing, Hwf.
  - intros k. apply gen_id_returns.
  - intros t Hclock Hlt first. split; [| split].
    + intros n Hn. by apply gen_ids_burst.
    + intros k Hk. apply sequence_field; [| done | done].
      apply wf_restart, Hwf.
    + intros extra.
      by apply (gen_ids_overrun EPOCH_OFFSET_MS clock t Hclock fuel 4095).
Qed.

Lemma gen_id_strictly_increasing_witness :
  let self := {| worker_id := 1; datacenter_id := 1; sequence := 0;
                 _last_timestamp := -1 |} in
  wf self ∧
  ∀ n, StronglySorted Z.lt (returned (gen_ids 0 (λ _, 7) 2 n self 0).1.1).
Proof.
  intros self.
  assert (Hwf : wf self).
  { unfold wf. vm_compute. repeat split; discriminate. }
  split; [exact Hwf |].
  apply (gen_id_strictly_increasing 0 (λ _, 7) 2 self 0 Hwf).
Defined.

(** C5: when the clock reads less than [_last_timestamp], [gen_id] raises
    [RuntimeError] and returns no identifier, and the generator is left
    as it was. *)
Theorem gen_id_clock_backwards
    (EPOCH_OFFSET_MS : Z) (clock : nat → Z) (fuel : nat)
    (self : SnowflakeGenerator) (now : nat) :
  clock now < _last_timestamp self →
  gen_id EPOCH_OFFSET_MS clock fuel self now = (Raised RuntimeError, self, S now).
Proof.
  intros Hlt. unfold gen_id, gen_timestamp.
  by destruct (Z.ltb_spec (clock now) (_last_timestamp self)); [| lia].
Qed.

Lemma gen_id_clock_backwards_witness :
  let self := {| worker_id := 1; datacenter_id := 1; sequence := 5;
                 _last_timestamp := 1000 |} in
  (λ _ : nat, 999) O < _last_timestamp self ∧
  gen_id 0 (λ _, 999) 3 self 0 = (Raised RuntimeError, self, 1%nat).
Proof.
  intros self.
  assert (Hlt : (λ _ : nat, 999) O < _last_timestamp self) by (simpl; lia).
  split; [exact Hlt |].
  apply (gen_id_clock_backwards 0 (λ _, 999) 3 self 0 Hlt).
Defined.

(** ** More about the generator *)

(** [__init__] accepts the identifiers from 0 to 31 and no other. *)
Theorem init_range (worker datacenter : Z) :
  (0 ≤ worker ≤ 31 ∧ 0 ≤ datacenter ≤ 31 →
   __init__ worker datacenter
   = inr {| worker_id := worker; datacenter_id := datacenter;
            sequence := 0; _last_timestamp := -1 |}) ∧
  (¬ (0 ≤ worker ≤ 31 ∧ 0 ≤ datacenter ≤ 31) →
   __init__ worker datacenter = inl ValueError).
Proof.
  unfold __init__. rewrite MAX_WORKER_ID_eq, MAX_DATACENTER_ID_eq.
  destruct (Z.leb_spec 0 worker), (Z.leb_spec worker 31),
    (Z.leb_spec 0 datacenter), (Z.leb_spec datacenter 31);
    simpl; split; intros; try done; lia.
Qed.

Section Fields.
Variable EPOCH_OFFSET_MS : Z.

(** The four fields are read back from an identifier by shifting and
    masking. *)
Theorem snowflake_fields (self : SnowflakeGenerator) (timestamp : Z) :
  wf self →
  let id := snowflake EPOCH_OFFSET_MS self timestamp in
  Z.shiftr id TIMESTAMP_SHIFT = timestamp - EPOCH_OFFSET_MS ∧
  Z.land (Z.shiftr id DATACENTER_SHIFT) MAX_DATACENTER_ID = datacenter_id self ∧
  Z.land (Z.shiftr id WORKER_SHIFT) MAX_WORKER_ID = worker_id self ∧
  Z.land id SEQUENCE_MASK = sequence self.
Proof.
  intros Hwf id. subst id. rewrite snowflake_sum by done.
  destruct Hwf as (Hw & Hd & Hs).
  rewrite MAX_WORKER_ID_eq in *. rewrite MAX_DATACENTER_ID_eq in *.
  rewrite SEQUENCE_MASK_eq in *. change (Z.ones 12) with 4095 in Hs.
  change TIMESTAMP_SHIFT with 22. change DATACENTER_SHIFT with 17.
  change WORKER_SHIFT with 12.
  change 31 with (Z.ones 5). rewrite !Z.shiftr_div_pow2, !Z.land_ones by lia.
  set (a := timestamp - EPOCH_OFFSET_MS).
  set (d := datacenter_id self) in *. set (k := worker_id self) in *.
  set (s := sequence self) in *.
  change (Z.ones 5) with 31 in *.
  repeat split.
  - symmetry. apply (Z.div_unique _ _ _ (d * 2 ^ 17 + (k * 2 ^ 12 + s))); lia.
  - replace (a * 2 ^ 22 + (d * 2 ^ 17 + (k * 2 ^ 12 + s)))
      with ((a * 32 + d) * 2 ^ 17 + (k * 2 ^ 12 + s)) by lia.
    rewrite <- (Z.div_unique _ (2 ^ 17) (a * 32 + d) (k * 2 ^ 12 + s)) by lia.
    symmetry. apply (Z.mod_unique _ _ a); lia.
  - replace (a * 2 ^ 22 + (d * 2 ^ 17 + (k * 2 ^ 12 + s)))
      with (((a * 32 + d) * 32 + k) * 2 ^ 12 + s) by lia.
    rewrite <- (Z.div_unique _ (2 ^ 12) ((a * 32 + d) * 32 + k) s) by lia.
    symmetry. apply (Z.mod_unique _ _ (a * 32 + d)); lia.
  - symmetry.
    apply (Z.mod_unique _ _ ((a * 32 + d) * 32 + k)); lia.
Qed.

End Fields.

Section Calls.
Variable EPOCH_OFFSET_MS : Z.
Variable clock : nat → Z.

(** Whatever a call of [gen_id] does, the generator stays well-formed,
    keeps its worker and datacenter, and its [_last_timestamp] does not
    go back. *)
Theorem gen_id_keeps_generator fuel self now :
  wf self →
  let self' := (gen_id EPOCH_OFFSET_MS clock fuel self now).1.2 in
  wf self' ∧
  worker_id self' = worker_id self ∧
  datacenter_id self' = datacenter_id self ∧
  _last_timestamp self ≤ _last_timestamp self'.
Proof.
  intros Hwf. assert (Hwf' := Hwf). destruct Hwf' as (Hw & Hd & Hs).
  unfold gen_id, gen_timestamp.
  destruct (Z.ltb_spec (clock now) (_last_timestamp self)) as [| Hge].
  { simpl. repeat split; try done; lia. }
  assert (Hmask : 0 ≤ 0 ≤ SEQUENCE_MASK) by (by rewrite SEQUENCE_MASK_eq).
  destruct (Z.eqb_spec (_last_timestamp self) (clock now)) as [Heq | Hne].
  - simpl. rewrite sequence_step by done.
    destruct (Z.eqb_spec (sequence self) 4095) as [Hwrap | Hnowrap]; simpl.
    + destruct (til_next_ms _ _ _ _) as [[t n] |] eqn:Hwait; simpl.
      * apply til_next_ms_later in Hwait. simpl in Hwait.
        unfold wf. simpl. repeat split; try done; lia.
      * unfold wf. simpl. repeat split; try done; lia.
    + destruct (Z.eqb_spec (sequence self + 1) 0) as [| _]; [lia |].
      unfold wf. simpl. rewrite SEQUENCE_MASK_eq in *.
      change (Z.ones 12) with 4095 in *. repeat split; try done; lia.
  - unfold wf. simpl. repeat split; try done; lia.
Qed.

(** An identifier issued less than [2 ^ 41] milliseconds after the epoch
    offset is a non-negative 63-bit number. *)
Theorem gen_id_fits_63_bits fuel self now id :
  wf self →
  (gen_id EPOCH_OFFSET_MS clock fuel self now).1.1 = Returned id →
  let issued_at := _last_timestamp (gen_id EPOCH_OFFSET_MS clock fuel self now).1.2 in
  0 ≤ issued_at - EPOCH_OFFSET_MS < 2 ^ 41 →
  0 ≤ id < 2 ^ 63.
Proof.
  intros Hwf Hid issued_at Hrange. subst issued_at.
  destruct (gen_id _ _ _ _ _) as [[r self'] now'] eqn:Hcall. simpl in *.
  subst r. apply gen_id_returned in Hcall as (Hwf' & -> & _); [| done].
  unfold issued. rewrite snowflake_sum by done.
  destruct Hwf' as (Hw & Hd & Hs).
  rewrite MAX_WORKER_ID_eq in Hw. rewrite MAX_DATACENTER_ID_eq in Hd.
  rewrite SEQUENCE_MASK_eq in Hs. change (Z.ones 12) with 4095 in Hs.
  lia.
Qed.

End Calls.

Lemma snowflake_fields_witness :
  let self := {| worker_id := 3; datacenter_id := 2; sequence := 9;
                 _last_timestamp := 5 |} in
  wf self ∧ Z.land (snowflake 0 self 77) SEQUENCE_MASK = 9.
Proof.
  intros self.
  assert (Hwf : wf self).
  { unfold wf. vm_compute. repeat split; discriminate. }
  split; [exact Hwf |].
  apply (snowflake_fields 0 self 77 Hwf).
Defined.

Lemma gen_id_keeps_generator_witness :
  let self := {| worker_id := 3; datacenter_id := 2; sequence := 4095;
                 _last_timestamp := 5 |} in
  wf self ∧ wf (gen_id 0 (λ _, 5) 4 self 0).1.2.
Proof.
  intros self.
  assert (Hwf : wf self).
  { unfold wf. vm_compute. repeat split; discriminate. }
  split; [exact Hwf |].
  apply (gen_id_keeps_generator 0 (λ _, 5) 4 self 0 Hwf).
Defined.

Lemma gen_id_fits_63_bits_witness :
  let self := {| worker_id := 31; datacenter_id := 31; sequence := 0;
                 _last_timestamp := -1 |} in
  let clock := λ _ : nat, 2 ^ 41 - 1 in
  (wf self ∧
   (gen_id 0 clock 1 self 0).1.1 = Returned (2 ^ 63 - 4096)) ∧
  0 ≤ 2 ^ 63 - 4096 < 2 ^ 63.
Proof.
  intros self clock.
  assert (Hwf : wf self).
  { unfold wf. vm_compute. repeat split; discriminate. }
  assert (Hid : (gen_id 0 clock 1 self 0).1.1 = Returned (2 ^ 63 - 4096))
    by reflexivity.
  split; [by split |].
  apply (gen_id_fits_63_bits 0 clock 1 self 0 _ Hwf Hid).
  vm_compute. split; [discriminate | reflexivity].
Defined.

Section Uniqueness.
Variable EPOCH_OFFSET_MS : Z.

(** An identifier determines the millisecond, the datacenter, the worker
    and the sequence number it was composed from: generators that differ
    in worker or datacenter never issue the same identifier, whatever
    their clocks. *)
Theorem snowflake_injective (self other : SnowflakeGenerator) (t t' : Z) :
  wf self → wf other →
  snowflake EPOCH_OFFSET_MS self t = snowflake EPOCH_OFFSET_MS other t' →
  t = t' ∧ datacenter_id self = datacenter_id other ∧
  worker_id self = worker_id other ∧ sequence self = sequence other.
Proof.
  intros Hwf Hwf'. rewrite !snowflake_sum by done.
  destruct Hwf as (Hw & Hd & Hs), Hwf' as (Hw' & Hd' & Hs').
  rewrite MAX_WORKER_ID_eq in *. rewrite MAX_DATACENTER_ID_eq in *.
  rewrite SEQUENCE_MASK_eq in *. change (Z.ones 12) with 4095 in *.
  lia.
Qed.

End Uniqueness.

Lemma snowflake_injective_witness :
  let self := {| worker_id := 3; datacenter_id := 2; sequence := 9;
                 _last_timestamp := 5 |} in
  (wf self ∧ snowflake 0 self 77 = snowflake 0 self 77) ∧ 77 = 77.
Proof.
  intros self.
  assert (Hwf : wf self).
  { unfold wf. vm_compute. repeat split; discriminate. }
  split; [by split |].
  apply (snowflake_injective 0 self self 77 77 Hwf Hwf eq_refl).
Defined.

Section Overflow.
Variable EPOCH_OFFSET_MS : Z.
Variable clock : nat → Z.

(** [til_next_ms] returns the first reading past [_last_timestamp]. *)
Lemma til_next_ms_first fuel self : ∀ now k,
  (now ≤ k < now + fuel)%nat →
  (∀ j, (now ≤ j < k)%nat → clock j ≤ _last_timestamp self) →
  _last_timestamp self < clock k →
  til_next_ms clock fuel self now = Some (clock k, S k).
Proof.
  induction fuel as [| fuel IH]; intros now k Hk Hwait Hlater; [lia |].
  simpl. destruct (decide (k = now)) as [-> | Hne].
  - destruct (Z.leb_spec (clock now) (_last_timestamp self)); [lia | done].
  - destruct (Z.leb_spec (clock now) (_last_timestamp self)) as [| Hgt].
    + apply IH; [lia | | done]. intros j Hj. apply Hwait. lia.
    + specialize (Hwait now). lia.
Qed.

(** The 4097th call within one millisecond: the sequence number wraps to
    zero, the call reads the clock until it has passed that millisecond,
    and the identifier carries the first later reading and the sequence
    number zero. *)
Theorem gen_id_overflow_waits fuel self now k :
  sequence self = 4095 →
  clock now = _last_timestamp self →
  (now < k ≤ now + fuel)%nat →
  (∀ j, (now < j < k)%nat → clock j ≤ _last_timestamp self) →
  _last_timestamp self < clock k →
  let self' := {| worker_id := worker_id self;
                  datacenter_id := datacenter_id self;
                  sequence := 0; _last_timestamp := clock k |} in
  gen_id EPOCH_OFFSET_MS clock fuel self now
  = (Returned (snowflake EPOCH_OFFSET_MS self' (clock k)), self', S k).
Proof.
  intros Hseq Hnow Hk Hwait Hlater self'. subst self'.
  unfold gen_id, gen_timestamp.
  destruct (Z.ltb_spec (clock now) (_last_timestamp self)); [lia |].
  rewrite Hnow, Z.eqb_refl. simpl. rewrite Hseq.
  change (Z.land (4095 + 1) SEQUENCE_MASK) with 0. simpl.
  rewrite (til_next_ms_first fuel _ (S now) k); simpl; try done; try lia.
Qed.

End Overflow.

Lemma gen_id_overflow_waits_witness :
  let self := {| worker_id := 3; datacenter_id := 2; sequence := 4095;
                 _last_timestamp := 5 |} in
  let clock := λ k : nat, if (k <? 3)%nat then 5 else 6 in
  (gen_id 0 clock 8 self 0).1.1
  = Returned (snowflake 0 {| worker_id := 3; datacenter_id := 2;
                             sequence := 0; _last_timestamp := 6 |} 6).
Proof.
  intros self clock.
  assert (Hwait : ∀ j, (0 < j < 3)%nat → clock j ≤ _last_timestamp self).
  { intros j Hj. assert (Hc : j = 1%nat ∨ j = 2%nat) by lia.
    destruct Hc as [-> | ->]; vm_compute; discriminate. }
  assert (Hk : (0 < 3 ≤ 0 + 8)%nat) by lia.
  rewrite (gen_id_overflow_waits 0 clock 8 self 0 3
             eq_refl eq_refl Hk Hwait eq_refl).
  reflexivity.
Defined.

Lemma init_range_witness :
  (0 ≤ 31 ≤ 31 ∧ 0 ≤ 0 ≤ 31) ∧
  __init__ 31 0 = inr {| worker_id := 31; datacenter_id := 0;
                         sequence := 0; _last_timestamp := -1 |}.
Proof.
  assert (Hrange : 0 ≤ 31 ≤ 31 ∧ 0 ≤ 0 ≤ 31) by lia.
  split; [exact Hrange |].
  apply (proj1 (init_range 31 0) Hrange).
Defined.

End SnowflakeFacts.

(** * Properties of the listeners and of the emitter *)

Module EmitterFacts.
Import Emitter.

(** ** Running the monad *)

Lemma bind_run {S A B} (m : ST S A) (f : A → ST S B) (s : S) :
  (m ≫= f) s = match m s with
               | (inr x, s') => f x s'
               | (inl e, s') => (inl e, s')
               end.
Proof. reflexivity. Qed.

Lemma send_json_run self data w :
  send_json self data w
  = (if ws_closed (objects w self) then inl (dead_write w) else inr tt,
     log (WsSendJson self data (negb (ws_closed (objects w self)))) w).
Proof.
  unfold send_json. rewrite bind_run. simpl.
  by destruct (ws_closed (objects w self)).
Qed.

(** The envelope [notify] writes. *)
Lemma notify_run self opcode data w :
  let envelope :=
    match data with
    | PNone => PDict [("op", PInt (Opcode_value opcode))]
    | _ => PDict [("op", PInt (Opcode_value opcode)); ("d", data)]
    end in
  notify self opcode data w
  = (write_result w self,
     log (WsSendJson self envelope (negb (ws_closed (objects w self)))) w).
Proof.
  unfold notify, try_except, write_result. rewrite bind_run.
  destruct data; rewrite send_json_run;
    destruct (ws_closed (objects w self)); try done;
    by destruct (dead_write w).
Qed.

Lemma event_notify_run self event w :
  event_notify self event w
  = (write_result w self,
     log (WsSendJson self
            (PDict [("op", PInt (Opcode_value DISPATCH));
                    ("d", payload event); ("t", name event)])
            (negb (ws_closed (objects w self)))) w).
Proof.
  unfold event_notify, try_except, write_result.
  rewrite bind_run, send_json_run.
  destruct (ws_closed (objects w self)); try done.
  by destruct (dead_write w).
Qed.

Lemma write_result_open w self :
  ws_closed (objects w self) = false → write_result w self = inr true.
Proof. intros Hopen. unfold write_result. by rewrite Hopen. Qed.

(** ** The dict operations *)

Section DictRun.
Context {V : Type} `{Countable V}.
Variable ix : index V.
Implicit Types (k : Z) (e : EventEmitter) (s : gset V).

Lemma contains_run k e :
  contains ix k e = (inr (bool_decide (k ∈ dom (ix_get ix e))), e).
Proof. reflexivity. Qed.

Lemma lookup_item_run k e :
  lookup_item ix k e
  = (match ix_get ix e !! k with Some s => inr s | None => inl KeyError end, e).
Proof.
  unfold lookup_item. rewrite bind_run. simpl.
  by destruct (ix_get ix e !! k).
Qed.

Lemma set_item_run k s e :
  set_item ix k s e = (inr tt, ix_set ix (<[k := s]> (ix_get ix e)) e).
Proof. reflexivity. Qed.

Lemma del_item_run k e :
  del_item ix k e
  = match ix_get ix e !! k with
    | Some _ => (inr tt, ix_set ix (delete k (ix_get ix e)) e)
    | None => (inl KeyError, e)
    end.
Proof.
  unfold del_item. rewrite bind_run. simpl.
  by destruct (ix_get ix e !! k).
Qed.

Lemma add_to_run k x e :
  add_to ix k x e
  = match ix_get ix e !! k with
    | Some s => (inr tt, ix_set ix (<[k := {[x]} ∪ s]> (ix_get ix e)) e)
    | None => (inl KeyError, e)
    end.
Proof.
  unfold add_to. rewrite bind_run, lookup_item_run.
  by destruct (ix_get ix e !! k).
Qed.

Lemma remove_from_run k x e :
  remove_from ix k x e
  = match ix_get ix e !! k with
    | Some s =>
        if bool_decide (x ∈ s)
        then (inr tt, ix_set ix (<[k := s ∖ {[x]}]> (ix_get ix e)) e)
        else (inl KeyError, e)
    | None => (inl KeyError, e)
    end.
Proof.
  unfold remove_from. rewrite bind_run, lookup_item_run.
  destruct (ix_get ix e !! k) as [s |]; [| done].
  by destruct (bool_decide (x ∈ s)).
Qed.

Lemma nonempty_run k e :
  nonempty ix k e
  = match ix_get ix e !! k with
    | Some s => (inr (negb (bool_decide (s = ∅))), e)
    | None => (inl KeyError, e)
    end.
Proof.
  unfold nonempty. rewrite bind_run, lookup_item_run.
  by destruct (ix_get ix e !! k).
Qed.

End DictRun.

Lemma join_all_lookup user channels : ∀ d channel_id,
  join_all user channels d !! channel_id
  = if decide (channel_id ∈ channels)
    then Some (joined user (d !! channel_id))
    else d !! channel_id.
Proof.
  induction channels as [| c channels IH]; intros d channel_id.
  { unfold join_all. cbn [foldl].
    rewrite decide_False; [done | apply not_elem_of_nil]. }
  unfold join_all in *. cbn [foldl]. rewrite IH.
  destruct (decide (channel_id = c)) as [-> | Hne].
  - rewrite lookup_insert_eq, (decide_True _ _ (list_elem_of_here c channels)).
    case_decide; [| done].
    f_equal. unfold joined. simpl. set_solver.
  - rewrite lookup_insert_ne by done.
    destruct (decide (channel_id ∈ channels)) as [Hin | Hin].
    + by rewrite decide_True by (by right).
    + rewrite decide_False; [done |]. by intros [? | ?]%elem_of_cons.
Qed.

Lemma join_channels_run user : ∀ channels e,
  for_each channels (λ channel_id,
      known ← contains channels_ix channel_id;
      if known : bool then add_to channels_ix channel_id user
      else set_item channels_ix channel_id {[user]}) e
  = (inr tt, ix_set channels_ix (join_all user channels (_channels e)) e).
Proof.
  induction channels as [| c channels IH]; intros e.
  { by destruct e. }
  unfold for_each in *. cbn [for_in]. rewrite bind_run.
  assert (Hstep :
    (known ← contains channels_ix c;
     if known : bool then add_to channels_ix c user
     else set_item channels_ix c {[user]}) e
    = (inr tt, ix_set channels_ix
                 (<[c := joined user (_channels e !! c)]> (_channels e)) e)).
  { rewrite bind_run, contains_run. simpl.
    destruct (_channels e !! c) as [s |] eqn:Hc.
    - rewrite bool_decide_eq_true_2 by (apply elem_of_dom; eauto).
      rewrite add_to_run. simpl. by rewrite Hc.
    - rewrite bool_decide_eq_false_2 by (by apply not_elem_of_dom).
      rewrite set_item_run. unfold joined. simpl. by rewrite union_empty_r_L. }
  rewrite Hstep, IH. done.
Qed.

(** What [add_listener_locked] leaves. *)
Lemma add_listener_locked_run listener user channels e :
  add_listener_locked listener user (Some channels) e
  = (inr tt,
     {| _channels := join_all user channels (_channels e);
        _users := <[user := list_to_set channels]> (_users e);
        _listeners :=
          <[user := {[listener]} ∪ listeners_of e user]> (_listeners e);
        _closing := _closing e |}).
Proof.
  unfold add_listener_locked.
  rewrite bind_run, join_channels_run, bind_run, set_item_run, bind_run,
    contains_run.
  simpl. unfold listeners_of.
  destruct (_listeners e !! user) as [s |] eqn:Hl.
  - rewrite bool_decide_eq_true_2 by (apply elem_of_dom; eauto).
    rewrite add_to_run. simpl. by rewrite Hl.
  - rewrite bool_decide_eq_false_2 by (by apply not_elem_of_dom).
    rewrite set_item_run. simpl. by rewrite union_empty_r_L.
Qed.

Lemma members_Some e channel_id user :
  user ∈ members e channel_id →
  ∃ us, _channels e !! channel_id = Some us ∧ user ∈ us.
Proof.
  unfold members. destruct (_channels e !! channel_id) as [us |]; simpl.
  - eauto.
  - intros []%not_elem_of_empty.
Qed.

(** One turn of the loop of [remove_listener], when the user is a member
    of the channel. *)
Lemma forget_channel_run user channel_id e us cs :
  _channels e !! channel_id = Some us → user ∈ us →
  _users e !! user = Some cs → channel_id ∈ cs →
  forget_channel user channel_id e
  = (inr tt,
     {| _channels :=
          match without user us with
          | Some us' => <[channel_id := us']> (_channels e)
          | None => delete channel_id (_channels e)
          end;
        _users :=
          if decide (cs ∖ {[channel_id]} = ∅) then delete user (_users e)
          else <[user := cs ∖ {[channel_id]}]> (_users e);
        _listeners := _listeners e;
        _closing := _closing e |}).
Proof.
  intros Hus Hu Hcs Hc. unfold forget_channel, without.
  rewrite bind_run, remove_from_run. simpl. rewrite Hus.
  rewrite bool_decide_eq_true_2 by done.
  rewrite bind_run, nonempty_run. simpl. rewrite lookup_insert_eq.
  destruct (decide (us ∖ {[user]} = ∅)) as [Hempty | Hleft].
  - rewrite bool_decide_eq_true_2 by done. simpl.
    rewrite bind_run, del_item_run. simpl. rewrite lookup_insert_eq.
    rewrite bind_run, remove_from_run. simpl. rewrite Hcs.
    rewrite bool_decide_eq_true_2 by done.
    rewrite bind_run, nonempty_run. simpl. rewrite lookup_insert_eq.
    rewrite delete_insert_eq.
    destruct (decide (cs ∖ {[channel_id]} = ∅)).
    + rewrite bool_decide_eq_true_2 by done. simpl.
      rewrite del_item_run. simpl. rewrite lookup_insert_eq.
      by rewrite delete_insert_eq.
    + by rewrite bool_decide_eq_false_2 by done.
  - rewrite bool_decide_eq_false_2 by done. simpl.
    rewrite bind_run. simpl.
    rewrite bind_run, remove_from_run. simpl. rewrite Hcs.
    rewrite bool_decide_eq_true_2 by done.
    rewrite bind_run, nonempty_run. simpl. rewrite lookup_insert_eq.
    destruct (decide (cs ∖ {[channel_id]} = ∅)).
    + rewrite bool_decide_eq_true_2 by done. simpl.
      rewrite del_item_run. simpl. rewrite lookup_insert_eq.
      by rewrite delete_insert_eq.
    + by rewrite bool_decide_eq_false_2 by done.
Qed.

(** The loop of [remove_listener], when the user is a member of each of
    the channels it holds. *)
Lemma forget_channels_run user : ∀ (cl : list Z) e cs,
  NoDup cl → cl ≠ [] →
  _users e !! user = Some cs → (∀ c, c ∈ cs ↔ c ∈ cl) →
  (∀ c, c ∈ cl → user ∈ members e c) →
  ∃ e', for_each cl (forget_channel user) e = (inr tt, e') ∧
        _users e' = delete user (_users e) ∧
        _listeners e' = _listeners e ∧
        _closing e' = _closing e ∧
        ∀ c, _channels e' !! c
             = if decide (c ∈ cl) then _channels e !! c ≫= without user
               else _channels e !! c.
Proof.
  induction cl as [| c0 cl IH]; intros e cs Hnodup Hne Hcs Hcl Hmem; [done |].
  apply NoDup_cons in Hnodup as [Hc0 Hnodup].
  destruct (members_Some e c0 user) as (us & Hus & Hu).
  { apply Hmem. by left. }
  assert (Hc0cs : c0 ∈ cs) by (apply Hcl; by left).
  unfold for_each in *. cbn [for_in]. rewrite bind_run.
  rewrite (forget_channel_run user c0 e us cs) by done.
  set (e1 := {| _channels := _; _users := _ |}).
  assert (Hch1 : ∀ c, _channels e1 !! c
                      = if decide (c = c0) then without user us
                        else _channels e !! c).
  { intros c. subst e1. simpl.
    destruct (without user us) as [us' |], (decide (c = c0)) as [-> | Hcc];
      by simplify_map_eq. }
  destruct cl as [| c1 cl'].
  - exists e1. split; [done |].
    assert (Hlast : cs ∖ {[c0]} = ∅).
    { apply set_eq. intros c. rewrite elem_of_difference, Hcl. set_solver. }
    subst e1. simpl. rewrite decide_True by done.
    repeat split; try done.
    intros c. specialize (Hch1 c). simpl in Hch1. rewrite Hch1.
    destruct (decide (c = c0)) as [-> | Hcc].
    + rewrite decide_True by (by left). by rewrite Hus.
    + rewrite decide_False; [done |]. set_solver.
  - assert (Hmore : cs ∖ {[c0]} ≠ ∅).
    { intros Hempty. assert (c1 ∈ cs ∖ {[c0]}); [| set_solver].
      apply elem_of_difference. split; [apply Hcl; set_solver |].
      intros ->%elem_of_singleton. apply Hc0. by left. }
    destruct (IH e1 (cs ∖ {[c0]})) as (e' & Hrun & Husers & Hlis & Hclo & Hch);
      try done.
    + subst e1. simpl. rewrite decide_False by done. by simplify_map_eq.
    + intros c. rewrite elem_of_difference, Hcl, elem_of_cons.
      split; [set_solver |]. intros Hin. split; [by right |].
      intros ->%elem_of_singleton. done.
    + intros c Hin. unfold members. rewrite Hch1.
      rewrite decide_False by (intros ->; done).
      apply Hmem. by right.
    + exists e'. split; [done |]. split; [| split; [| split]].
      * rewrite Husers. subst e1. simpl. rewrite decide_False by done.
        by rewrite delete_insert_eq.
      * by rewrite Hlis.
      * by rewrite Hclo.
      * intros c. rewrite Hch, Hch1.
        destruct (decide (c = c0)) as [-> | Hcc].
        -- rewrite decide_False by done.
           rewrite decide_True by (by left). by rewrite Hus.
        -- destruct (decide (c ∈ c1 :: cl')) as [Hin | Hnin].
           ++ by rewrite decide_True by (by right).
           ++ rewrite decide_False; [done |]. set_solver.
Qed.

Lemma remove_listener_locked_absent listener user e ls :
  _listeners e !! user = Some ls → listener ∉ ls →
  remove_listener_locked listener user e = (inl KeyError, e).
Proof.
  intros Hls Hnot. unfold remove_listener_locked.
  rewrite bind_run, remove_from_run. simpl. rewrite Hls.
  by rewrite bool_decide_eq_false_2 by done.
Qed.

Lemma remove_listener_locked_others listener user e ls :
  _listeners e !! user = Some ls → listener ∈ ls → ls ∖ {[listener]} ≠ ∅ →
  remove_listener_locked listener user e
  = (inr tt,
     {| _channels := _channels e; _users := _users e;
        _listeners := <[user := ls ∖ {[listener]}]> (_listeners e);
        _closing := _closing e |}).
Proof.
  intros Hls Hin Hothers. unfold remove_listener_locked.
  rewrite bind_run, remove_from_run. simpl. rewrite Hls.
  rewrite bool_decide_eq_true_2 by done.
  rewrite bind_run, nonempty_run. simpl. rewrite lookup_insert_eq.
  by rewrite bool_decide_eq_false_2 by done.
Qed.

Lemma remove_listener_locked_last listener user e ls cs :
  _listeners e !! user = Some ls → listener ∈ ls → ls ∖ {[listener]} = ∅ →
  _users e !! user = Some cs →
  (∀ c, c ∈ cs → user ∈ members e c) →
  ∃ e', remove_listener_locked listener user e = (inr tt, e') ∧
        _listeners e' = delete user (_listeners e) ∧
        _users e' = (if decide (cs = ∅) then _users e
                     else delete user (_users e)) ∧
        _closing e' = _closing e ∧
        ∀ c, _channels e' !! c
             = if decide (c ∈ cs) then _channels e !! c ≫= without user
               else _channels e !! c.
Proof.
  intros Hls Hin Hlast Hcs Hmem. unfold remove_listener_locked.
  rewrite bind_run, remove_from_run. simpl. rewrite Hls.
  rewrite bool_decide_eq_true_2 by done.
  rewrite bind_run, nonempty_run. simpl. rewrite lookup_insert_eq.
  rewrite bool_decide_eq_true_2 by done. simpl.
  rewrite bind_run, del_item_run. simpl. rewrite lookup_insert_eq.
  rewrite delete_insert_eq.
  rewrite bind_run, lookup_item_run. simpl. rewrite Hcs.
  set (e1 := {| _channels := _channels e |}).
  destruct (decide (cs = ∅)) as [-> | Hne].
  - rewrite elements_empty. exists e1. by repeat split.
  - destruct (forget_channels_run user (elements cs) e1 cs)
      as (e' & Hrun & Husers & Hlis & Hclo & Hch); try done.
    + apply NoDup_elements.
    + intros Hnil. apply Hne. apply leibniz_equiv.
      by apply elements_empty_iff.
    + intros c. by rewrite elem_of_elements.
    + intros c Hc. apply Hmem. by apply elem_of_elements.
    + exists e'. repeat split; try done.
      intros c. rewrite Hch. simpl.
      destruct (decide (c ∈ cs)).
      * by rewrite decide_True by (by apply elem_of_elements).
      * rewrite decide_False; [done |]. by rewrite elem_of_elements.
Qed.

Lemma consistent_new : consistent new_emitter.
Proof.
  unfold consistent, channels_of, members. simpl.
  repeat split; intros *; rewrite ?lookup_empty; simpl;
    try done; try (by intros ?%is_Some_None); set_solver.
Qed.

Lemma add_listener_locked_consistent listener user channels e :
  consistent e → consistent (add_listener_locked listener user channels e).2.
Proof.
  intros (I1 & I2 & I3 & I4 & I5).
  destruct channels as [channels |]; [| done].
  rewrite add_listener_locked_run. simpl.
  unfold consistent, channels_of, members in *. simpl.
  split; [| split; [| split; [| split]]].
  - intros u c. rewrite join_all_lookup.
    destruct (decide (u = user)) as [-> | Hu].
    + rewrite lookup_insert_eq. simpl. rewrite elem_of_list_to_set.
      intros Hc. rewrite decide_True by done. unfold joined. simpl. set_solver.
    + rewrite lookup_insert_ne by done. intros Hc%I1.
      case_decide; [| done]. unfold joined. simpl. set_solver.
  - intros u. destruct (decide (u = user)) as [-> | Hu].
    + by rewrite !lookup_insert_eq.
    + rewrite !lookup_insert_ne by done. apply I2.
  - intros u c. destruct (decide (u = user)) as [-> | Hu].
    + by rewrite !lookup_insert_eq.
    + rewrite !lookup_insert_ne by done. apply I3.
  - intros c. rewrite join_all_lookup. case_decide; [| apply I4].
    unfold joined. intros [= Hempty]. set_solver.
  - intros u. destruct (decide (u = user)) as [-> | Hu].
    + rewrite lookup_insert_eq. intros [= Hempty]. set_solver.
    + rewrite lookup_insert_ne by done. apply I5.
Qed.

Lemma remove_listener_locked_consistent listener user e :
  consistent e → is_Some (_listeners e !! user) →
  consistent (remove_listener_locked listener user e).2.
Proof.
  intros He [ls Hls]. assert (He' := He).
  destruct He' as (I1 & I2 & I3 & I4 & I5).
  destruct (decide (listener ∈ ls)) as [Hin | Hnot].
  2: { by rewrite (remove_listener_locked_absent _ _ _ ls). }
  destruct (decide (ls ∖ {[listener]} = ∅)) as [Hlast | Hothers].
  2: { rewrite (remove_listener_locked_others _ _ _ ls) by done. simpl.
       unfold consistent, channels_of, members in *. simpl.
       repeat split; try done.
       - intros u. destruct (decide (u = user)) as [-> | Hu].
         + intros _. apply I2. by rewrite Hls.
         + rewrite lookup_insert_ne by done. apply I2.
       - intros u c Hc. destruct (decide (u = user)) as [-> | Hu].
         + by rewrite lookup_insert_eq.
         + rewrite lookup_insert_ne by done. by apply (I3 u c).
       - intros u. destruct (decide (u = user)) as [-> | Hu].
         + rewrite lookup_insert_eq. by intros [= ?].
         + rewrite lookup_insert_ne by done. apply I5. }
  destruct (I2 user) as [cs Hcs]; [by rewrite Hls |].
  destruct (remove_listener_locked_last listener user e ls cs)
    as (e' & -> & Hlis & Husers & _ & Hch); try done.
  { intros c Hc. apply I1. unfold channels_of. by rewrite Hcs. }
  simpl. unfold consistent, channels_of, members in *.
  rewrite Hlis, Husers.
  assert (Hkeep : ∀ u, u ≠ user →
            (if decide (cs = ∅) then _users e else delete user (_users e)) !! u
            = _users e !! u).
  { intros u Hu. case_decide; [done |]. by rewrite lookup_delete_ne. }
  assert (Hgone : ∀ c,
            c ∉ default ∅
              ((if decide (cs = ∅) then _users e
                else delete user (_users e)) !! user)).
  { intros c. destruct (decide (cs = ∅)) as [Hempty | Hne].
    - rewrite Hcs. simpl. rewrite Hempty. set_solver.
    - rewrite lookup_delete_eq. set_solver. }
  clear Husers Hlis.
  split; [| split; [| split; [| split]]].
  - intros u c. destruct (decide (u = user)) as [-> | Hu].
    { intros Hc. by apply Hgone in Hc. }
    rewrite Hkeep by done. intros Hc%I1. rewrite Hch.
    destruct (decide (c ∈ cs)); [| done].
    destruct (_channels e !! c) as [us |]; simpl in *; [| set_solver].
    unfold without. destruct (decide (us ∖ {[user]} = ∅)); simpl; set_solver.
  - intros u. destruct (decide (u = user)) as [-> | Hu].
    + rewrite lookup_delete_eq. by intros ?%is_Some_None.
    + rewrite lookup_delete_ne, Hkeep by done. apply I2.
  - intros u c. destruct (decide (u = user)) as [-> | Hu].
    { intros Hc. by apply Hgone in Hc. }
    rewrite lookup_delete_ne, Hkeep by done. apply I3.
  - intros c. rewrite Hch. destruct (decide (c ∈ cs)); [| apply I4].
    destruct (_channels e !! c) as [us |]; simpl; [| done].
    unfold without.
    destruct (decide (us ∖ {[user]} = ∅)); [done |]. by intros [= ?].
  - intros u. destruct (decide (u = user)) as [-> | Hu].
    + by rewrite lookup_delete_eq.
    + rewrite lookup_delete_ne by done. apply I5.
Qed.

(** ** [add_listener] and [remove_listener] on a world *)

Lemma set_emitter_same w : set_emitter (emitter w) w = w.
Proof. by destruct w. Qed.

Lemma add_listener_run listener w :
  add_listener listener w
  = match user_id (objects w listener) with
    | None => (inr tt, w)
    | Some user =>
        let '(r, e) :=
          add_listener_locked listener user (pg_conn w user) (emitter w) in
        (r, log LockRelease
              (set_emitter e (log LockAcquire (log (PgFetchval user) w))))
    end.
Proof.
  unfold add_listener. rewrite bind_run. simpl.
  destruct (user_id (objects w listener)) as [user |]; [| done].
  rewrite bind_run. simpl. unfold async_with_lock, on_emitter. simpl.
  by destruct (add_listener_locked _ _ _ _) as [r e].
Qed.

Lemma remove_listener_run listener w :
  remove_listener listener w
  = match user_id (objects w listener) with
    | None => (inr tt, w)
    | Some user =>
        if bool_decide (user ∈ dom (_listeners (emitter w))) then
          let '(r, e) := remove_listener_locked listener user (emitter w) in
          (r, log LockRelease (set_emitter e (log LockAcquire w)))
        else (inr tt, w)
    end.
Proof.
  unfold remove_listener. rewrite bind_run. simpl.
  destruct (user_id (objects w listener)) as [user |]; [| done].
  rewrite bind_run. unfold on_emitter at 1. rewrite contains_run. simpl.
  rewrite set_emitter_same.
  destruct (bool_decide _); simpl; [| done].
  unfold async_with_lock, on_emitter. simpl.
  by destruct (remove_listener_locked _ _ _) as [r e].
Qed.

(** A loop keeps what each of its turns keeps. *)
Lemma for_each_keeps {A} (P : World → Prop) (body : A → M unit) :
  (∀ x w, P w → P (body x w).2) →
  ∀ xs w, P w → P (for_each xs body w).2.
Proof.
  intros Hbody. induction xs as [| x xs IH]; intros w Hw; [done |].
  unfold for_each in *. cbn [for_in]. rewrite bind_run.
  pose proof (Hbody x w Hw) as Hx.
  destruct (body x w) as [[e | []] w1]; simpl in *; [done |].
  by apply IH.
Qed.

(** [EventEmitter.close] changes [_closing] and nothing else of the
    emitter, and leaves the store alone. *)
Lemma emitter_close_around code message w :
  let w' := after (emitter_close code message) w in
  emitter w'
  = {| _channels := _channels (emitter w); _users := _users (emitter w);
       _listeners := _listeners (emitter w); _closing := true |} ∧
  pg_conn w' = pg_conn w.
Proof.
  intros w'. subst w'. unfold after, emitter_close.
  rewrite bind_run. unfold on_emitter at 1. simpl. rewrite bind_run. simpl.
  match goal with |- context [for_each ?xs ?body ?w1] =>
    apply (for_each_keeps
             (λ w2, emitter w2 = emitter w1 ∧ pg_conn w2 = pg_conn w) body);
      [| done]
  end.
  intros [user listeners] w2 Hw2.
  apply (for_each_keeps
           (λ w3, emitter w3 = _ ∧ pg_conn w3 = pg_conn w)); [| done].
  by intros l w3 Hw3.
Qed.

Lemma reachable_consistent w : reachable w → consistent (emitter w).
Proof.
  induction 1 as [w Hnew | w w' _ IH Heq | w listener _ IH | w listener _ IH
                  | w code message _ IH].
  5: { destruct (emitter_close_around code message w) as [-> _]. exact IH. }
  - rewrite Hnew. apply consistent_new.
  - by rewrite Heq.
  - unfold after. rewrite add_listener_run.
    destruct (user_id (objects w listener)) as [user |]; [| done].
    pose proof (add_listener_locked_consistent listener user
                  (pg_conn w user) (emitter w) IH) as Hadd.
    by destruct (add_listener_locked _ _ _ _) as [r e].
  - unfold after. rewrite remove_listener_run.
    destruct (user_id (objects w listener)) as [user |]; [| done].
    case_bool_decide as Hknown; [| done].
    apply elem_of_dom in Hknown.
    pose proof (remove_listener_locked_consistent listener user
                  (emitter w) IH Hknown) as Hrem.
    by destruct (remove_listener_locked _ _ _) as [r e].
Qed.

(** ** The registry under a store that does not change *)

Lemma reachable_with_reachable pg w : reachable_with pg w → reachable w.
Proof.
  induction 1 as [w Hnew _ | w w' _ IH Heq _ | w l _ IH | w l _ IH
                  | w code message _ IH].
  - by apply reachable_new.
  - by apply (reachable_around w).
  - by apply reachable_add.
  - by apply reachable_remove.
  - by apply reachable_close.
Qed.

Lemma reachable_with_pg_conn pg w : reachable_with pg w → pg_conn w = pg.
Proof.
  induction 1 as [w _ Hpg | w w' _ _ _ Hpg | w l _ IH | w l _ IH
                  | w code message _ IH]; try done.
  3: { by destruct (emitter_close_around code message w) as [_ ->]. }
  - unfold after. rewrite add_listener_run.
    destruct (user_id (objects w l)); [| done].
    by destruct (add_listener_locked _ _ _ _).
  - unfold after. rewrite remove_listener_run.
    destruct (user_id (objects w l)); [| done].
    destruct (bool_decide _); [| done].
    by destruct (remove_listener_locked _ _ _).
Qed.

Lemma mirrors_new pg : mirrors pg new_emitter.
Proof.
  split.
  - intros user cs. simpl. by rewrite lookup_empty.
  - intros user channel. unfold members. simpl. rewrite lookup_empty. simpl.
    set_solver.
Qed.

Lemma add_listener_locked_mirrors pg listener user e :
  mirrors pg e →
  mirrors pg (add_listener_locked listener user (pg user) e).2.
Proof.
  intros [Hsnap Hback].
  destruct (pg user) as [channels |] eqn:Hpg; [| done].
  rewrite add_listener_locked_run. simpl. split.
  - intros u cs. simpl. destruct (decide (u = user)) as [-> | Hu].
    + rewrite lookup_insert_eq. intros [= <-]. eauto.
    + rewrite lookup_insert_ne by done. apply Hsnap.
  - intros u c. unfold members, channels_of in *. simpl.
    rewrite join_all_lookup.
    destruct (decide (u = user)) as [-> | Hu].
    + rewrite lookup_insert_eq. simpl. rewrite elem_of_list_to_set.
      destruct (decide (c ∈ channels)) as [| Hnot]; [done |].
      intros Hin%Hback. destruct (_users e !! user) as [cs |] eqn:Hcs;
        simpl in Hin; [| set_solver].
      destruct (Hsnap user cs Hcs) as (channels' & Hpg' & ->).
      rewrite Hpg in Hpg'. injection Hpg' as <-.
      by apply elem_of_list_to_set in Hin.
    + rewrite lookup_insert_ne by done.
      destruct (decide (c ∈ channels)); [| apply Hback].
      unfold joined. simpl. intros Hin. apply Hback. set_solver.
Qed.

Lemma remove_listener_locked_mirrors pg listener user e :
  consistent e → mirrors pg e → is_Some (_listeners e !! user) →
  mirrors pg (remove_listener_locked listener user e).2.
Proof.
  intros (I1 & I2 & _) [Hsnap Hback] [ls Hls].
  destruct (decide (listener ∈ ls)) as [Hin | Hnot].
  2: { by rewrite (remove_listener_locked_absent _ _ _ ls). }
  destruct (decide (ls ∖ {[listener]} = ∅)) as [Hlast | Hothers].
  2: { by rewrite (remove_listener_locked_others _ _ _ ls). }
  destruct (I2 user) as [cs Hcs]; [by rewrite Hls |].
  destruct (remove_listener_locked_last listener user e ls cs)
    as (e' & -> & _ & Husers & _ & Hch); try done.
  { intros c Hc. apply I1. unfold channels_of. by rewrite Hcs. }
  simpl. split.
  - intros u cs'. rewrite Husers.
    destruct (decide (cs = ∅)); [apply Hsnap |].
    destruct (decide (u = user)) as [-> | Hu].
    + by rewrite lookup_delete_eq.
    + rewrite lookup_delete_ne by done. apply Hsnap.
  - intros u c. unfold members, channels_of in *. rewrite Hch, Husers.
    assert (Hleft : u ∈ default ∅ (_channels e !! c ≫= without user) →
                    u ≠ user ∧ u ∈ default ∅ (_channels e !! c)).
    { destruct (_channels e !! c) as [us |]; simpl; [| set_solver].
      unfold without. destruct (decide (us ∖ {[user]} = ∅)); simpl; set_solver. }
    destruct (decide (c ∈ cs)) as [Hc | Hc].
    + intros [Hu Hmember%Hback]%Hleft.
      destruct (decide (cs = ∅)); [done |]. by rewrite lookup_delete_ne.
    + intros Hmember%Hback.
      destruct (decide (u = user)) as [-> | Hu].
      { rewrite Hcs in Hmember. done. }
      destruct (decide (cs = ∅)); [done |]. by rewrite lookup_delete_ne.
Qed.

Lemma reachable_with_mirrors pg w :
  reachable_with pg w → mirrors pg (emitter w).
Proof.
  induction 1 as [w Hnew _ | w w' _ IH Heq _ | w l Hw IH | w l Hw IH
                  | w code message Hw IH].
  5: { destruct (emitter_close_around code message w) as [-> _]. exact IH. }
  - rewrite Hnew. apply mirrors_new.
  - by rewrite Heq.
  - unfold after. rewrite add_listener_run.
    destruct (user_id (objects w l)) as [user |]; [| done].
    rewrite (reachable_with_pg_conn pg w Hw).
    pose proof (add_listener_locked_mirrors pg l user (emitter w) IH) as Hadd.
    by destruct (add_listener_locked _ _ _ _) as [r e].
  - unfold after. rewrite remove_listener_run.
    destruct (user_id (objects w l)) as [user |]; [| done].
    case_bool_decide as Hknown; [| done].
    apply elem_of_dom in Hknown.
    pose proof (remove_listener_locked_mirrors pg l user (emitter w)
                  (reachable_consistent w (reachable_with_reachable pg w Hw))
                  IH Hknown) as Hrem.
    by destruct (remove_listener_locked _ _ _) as [r e].
Qed.

(** While the store keeps its answers and gives every user at least one
    channel, the two membership indices mirror each other and no index
    holds an empty set, after every sequence of calls. *)
Lemma stable_store_invariant pg w :
  (∀ user, pg user ≠ Some []) →
  reachable_with pg w →
  membership (emitter w) ∧ no_empty_sets (emitter w).
Proof.
  intros Hpg Hw.
  destruct (reachable_with_mirrors pg w Hw) as [Hsnap Hback].
  destruct (reachable_consistent w (reachable_with_reachable pg w Hw))
    as (I1 & _ & _ & I4 & I5).
  split; [| split; [| split]]; try done.
  - intros user channel. split; [apply Hback | apply I1].
  - intros user Hempty.
    destruct (Hsnap user ∅ Hempty) as (channels & Hchannels & Hset).
    destruct channels as [| c channels]; [by apply (Hpg user) |].
    set_solver.
Qed.

(** ** Listeners in the registry *)

(** A listener that never identified, or whose user has no listener
    left, is removed without effect. *)
Lemma remove_listener_absent listener w :
  (∀ user, user_id (objects w listener) = Some user →
           _listeners (emitter w) !! user = None) →
  remove_listener listener w = (inr tt, w).
Proof.
  intros Hgone. rewrite remove_listener_run.
  destruct (user_id (objects w listener)) as [user |]; [| done].
  by rewrite bool_decide_eq_false_2
    by (apply not_elem_of_dom; by apply Hgone).
Qed.

(** An identified listener is in the listener set of its user once
    added. *)
Lemma add_listener_registers listener user channels w :
  user_id (objects w listener) = Some user →
  pg_conn w user = Some channels →
  (add_listener listener w).1 = inr tt ∧
  listener ∈ listeners_of (emitter (after (add_listener listener) w)) user ∧
  channels_of (emitter (after (add_listener listener) w)) user
  = list_to_set channels.
Proof.
  intros Huser Hpg. unfold after. rewrite add_listener_run, Huser, Hpg.
  rewrite add_listener_locked_run. unfold listeners_of, channels_of. simpl.
  rewrite !lookup_insert_eq. simpl. split; [done |]. split; [set_solver | done].
Qed.

(** A registered listener is removed from the listener set of its user,
    in every registry state. *)
Lemma remove_listener_deregisters listener user w :
  reachable w →
  user_id (objects w listener) = Some user →
  listener ∈ listeners_of (emitter w) user →
  (remove_listener listener w).1 = inr tt ∧
  listener ∉ listeners_of (emitter (after (remove_listener listener) w)) user.
Proof.
  intros Hw Huser Hin. unfold after.
  rewrite remove_listener_run, Huser. unfold listeners_of in *.
  destruct (_listeners (emitter w) !! user) as [ls |] eqn:Hls;
    simpl in Hin; [| set_solver].
  rewrite bool_decide_eq_true_2 by (apply elem_of_dom; eauto).
  destruct (reachable_consistent w Hw) as (I1 & I2 & _).
  destruct (decide (ls ∖ {[listener]} = ∅)) as [Hlast | Hothers].
  - destruct (I2 user) as [cs Hcs]; [by rewrite Hls |].
    destruct (remove_listener_locked_last listener user (emitter w) ls cs)
      as (e' & -> & Hlis & _); try done.
    { intros c Hc. apply I1. unfold channels_of. by rewrite Hcs. }
    simpl. rewrite Hlis, lookup_delete_eq. simpl. split; [done | set_solver].
  - rewrite (remove_listener_locked_others _ _ _ ls) by done. simpl.
    rewrite lookup_insert_eq. simpl. split; [done | set_solver].
Qed.

(** ** Traces of runs *)

Section Emits.
Variable P : list io_event → Prop.
Hypothesis P_nil : P [].
Hypothesis P_app : ∀ t1 t2, P t1 → P t2 → P (t1 ++ t2).

Lemma emits_silent {A} (m : M A) :
  (∀ w, trace (m w).2 = trace w) → emits P m.
Proof. intros Hm w. exists []. by rewrite Hm, app_nil_r. Qed.

Lemma emits_ret {A} (x : A) : emits P (mret x).
Proof. by apply emits_silent. Qed.

Lemma emits_raise {A} (e : exn) : emits P (raise e : M A).
Proof. by apply emits_silent. Qed.

Lemma emits_on_emitter {A} (m : ST EventEmitter A) : emits P (on_emitter m).
Proof.
  apply emits_silent. intros w. unfold on_emitter.
  by destruct (m (emitter w)).
Qed.

Lemma emits_gets {A} (f : World → A) : emits P (gets f).
Proof. by apply emits_silent. Qed.

Lemma emits_log (ev : io_event) : P [ev] → emits P (modify (log ev)).
Proof. intros Hev w. by exists [ev]. Qed.

Lemma emits_bind {A B} (m : M A) (f : A → M B) :
  emits P m → (∀ x, emits P (f x)) → emits P (m ≫= f).
Proof.
  intros Hm Hf w. rewrite bind_run.
  destruct (Hm w) as (t1 & Ht1 & HP1).
  destruct (m w) as [[e | x] w1]; simpl in *; [by eauto |].
  destruct (Hf x w1) as (t2 & Ht2 & HP2).
  exists (t1 ++ t2). rewrite Ht2, Ht1, app_assoc. auto.
Qed.

Lemma emits_try_except {A} (m : M A) (h : exn → option (M A)) :
  emits P m → (∀ e k, h e = Some k → emits P k) → emits P (try_except m h).
Proof.
  intros Hm Hh w. unfold try_except.
  destruct (Hm w) as (t1 & Ht1 & HP1).
  destruct (m w) as [[e | x] w1]; simpl in *; [| by eauto].
  destruct (h e) as [k |] eqn:Hk; [| by eauto].
  destruct (Hh e k Hk w1) as (t2 & Ht2 & HP2).
  exists (t1 ++ t2). rewrite Ht2, Ht1, app_assoc. auto.
Qed.

Lemma emits_for_in {A B} (body : B → A → M B) :
  (∀ acc x, emits P (body acc x)) →
  ∀ xs acc, emits P (for_in xs acc body).
Proof.
  intros Hbody. induction xs as [| x xs IH]; intros acc; cbn [for_in].
  - apply emits_ret.
  - apply emits_bind; [apply Hbody | intros acc'; apply IH].
Qed.

Lemma emits_for_each {A} (body : A → M unit) :
  (∀ x, emits P (body x)) → ∀ xs, emits P (for_each xs body).
Proof. intros Hbody xs. apply emits_for_in. intros _. apply Hbody. Qed.

End Emits.

Lemma emits_events {A} (P : list io_event → Prop) (m : M A) w :
  emits P m → P (events m w).
Proof.
  intros Hm. destruct (Hm w) as (t & Ht & HP).
  unfold events. by rewrite Ht, drop_app_length.
Qed.

Lemma emits_async_with_lock {A} (P Q : list io_event → Prop) (body : M A) :
  (∀ t, Q t → P ([LockAcquire] ++ t ++ [LockRelease])) →
  emits Q body → emits P (async_with_lock body).
Proof.
  intros HQP Hbody w. unfold async_with_lock.
  destruct (Hbody (log LockAcquire w)) as (t & Ht & HQ).
  destruct (body (log LockAcquire w)) as [r w1]. simpl in *.
  exists ([LockAcquire] ++ t ++ [LockRelease]). split; [| by apply HQP].
  rewrite Ht. by rewrite <- !app_assoc.
Qed.

(** [close] and the loop that closes the listeners a write failed on add
    lock sections without events in them, and closes. *)
Section Closing.
Variable P : list io_event → Prop.
Hypothesis P_nil : P [].
Hypothesis P_app : ∀ t1 t2, P t1 → P t2 → P (t1 ++ t2).
Hypothesis P_lock : P [LockAcquire; LockRelease].
Hypothesis P_close : ∀ l code message, P [WsClose l code message].

Lemma emits_remove_listener listener : emits P (remove_listener listener).
Proof.
  unfold remove_listener.
  apply (emits_bind P P_app); [by apply emits_gets |]. intros self.
  destruct (user_id self) as [user |]; [| by apply emits_ret].
  apply (emits_bind P P_app); [by apply emits_on_emitter |].
  intros known. destruct known; simpl; [| by apply emits_ret].
  apply (emits_async_with_lock P (λ t, t = [])).
  - by intros t ->.
  - by apply emits_on_emitter.
Qed.

Lemma emits_ws_close self code message : emits P (ws_close self code message).
Proof.
  unfold ws_close.
  apply (emits_bind P P_app); [by apply emits_gets |]. intros o.
  apply (emits_bind P P_app); [by apply emits_silent |]. intros _.
  by apply emits_log.
Qed.

Lemma emits_close self code message cleanup :
  emits P (close self code message cleanup).
Proof.
  unfold close. apply (emits_bind P P_app).
  - destruct cleanup; [apply emits_remove_listener | by apply emits_ret].
  - intros _. apply emits_ws_close.
Qed.

Lemma emits_close_all to_close : emits P (close_all to_close).
Proof.
  unfold close_all. apply emits_for_each; [done | done |].
  intros l. apply emits_close.
Qed.

End Closing.

(** ** The writes of the fan-out *)

Lemma elem_of_notified (listener : Listener) (t : list io_event) :
  listener ∈ notified t ↔ ∃ data sent, WsSendJson listener data sent ∈ t.
Proof.
  unfold notified. rewrite list_elem_of_omap. split.
  - intros (ev & Hin & Hev). destruct ev; try done.
    injection Hev as ->. eauto.
  - intros (data & sent & Hin). eauto.
Qed.

Lemma notified_app (t1 t2 : list io_event) :
  notified (t1 ++ t2) = notified t1 ++ notified t2.
Proof. apply omap_app. Qed.

Lemma log_all_nil w : log_all [] w = w.
Proof. destruct w. unfold log_all. simpl. by rewrite app_nil_r. Qed.

Lemma log_all_cons ev t w : log_all (ev :: t) w = log_all t (log ev w).
Proof. unfold log_all, log. simpl. by rewrite <- app_assoc. Qed.

Lemma log_all_app t1 t2 w : log_all (t1 ++ t2) w = log_all t2 (log_all t1 w).
Proof. unfold log_all. simpl. by rewrite app_assoc. Qed.

Lemma log_log_all ev w : log ev w = log_all [ev] w.
Proof. reflexivity. Qed.

Lemma aborts_app w (l1 l2 : list Listener) :
  aborts w (l1 ++ l2) = aborts w l1 || aborts w l2.
Proof.
  unfold aborts. rewrite existsb_app.
  by destruct (negb (caught (dead_write w))).
Qed.

Lemma reached_all w (listeners : list Listener) :
  aborts w listeners = false → reached w listeners = listeners.
Proof.
  unfold aborts. induction listeners as [| l listeners IH]; [done |].
  simpl. destruct (negb (caught (dead_write w))); simpl in *.
  - destruct (ws_closed (objects w l)); [done |]. simpl.
    intros Hrest. by rewrite IH.
  - intros _. by rewrite IH.
Qed.

Lemma reached_app w (l1 l2 : list Listener) :
  reached w (l1 ++ l2)
  = if aborts w l1 then reached w l1 else l1 ++ reached w l2.
Proof.
  unfold aborts. induction l1 as [| l l1 IH]; simpl.
  { by rewrite andb_false_r. }
  destruct (negb (caught (dead_write w))); simpl in *.
  - destruct (ws_closed (objects w l)); [done |]. simpl.
    rewrite IH. by destruct (existsb _ l1).
  - by rewrite IH.
Qed.

Lemma unsent_app w (l1 l2 : list Listener) :
  unsent w (l1 ++ l2) = unsent w l1 ++ unsent w l2.
Proof. apply filter_app. Qed.

Lemma unsent_open w (listeners : list Listener) :
  (∀ l, l ∈ listeners → ws_closed (objects w l) = false) →
  unsent w listeners = [].
Proof.
  intros Hopen. induction listeners as [| l listeners IH]; [done |].
  unfold unsent. rewrite filter_cons_False.
  - apply IH. intros l' Hin. apply Hopen. by right.
  - rewrite Hopen; [done | by left].
Qed.

Lemma aborts_open w (listeners : list Listener) :
  (∀ l, l ∈ listeners → ws_closed (objects w l) = false) →
  aborts w listeners = false.
Proof.
  intros Hopen. unfold aborts.
  replace (existsb _ listeners) with false; [by rewrite andb_false_r |].
  symmetry. apply not_true_is_false.
  intros (l & Hin%list_elem_of_In & Hl)%existsb_exists.
  by rewrite (Hopen l Hin) in Hl.
Qed.

Lemma aborts_log_all t w (listeners : list Listener) :
  aborts (log_all t w) listeners = aborts w listeners.
Proof. reflexivity. Qed.

Lemma unsent_log_all t w (listeners : list Listener) :
  unsent (log_all t w) listeners = unsent w listeners.
Proof. reflexivity. Qed.

Lemma reached_log_all t w (listeners : list Listener) :
  reached (log_all t w) listeners = reached w listeners.
Proof.
  induction listeners as [| l listeners IH]; [done |].
  simpl. by rewrite IH.
Qed.

Lemma dispatch_log_all event t w :
  dispatch event (log_all t w) = dispatch event w.
Proof. reflexivity. Qed.

Lemma fan_out_nil event w to_close :
  fan_out event w to_close [] = (inr to_close, w).
Proof.
  unfold fan_out, aborts. simpl.
  by rewrite andb_false_r, app_nil_r, log_all_nil.
Qed.

(** The run for two lists in a row is the run for the second after the
    run for the first. *)
Lemma fan_out_app event w to_close (l1 l2 : list Listener) :
  fan_out event w to_close (l1 ++ l2)
  = match fan_out event w to_close l1 with
    | (inr acc, w1) => fan_out event w1 acc l2
    | (inl e, w1) => (inl e, w1)
    end.
Proof.
  unfold fan_out. rewrite aborts_app, reached_app, unsent_app.
  destruct (aborts w l1) eqn:Hl1; simpl; [done |].
  rewrite (reached_all w l1 Hl1).
  rewrite aborts_log_all, unsent_log_all, reached_log_all, dispatch_log_all.
  simpl. by rewrite fmap_app, log_all_app, app_assoc.
Qed.

(** The innermost step: one write. *)
Lemma notify_listener_run event (l : Listener) to_close w :
  (sent ← event_notify l event;
   mret (if sent : bool then to_close else to_close ++ [l])) w
  = fan_out event w to_close [l].
Proof.
  rewrite bind_run, event_notify_run.
  unfold fan_out, aborts, write_result, unsent, dispatch. simpl.
  rewrite orb_false_r.
  destruct (ws_closed (objects w l)) eqn:Hl,
           (caught (dead_write w)) eqn:Hc; simpl.
  - rewrite filter_cons_True by done. done.
  - done.
  - rewrite filter_cons_False by (by rewrite Hl). by rewrite app_nil_r.
  - rewrite filter_cons_False by (by rewrite Hl). by rewrite app_nil_r.
Qed.

(** A loop each turn of which is such a run, for the listeners [f x],
    is one for all of them in a row. *)
Lemma fan_out_loop {A} event (f : A → list Listener)
    (body : list Listener → A → M (list Listener)) w : ∀ xs to_close t,
  (∀ x to_close t, x ∈ xs →
     body to_close x (log_all t w) = fan_out event (log_all t w) to_close (f x)) →
  for_in xs to_close body (log_all t w)
  = fan_out event (log_all t w) to_close (xs ≫= f).
Proof.
  induction xs as [| x xs IH]; intros to_close t Hbody.
  { simpl. by rewrite fan_out_nil. }
  cbn [for_in mbind list_bind]. rewrite bind_run, fan_out_app.
  rewrite Hbody by (by left).
  destruct (fan_out event (log_all t w) to_close (f x))
    as [[e | acc] w1] eqn:Hrun; [done |].
  assert (Hw1 : ∃ t1, w1 = log_all t1 w).
  { unfold fan_out in Hrun. injection Hrun as _ <-.
    eexists. by rewrite <- log_all_app. }
  destruct Hw1 as [t1 ->]. apply IH.
  intros x' to_close' t' Hin. apply Hbody. by right.
Qed.

Lemma notify_listeners_run event (listeners : list Listener) to_close w t :
  for_in listeners to_close (λ to_close listener,
    sent ← event_notify listener event;
    mret (if sent : bool then to_close else to_close ++ [listener]))
    (log_all t w)
  = fan_out event (log_all t w) to_close listeners.
Proof.
  rewrite (fan_out_loop event (λ l, [l])).
  - f_equal. induction listeners as [| l listeners IH]; [done |].
    simpl. f_equal. apply IH.
  - intros l to_close' t' _. apply notify_listener_run.
Qed.

Lemma on_emitter_lookup_item {V} `{Countable V} (ix : index V) k w :
  (∀ e, ix_set ix (ix_get ix e) e = e) →
  on_emitter (lookup_item ix k) w
  = (match ix_get ix (emitter w) !! k with
     | Some s => inr s
     | None => inl KeyError
     end, w).
Proof.
  intros Hix. unfold on_emitter. rewrite lookup_item_run.
  by rewrite set_emitter_same.
Qed.

(** The loop over users, when each of them has listeners. *)
Lemma notify_users_run event (users : list Z) to_close w t :
  (∀ user, user ∈ users → is_Some (_listeners (emitter w) !! user)) →
  for_in users to_close (notify_user event) (log_all t w)
  = fan_out event (log_all t w) to_close (audience (emitter w) users).
Proof.
  intros Hall. unfold audience.
  apply (fan_out_loop event (λ user, elements (listeners_of (emitter w) user))).
  intros user to_close' t' Hin. destruct (Hall user Hin) as [ls Hls].
  unfold notify_user.
  rewrite bind_run, on_emitter_lookup_item by (by intros []).
  simpl. unfold listeners_of. rewrite Hls. apply notify_listeners_run.
Qed.

(** The loop of [notify_channels] over the channels of the user, when
    each channel has its member set and each member has listeners. *)
Lemma notify_shared_run event (channels : list Z) to_close w t :
  (∀ channel, channel ∈ channels →
     is_Some (_channels (emitter w) !! channel) ∧
     ∀ user, user ∈ members (emitter w) channel →
             is_Some (_listeners (emitter w) !! user)) →
  for_in channels to_close
    (λ to_close channel_id,
       members ← on_emitter (lookup_item channels_ix channel_id);
       for_in (elements members) to_close (notify_user event)) (log_all t w)
  = fan_out event (log_all t w) to_close
      (channels ≫= λ channel,
         audience (emitter w) (elements (members (emitter w) channel))).
Proof.
  intros Hall.
  apply (fan_out_loop event
           (λ channel,
              audience (emitter w) (elements (members (emitter w) channel)))).
  intros channel to_close' t' Hin.
  destruct (Hall channel Hin) as [[ms Hms] Hls].
  rewrite bind_run, on_emitter_lookup_item by (by intros []).
  simpl. rewrite Hms.
  assert (Hmembers : members (emitter w) channel = ms)
    by (unfold members; by rewrite Hms).
  rewrite Hmembers in Hls |- *.
  apply notify_users_run. intros user Huser. apply Hls.
  by apply elem_of_elements.
Qed.

(** The loop of [notify_everyone] over the listener sets. *)
Lemma notify_all_run event (sets : list (Z * gset Listener)) to_close w t :
  for_in sets to_close
    (λ to_close '(_, listeners),
       for_in (elements listeners) to_close (λ to_close listener,
         sent ← event_notify listener event;
         mret (if sent : bool then to_close else to_close ++ [listener])))
    (log_all t w)
  = fan_out event (log_all t w) to_close (sets ≫= λ '(_, ls), elements ls).
Proof.
  apply (fan_out_loop event (λ '(_, ls), elements ls)).
  intros [user ls] to_close' t' _. apply notify_listeners_run.
Qed.

Lemma notified_dispatch event w (listeners : list Listener) :
  notified (dispatch event w <$> listeners) = listeners.
Proof.
  induction listeners as [| l listeners IH]; [done |].
  simpl. f_equal. apply IH.
Qed.

(** ** The claims about the registry *)

(** C1 (the code breaks it): a user whose [channel_ids] is empty gets an
    empty set in the forward index when a listener of theirs identifies,
    and the entry stays when that listener is removed; and when the store
    answers differently for the second listener of a user, the user stays
    a member of a channel that is no longer in their channel set. *)
Theorem add_listener_breaks_invariant :
  let tk := λ _ : pyval, inr (Some 7%Z) : exn + option Z in
  let w1 := after (listen_frame 1%positive (identify_frame "t"))
              (new_world (λ _, Some []) tk) in
  let w2 := after (remove_listener 1%positive) w1 in
  let moved :=
    after (listen_frame 2%positive (identify_frame "t"))
      (set_pg_conn (λ _, Some [20%Z])
         (after (listen_frame 1%positive (identify_frame "t"))
            (new_world (λ _, Some [10%Z]) tk))) in
  (_users (emitter w1) !! 7%Z = Some ∅ ∧
   _listeners (emitter w1) !! 7%Z = Some {[1%positive]}) ∧
  ((remove_listener 1%positive w1).1 = inr tt ∧
   _users (emitter w2) !! 7%Z = Some ∅ ∧
   _listeners (emitter w2) = ∅) ∧
  (members (emitter moved) 10%Z = {[7%Z]} ∧
   channels_of (emitter moved) 7%Z = {[20%Z]} ∧
   listeners_of (emitter moved) 7%Z = {[1%positive; 2%positive]}).
Proof. vm_compute. repeat split; reflexivity. Qed.

(** C2 (the code breaks it): with two listeners of one user registered,
    removing the first twice raises [KeyError] the second time, the
    indices being left as they were.  So does the race the second
    removal is meant for: the peer of the first listener goes away, a
    fan-out fails to write to it and closes it, and then its heartbeat
    task finds the websocket closed and closes it again. *)
Theorem remove_listener_twice_raises :
  let w0 := new_world (λ _, Some [10%Z]) (λ _, inr (Some 7%Z)) in
  let connect := listen_frame 1%positive (identify_frame "t");;
                 listen_frame 2%positive (identify_frame "t") in
  let w := after (connect;; remove_listener 1%positive) w0 in
  let event := {| local_event := {| name := PStr "MESSAGE_CREATE";
                                    payload := PNone |};
                  channel_id := 10 |} in
  let raced :=
    after (notify_channel event) (hang_up 1%positive (after connect w0)) in
  ((connect;; remove_listener 1%positive) w0).1 = inr tt ∧
  listeners_of (emitter w) 7%Z = {[2%positive]} ∧
  (remove_listener 1%positive w).1 = inl KeyError ∧
  emitter (after (remove_listener 1%positive) w) = emitter w ∧
  listeners_of (emitter raced) 7%Z = {[2%positive]} ∧
  fst <$> _check_hb 1%positive [] raced = Some (inl KeyError).
Proof. vm_compute. repeat split; reflexivity. Qed.

(** C9: when the user of the listener has another listener registered,
    [remove_listener] leaves the forward and the reverse index as they
    were, and the listener sets of the other users; it takes the listener
    out of the listener set of its user. *)
Theorem remove_listener_keeps_membership listener other user ls w :
  user_id (objects w listener) = Some user →
  _listeners (emitter w) !! user = Some ls →
  other ∈ ls → other ≠ listener →
  let w' := after (remove_listener listener) w in
  _users (emitter w') = _users (emitter w) ∧
  _channels (emitter w') = _channels (emitter w) ∧
  (∀ user', user' ≠ user →
     _listeners (emitter w') !! user' = _listeners (emitter w) !! user') ∧
  (listener ∈ ls →
     (remove_listener listener w).1 = inr tt ∧
     _listeners (emitter w')
     = <[user := ls ∖ {[listener]}]> (_listeners (emitter w))).
Proof.
  intros Huser Hls Hother Hne w'. subst w'. unfold after.
  rewrite remove_listener_run, Huser.
  rewrite bool_decide_eq_true_2 by (apply elem_of_dom; eauto).
  destruct (decide (listener ∈ ls)) as [Hin | Hnot].
  - rewrite (remove_listener_locked_others listener user _ ls);
      [| done | done | set_solver].
    simpl. repeat split; try done.
    intros user' Huser'. by rewrite lookup_insert_ne.
  - by rewrite (remove_listener_locked_absent listener user _ ls).
Qed.

Lemma remove_listener_keeps_membership_witness :
  let w := after (listen_frame 1%positive (identify_frame "t");;
                  listen_frame 2%positive (identify_frame "t"))
             (new_world (λ _, Some [10%Z; 11%Z]) (λ _, inr (Some 7%Z))) in
  (user_id (objects w 1%positive) = Some 7%Z ∧
   _listeners (emitter w) !! 7%Z = Some {[1%positive; 2%positive]}) ∧
  _users (emitter (after (remove_listener 1%positive) w))
  = _users (emitter w) ∧
  _channels (emitter (after (remove_listener 1%positive) w))
  = _channels (emitter w).
Proof.
  intros w.
  assert (Huser : user_id (objects w 1%positive) = Some 7%Z) by reflexivity.
  assert (Hls : _listeners (emitter w) !! 7%Z = Some {[1%positive; 2%positive]})
    by (vm_compute; reflexivity).
  split; [by split |].
  destruct (remove_listener_keeps_membership 1%positive 2%positive 7%Z
              {[1%positive; 2%positive]} w Huser Hls)
    as (Husers & Hchannels & _); [set_solver | discriminate |].
  by split.
Defined.

(** ** The fan-out routines *)

Section FanOut.
Variable P : list io_event → Prop.
Hypothesis P_nil : P [].
Hypothesis P_app : ∀ t1 t2, P t1 → P t2 → P (t1 ++ t2).
Hypothesis P_lock : P [LockAcquire; LockRelease].
Hypothesis P_close : ∀ l code message, P [WsClose l code message].
Hypothesis P_section :
  ∀ t, writes t → P ([LockAcquire] ++ t ++ [LockRelease]).

Lemma writes_nil : writes [].
Proof. constructor. Qed.

Lemma writes_app t1 t2 : writes t1 → writes t2 → writes (t1 ++ t2).
Proof. intros. by apply Forall_app. Qed.

Lemma emits_notify_listeners event (listeners : list Listener) to_close :
  emits writes (for_in listeners to_close (λ to_close listener,
             sent ← event_notify listener event;
             mret (if sent : bool then to_close else to_close ++ [listener]))).
Proof.
  revert to_close. apply (emits_for_in writes writes_nil writes_app).
  intros to_close l. apply (emits_bind writes writes_app).
  - intros w. rewrite event_notify_run. eexists [_]. split; [done |].
    by repeat constructor.
  - intros sent. apply (emits_ret writes writes_nil).
Qed.

Lemma emits_notify_user event to_close user :
  emits writes (notify_user event to_close user).
Proof.
  unfold notify_user. apply (emits_bind writes writes_app).
  - apply (emits_on_emitter writes writes_nil).
  - intros listeners. apply emits_notify_listeners.
Qed.

Lemma emits_notify_channel event : emits P (notify_channel event).
Proof.
  unfold notify_channel. apply (emits_bind P P_app).
  - apply (emits_async_with_lock P writes); [done |].
    apply (emits_bind writes writes_app);
      [apply (emits_gets writes writes_nil) |].
    intros channels.
    apply (emits_for_in writes writes_nil writes_app).
    apply emits_notify_user.
  - intros to_close. by apply emits_close_all.
Qed.

Lemma emits_notify_channels event : emits P (notify_channels event).
Proof.
  unfold notify_channels. apply (emits_bind P P_app).
  - apply (emits_async_with_lock P writes); [done |].
    apply (emits_bind writes writes_app);
      [apply (emits_gets writes writes_nil) |].
    intros users.
    apply (emits_for_in writes writes_nil writes_app). intros to_close channel_id.
    apply (emits_bind writes writes_app);
      [apply (emits_on_emitter writes writes_nil) |].
    intros members.
    apply (emits_for_in writes writes_nil writes_app).
    apply emits_notify_user.
  - intros to_close. by apply emits_close_all.
Qed.

Lemma emits_notify_everyone event : emits P (notify_everyone event).
Proof.
  unfold notify_everyone. apply (emits_bind P P_app).
  - apply (emits_async_with_lock P writes); [done |].
    apply (emits_bind writes writes_app);
      [apply (emits_gets writes writes_nil) |].
    intros listeners.
    apply (emits_for_in writes writes_nil writes_app). intros to_close [_ ls].
    apply emits_notify_listeners.
  - intros to_close. by apply emits_close_all.
Qed.

End FanOut.

(** The lock and the network in a trace. *)

Lemma lock_scan_app allowed (t1 t2 : list io_event) : ∀ held,
  lock_scan allowed held (t1 ++ t2)
  = lock_scan allowed held t1 && lock_scan allowed (lock_after held t1) t2.
Proof.
  induction t1 as [| ev t1 IH]; intros held; [done |].
  destruct ev; simpl; rewrite IH; by rewrite ?andb_assoc.
Qed.

Lemma lock_after_app (t1 t2 : list io_event) : ∀ held,
  lock_after held (t1 ++ t2) = lock_after (lock_after held t1) t2.
Proof.
  induction t1 as [| ev t1 IH]; intros held; [done |].
  destruct ev; simpl; by rewrite IH.
Qed.

Lemma lock_scan_writes (t : list io_event) :
  Forall (λ ev, is_write ev) t →
  lock_scan fan_out_policy true (t ++ [LockRelease]) = true.
Proof.
  induction 1 as [| ev t Hev _ IH]; [done |].
  by destruct ev.
Qed.

Lemma disciplined_app t1 t2 :
  disciplined t1 → disciplined t2 → disciplined (t1 ++ t2).
Proof.
  intros [Hs1 Ha1] [Hs2 Ha2]. split.
  - by rewrite lock_scan_app, Hs1, Ha1, Hs2.
  - by rewrite lock_after_app, Ha1.
Qed.

Lemma disciplined_section t :
  Forall (λ ev, is_write ev) t →
  disciplined ([LockAcquire] ++ t ++ [LockRelease]).
Proof.
  intros Ht. split.
  - simpl. by apply lock_scan_writes.
  - simpl. rewrite lock_after_app. done.
Qed.

(** C8 (as stated) fails: [notify_channel] writes to the websocket of a
    listener between acquiring the lock and releasing it. *)
Lemma notify_channel_writes_under_lock :
  let w := after (set_user_id 1%positive 7%Z;; add_listener 1%positive)
             (new_world (λ _, Some [10%Z]) (λ _, inr None)) in
  let event := {| local_event := {| name := PStr "MESSAGE_CREATE";
                                    payload := PNone |};
                  channel_id := 10 |} in
  events (notify_channel event) w
  = [LockAcquire;
     WsSendJson 1%positive
       (PDict [("op", PInt 0); ("d", PNone); ("t", PStr "MESSAGE_CREATE")])
       true;
     LockRelease] ∧
  lock_scan no_network_under_lock false (events (notify_channel event) w)
  = false.
Proof. vm_compute. split; reflexivity. Qed.

(** C8 (as amended): in every run of [notify_channel], [notify_channels]
    and [notify_everyone], no websocket is closed while the registry lock
    is held, the lock is not acquired while held, and it is free when the
    run ends; the writes of [event_notify] all happen while the lock is
    held. *)
Theorem fan_out_closes_outside_lock w :
  (∀ event, disciplined (events (notify_channel event) w)) ∧
  (∀ event, disciplined (events (notify_channels event) w)) ∧
  (∀ event, disciplined (events (notify_everyone event) w)).
Proof.
  assert (Hlock : disciplined [LockAcquire; LockRelease]) by done.
  assert (Hclose : ∀ l code message, disciplined [WsClose l code message])
    by done.
  assert (Hnil : disciplined []) by done.
  split; [| split]; intros; apply (emits_events disciplined).
  - apply (emits_notify_channel disciplined Hnil disciplined_app Hlock Hclose
             disciplined_section).
  - apply (emits_notify_channels disciplined Hnil disciplined_app Hlock Hclose
             disciplined_section).
  - apply (emits_notify_everyone disciplined Hnil disciplined_app Hlock Hclose
             disciplined_section).
Qed.

(** ** Who is written to *)

Lemma emits_close_all_silent to_close :
  emits (λ t, notified t = []) (close_all to_close).
Proof.
  apply emits_close_all; try done.
  intros t1 t2 H1 H2. by rewrite notified_app, H1, H2.
Qed.

Lemma locked_log_all t w :
  log LockRelease (log_all t (log LockAcquire w))
  = log_all ([LockAcquire] ++ t ++ [LockRelease]) w.
Proof. unfold log, log_all. simpl. by rewrite <- !app_assoc. Qed.

Lemma close_all_nil w : close_all [] w = (inr tt, w).
Proof. reflexivity. Qed.

(** The shape the three routines share: the block under the lock, then
    the closes.  When a write raises out of the block, the lock is
    released and the routine raises; otherwise the listeners the writes
    failed on are closed. *)
Lemma fan_out_routine event (locked : M (list Listener)) w
    (listeners : list Listener) :
  locked (log_all [LockAcquire] w)
  = fan_out event (log_all [LockAcquire] w) [] listeners →
  (to_close ← async_with_lock locked; close_all to_close) w
  = if aborts w listeners
    then (inl (dead_write w),
          log_all (delivered event w (reached w listeners)) w)
    else close_all (unsent w listeners)
           (log_all (delivered event w listeners) w).
Proof.
  intros Hrun. rewrite bind_run. unfold async_with_lock.
  rewrite log_log_all, Hrun. unfold fan_out.
  rewrite aborts_log_all, unsent_log_all, reached_log_all, dispatch_log_all.
  unfold delivered. destruct (aborts w listeners) eqn:Habort; simpl.
  - by rewrite <- log_log_all, locked_log_all.
  - rewrite (reached_all w listeners Habort).
    by rewrite <- log_log_all, locked_log_all.
Qed.

(** What [notify_channel] and [notify_channels] do in a registry state
    that satisfies the membership invariant, and [notify_everyone] in
    every state. *)
Lemma notify_channel_run (event : LocalEvent) w :
  reachable w → membership (emitter w) →
  let listeners :=
    audience (emitter w) (elements (members (emitter w) (channel_id event))) in
  notify_channel event w
  = if aborts w listeners
    then (inl (dead_write w),
          log_all (delivered event w (reached w listeners)) w)
    else close_all (unsent w listeners)
           (log_all (delivered event w listeners) w).
Proof.
  intros Hreach Hmem listeners. subst listeners.
  destruct (reachable_consistent w Hreach) as (_ & _ & I3 & _ & _).
  unfold notify_channel. apply fan_out_routine.
  rewrite bind_run. simpl.
  apply (notify_users_run event _ [] w [LockAcquire]).
  intros user Hin%elem_of_elements.
  apply (I3 user (channel_id event)). by apply Hmem.
Qed.

Lemma notify_channels_run (event : OuterEvent) w :
  reachable w → membership (emitter w) →
  let listeners := outer_audience (emitter w) (event_user_id event) in
  notify_channels event w
  = if aborts w listeners
    then (inl (dead_write w),
          log_all (delivered event w (reached w listeners)) w)
    else close_all (unsent w listeners)
           (log_all (delivered event w listeners) w).
Proof.
  intros Hreach Hmem listeners. subst listeners.
  destruct (reachable_consistent w Hreach) as (I1 & _ & I3 & _ & _).
  unfold notify_channels. apply fan_out_routine.
  rewrite bind_run. simpl.
  apply (notify_shared_run event _ [] w [LockAcquire]).
  intros channel Hin%elem_of_elements. split.
  - specialize (I1 (event_user_id event) channel Hin).
    unfold members in I1.
    destruct (_channels (emitter w) !! channel); [by eexists | set_solver].
  - intros user Huser. apply (I3 user channel). by apply Hmem.
Qed.

Lemma notify_everyone_run (event : GlobalEvent) w :
  let listeners := registered (emitter w) in
  notify_everyone event w
  = if aborts w listeners
    then (inl (dead_write w),
          log_all (delivered event w (reached w listeners)) w)
    else close_all (unsent w listeners)
           (log_all (delivered event w listeners) w).
Proof.
  intros listeners. subst listeners.
  unfold notify_everyone. apply fan_out_routine.
  rewrite bind_run. simpl.
  apply (notify_all_run event _ [] w [LockAcquire]).
Qed.

Lemma events_log_all {A} (m : M A) w r t :
  m w = (r, log_all t w) → events m w = t.
Proof.
  intros Hrun. unfold events. rewrite Hrun. simpl. apply drop_app_length.
Qed.

Lemma notified_delivered event w (listeners : list Listener) :
  notified (delivered event w listeners) = listeners.
Proof.
  unfold delivered. rewrite !notified_app, notified_dispatch. simpl.
  by rewrite app_nil_r.
Qed.

(** The listeners a routine of this shape writes to. *)
Lemma notified_fan_out event (m : M unit) w (listeners : list Listener) :
  m w = (if aborts w listeners
         then (inl (dead_write w),
               log_all (delivered event w (reached w listeners)) w)
         else close_all (unsent w listeners)
                (log_all (delivered event w listeners) w)) →
  notified (events m w) = reached w listeners.
Proof.
  intros Hrun. unfold events. rewrite Hrun.
  destruct (aborts w listeners) eqn:Habort.
  - simpl. by rewrite drop_app_length, notified_delivered.
  - match goal with |- context [close_all ?tc ?w2] =>
      destruct (emits_close_all_silent tc w2) as (t & Ht & Hquiet)
    end.
    rewrite Ht. simpl. rewrite <- app_assoc, drop_app_length.
    rewrite notified_app, Hquiet, notified_delivered, app_nil_r.
    by rewrite reached_all.
Qed.

Lemma elem_of_audience e (users : list Z) (listener : Listener) :
  listener ∈ audience e users
  ↔ ∃ user, user ∈ users ∧ listener ∈ listeners_of e user.
Proof.
  unfold audience. rewrite list_elem_of_bind.
  split; intros (user & H1 & H2); exists user.
  - by apply elem_of_elements in H1.
  - by rewrite elem_of_elements.
Qed.

Lemma elem_of_registered e (listener : Listener) :
  listener ∈ registered e ↔ ∃ user, listener ∈ listeners_of e user.
Proof.
  unfold registered, listeners_of. rewrite list_elem_of_bind. split.
  - intros ([user ls] & Hin & Hls%elem_of_map_to_list).
    exists user. rewrite Hls. simpl. by apply elem_of_elements in Hin.
  - intros (user & Hin).
    destruct (_listeners e !! user) as [ls |] eqn:Hls;
      simpl in Hin; [| set_solver].
    exists (user, ls). split; [by apply elem_of_elements |].
    by apply elem_of_map_to_list.
Qed.

(** When every write succeeds or raises [RuntimeError], no write raises
    out of [event_notify]. *)
Lemma aborts_caught w (listeners : list Listener) :
  (∀ l, ws_closed (objects w l) = true → dead_write w = RuntimeError) →
  aborts w listeners = false.
Proof.
  intros Hcaught. unfold aborts.
  destruct (existsb _ listeners) eqn:Hdead; [| by rewrite andb_false_r].
  apply existsb_exists in Hdead as (l & _ & Hl).
  by rewrite (Hcaught l Hl).
Qed.

(** What holds of C7: in a registry state that satisfies the membership
    invariant, when every write succeeds or raises [RuntimeError],
    [notify_channel] calls [event_notify] on the listeners of the users
    whose channel set holds the channel of the event and on no other
    listener, and [notify_everyone] on every registered listener. *)
Lemma fan_out_audience_caught w :
  reachable w → membership (emitter w) →
  (∀ l, ws_closed (objects w l) = true → dead_write w = RuntimeError) →
  (∀ (event : LocalEvent) listener,
     listener ∈ notified (events (notify_channel event) w)
     ↔ ∃ user, channel_id event ∈ channels_of (emitter w) user ∧
               listener ∈ listeners_of (emitter w) user) ∧
  (∀ (event : GlobalEvent) listener,
     listener ∈ notified (events (notify_everyone event) w)
     ↔ ∃ user, listener ∈ listeners_of (emitter w) user).
Proof.
  intros Hreach Hmem Hcaught. split.
  - intros event listener.
    rewrite (notified_fan_out event _ w _ (notify_channel_run event w Hreach Hmem)).
    rewrite reached_all by (by apply aborts_caught).
    rewrite elem_of_audience.
    split; intros (user & H1 & H2); exists user; split; try done.
    + apply Hmem. by apply elem_of_elements in H1.
    + apply elem_of_elements. by apply Hmem.
  - intros event listener.
    rewrite (notified_fan_out event _ w _ (notify_everyone_run event w)).
    rewrite reached_all by (by apply aborts_caught).
    apply elem_of_registered.
Qed.

(** C7 (the code breaks it): user 7 is in channel 10 and has the
    listeners 1 and 2, whose peers have both gone away; the library raises
    [ConnectionResetError] when a closed websocket is written to.  The
    registry state satisfies the membership invariant.  [notify_channel]
    and [notify_everyone] call [event_notify] on the listener they come
    to first, the write raises out of the routine, and [event_notify] is
    never called on the other listener. *)
Theorem fan_out_stops_at_failed_write :
  let w0 := after (add_listener 2%positive)
              (after (set_user_id 2%positive 7%Z)
                 (after (add_listener 1%positive)
                    (after (set_user_id 1%positive 7%Z)
                       (new_world (λ _, Some [10%Z]) (λ _, inr None))))) in
  let w := set_dead_write ConnectionResetError
             (hang_up 2%positive (hang_up 1%positive w0)) in
  let local := {| local_event := {| name := PStr "MESSAGE_CREATE";
                                    payload := PNone |};
                  channel_id := 10 |} in
  let global := {| global_event := {| name := PStr "SERVER_RESTART";
                                      payload := PNone |} |} in
  (reachable w ∧ membership (emitter w)) ∧
  (10%Z ∈ channels_of (emitter w) 7%Z ∧
   1%positive ∈ listeners_of (emitter w) 7%Z ∧
   2%positive ∈ listeners_of (emitter w) 7%Z) ∧
  ((notify_channel local w).1 = inl ConnectionResetError ∧
   notified (events (notify_channel local) w) = [2%positive]) ∧
  ((notify_everyone global w).1 = inl ConnectionResetError ∧
   notified (events (notify_everyone global) w) = [2%positive]).
Proof.
  intros w0 w local global.
  assert (Hchannels : _channels (emitter w)
                      = ({[10%Z := {[7%Z]}]} : gmap Z (gset Z)))
    by (vm_compute; reflexivity).
  assert (Husers : _users (emitter w)
                   = ({[7%Z := {[10%Z]}]} : gmap Z (gset Z)))
    by (vm_compute; reflexivity).
  split; [split |].
  - apply (reachable_around w0); [| reflexivity].
    apply reachable_add.
    apply (reachable_around
             (after (add_listener 1%positive)
                (after (set_user_id 1%positive 7%Z)
                   (new_world (λ _, Some [10%Z]) (λ _, inr None)))));
      [| reflexivity].
    apply reachable_add, reachable_new. reflexivity.
  - intros user channel. unfold members, channels_of.
    rewrite Hchannels, Husers.
    destruct (decide (channel = 10%Z)) as [-> | Hc],
             (decide (user = 7%Z)) as [-> | Hu];
      simplify_map_eq; set_solver.
  - assert (Hlisteners :
      listeners_of (emitter w) 7%Z = {[1%positive; 2%positive]})
      by (vm_compute; reflexivity).
    split; [| split].
    + rewrite Hlisteners. unfold channels_of. rewrite Husers.
      simplify_map_eq. set_solver.
    + split; vm_compute; reflexivity.
    + split; vm_compute; reflexivity.
Qed.

(** ** The claims about [Listener] *)

(** C6 (the code breaks it): the peer of listener 1 has gone away, and
    the library raises [ConnectionResetError] when the closed websocket
    is written to.  The exception passes [except RuntimeError] and leaves
    [notify], and [event_notify] likewise; the same call returns [False]
    when the library raises [RuntimeError]. *)
Theorem notify_raises_on_closed_websocket :
  let w0 := hang_up 1%positive (new_world (λ _, Some []) (λ _, inr None)) in
  let w := set_dead_write ConnectionResetError w0 in
  let event := {| name := PStr "MESSAGE_CREATE"; payload := PNone |} in
  (notify 1%positive HEARTBEAT_ACK PNone w).1 = inl ConnectionResetError ∧
  events (notify 1%positive HEARTBEAT_ACK PNone) w
  = [WsSendJson 1%positive (PDict [("op", PInt 9)]) false] ∧
  (event_notify 1%positive event w).1 = inl ConnectionResetError ∧
  (notify 1%positive HEARTBEAT_ACK PNone w0).1 = inr false.
Proof. vm_compute. repeat split; reflexivity. Qed.

(** ** Inbound frames *)

Lemma close_run self code message w :
  (remove_listener self w).1 = inr tt →
  (close self code message true w).1 = inr tt ∧
  last (trace (after (close self code message true) w))
  = Some (WsClose self (CloseCode_value code) message) ∧
  ws_closed (objects (after (close self code message true) w) self) = true.
Proof.
  intros Hok. unfold after, close. rewrite bind_run.
  destruct (remove_listener self w) as [[e | []] w1]; [done |].
  unfold ws_close. rewrite !bind_run. simpl.
  rewrite last_snoc. by rewrite decide_True.
Qed.

Lemma identify_token_missing items w :
  assoc "d" items = None ∨
  (∃ d, assoc "d" items = Some (PDict d) ∧ assoc "token" d = None) →
  identify_token (PDict items) w = (inl KeyError, w).
Proof.
  intros Hd. unfold identify_token. rewrite bind_run. simpl.
  destruct Hd as [Hd | (d & Hd & Htoken)]; rewrite Hd; simpl; [done |].
  rewrite bind_run. simpl. by rewrite Htoken.
Qed.

(** The IDENTIFY branch of [_handle] when the token cannot be read. *)
Lemma _handle_identify self items op w :
  assoc "op" items = Some op →
  eq_int op 1 = false → eq_int op 2 = true →
  identify_token (PDict items) w = (inl KeyError, w) →
  _handle self (PDict items) w = (inl KeyError, w).
Proof.
  intros Hop Hhb Hid Htoken. unfold _handle.
  rewrite bind_run. simpl. rewrite Hop. simpl. rewrite Hhb, Hid.
  rewrite bind_run. unfold try_except at 1. rewrite bind_run, Htoken. done.
Qed.

(** C3 (as stated) fails: a frame with opcode 5 is ignored; nothing is
    written and the websocket stays open. *)
Lemma listen_frame_unknown_opcode_ignored :
  let w := new_world (λ _, Some []) (λ _, inr None) in
  let frame := inr (PDict [("op", PInt 5)]) in
  (listen_frame 1%positive frame w).1 = inr tt ∧
  events (listen_frame 1%positive frame) w = [] ∧
  ws_closed (objects (after (listen_frame 1%positive frame) w) 1%positive)
  = false.
Proof. vm_compute. repeat split; reflexivity. Qed.

(** C3 (as amended): a frame that is a JSON object without an [op] key,
    and an IDENTIFY frame without [d] or without [d.token], make the
    listener call [close] with BAD_PAYLOAD, which closes the websocket
    with code 4002 once the listener is deregistered; a frame whose
    opcode is neither HEARTBEAT nor IDENTIFY is ignored. *)
Theorem listen_frame_bad_payload self w :
  (∀ items,
     assoc "op" items = None →
     listen_frame self (inr (PDict items)) w
     = close self BAD_PAYLOAD "" true w) ∧
  (∀ items op,
     assoc "op" items = Some op →
     eq_int op (Opcode_value HEARTBEAT) = false →
     eq_int op (Opcode_value IDENTIFY) = true →
     (assoc "d" items = None ∨
      ∃ d, assoc "d" items = Some (PDict d) ∧ assoc "token" d = None) →
     listen_frame self (inr (PDict items)) w
     = close self BAD_PAYLOAD "" true w) ∧
  ((remove_listener self w).1 = inr tt →
   (close self BAD_PAYLOAD "" true w).1 = inr tt ∧
   last (trace (after (close self BAD_PAYLOAD "" true) w))
   = Some (WsClose self 4002 "") ∧
   ws_closed (objects (after (close self BAD_PAYLOAD "" true) w) self) = true) ∧
  (∀ items op,
     assoc "op" items = Some op →
     eq_int op (Opcode_value HEARTBEAT) = false →
     eq_int op (Opcode_value IDENTIFY) = false →
     listen_frame self (inr (PDict items)) w = (inr tt, w)).
Proof.
  split; [| split; [| split]].
  - intros items Hop. unfold listen_frame, try_except, _handle.
    rewrite !bind_run. simpl. by rewrite Hop.
  - intros items op Hop Hhb Hid Hd. simpl in Hhb, Hid.
    unfold listen_frame, try_except.
    rewrite bind_run. simpl.
    by rewrite (_handle_identify self items op w Hop Hhb Hid
                  (identify_token_missing items w Hd)).
  - apply close_run.
  - intros items op Hop Hhb Hid. simpl in Hhb, Hid.
    unfold listen_frame, try_except, _handle.
    rewrite !bind_run. simpl. rewrite Hop. rewrite bind_run. simpl.
    by rewrite Hhb, Hid.
Qed.

Lemma listen_frame_bad_payload_witness :
  let w := new_world (λ _, Some []) (λ _, inr None) in
  assoc "op" [] = None ∧
  listen_frame 1%positive (inr (PDict [])) w
  = close 1%positive BAD_PAYLOAD "" true w.
Proof.
  intros w.
  assert (Hop : assoc "op" [] = None) by reflexivity.
  split; [exact Hop |].
  apply (proj1 (listen_frame_bad_payload 1%positive w) [] Hop).
Defined.

(** ** The heartbeat task *)

Lemma response_error_expired (now last_hb : Q) :
  let interval := (inject_Z HEARTBEAT_INTERVAL / 1000)%Q in
  negb (Qle_bool ((now - last_hb) - interval) (interval / 10)) = true
  ↔ (33 < now - last_hb)%Q.
Proof.
  intros interval.
  assert (Hi : (interval == 30)%Q) by reflexivity.
  assert (Hslack : (interval / 10 == 3)%Q) by reflexivity.
  rewrite negb_true_iff, <- not_true_iff_false, Qle_bool_iff.
  rewrite Hslack, Hi. clear Hi Hslack. clearbody interval.
  split.
  - intros Hnle. apply Qnot_le_lt in Hnle. lra.
  - intros Hlt. apply Qlt_not_le. lra.
Qed.

(** C10: whenever the heartbeat task ends, it ends by calling [close]
    with the default code and with cleanup, that is by
    [remove_listener] followed by [ws.close(1000, b"")]: both when it
    finds the websocket closed and when it finds the last heartbeat more
    than 33 seconds old.  It runs on only while neither happens. *)
Theorem _check_hb_closes self : ∀ wakes w,
  match _check_hb self wakes w with
  | Some r =>
      ∃ w', w' ∈ w :: wakes ∧
            (ws_closed (objects w' self) = true ∨ heartbeat_expired self w') ∧
            r = (remove_listener self;;
                 ws_close self (CloseCode_value NORMAL) "") w'
  | None =>
      Forall (λ w', ws_closed (objects w' self) = false) (w :: wakes) ∧
      Forall (λ w', ¬ heartbeat_expired self w') wakes
  end.
Proof.
  induction wakes as [| w1 wakes IH]; intros w; cbn [_check_hb].
  - destruct (ws_closed (objects w self)) eqn:Hclosed.
    + exists w. split; [by left |]. split; [by left | done].
    + split; [by repeat constructor | constructor].
  - destruct (ws_closed (objects w self)) eqn:Hclosed.
    { exists w. split; [by left |]. split; [by left | done]. }
    destruct (negb (Qle_bool _ _)) eqn:Hexp.
    { apply response_error_expired in Hexp.
      exists w1. split; [right; by left |]. split; [by right | done]. }
    apply not_true_iff_false in Hexp.
    rewrite response_error_expired in Hexp.
    specialize (IH w1). destruct (_check_hb self wakes w1) as [r |].
    + destruct IH as (w' & Hin & Hwhy & ->).
      exists w'. split; [by right | done].
    + destruct IH as [Hopen Hlive]. split; by constructor.
Qed.

(** ** Shutting down *)

Lemma close_without_cleanup_run self code message w :
  close self code message false w
  = (inr tt,
     log (WsClose self (CloseCode_value code) message)
       (set_object self
          {| ws_closed := true; user_id := user_id (objects w self);
             _last_hb := _last_hb (objects w self) |} w)).
Proof. reflexivity. Qed.

(** Closing listeners one after the other without cleanup. *)
Lemma close_each_run code message : ∀ (listeners : list Listener) w,
  ∃ w', for_each listeners (λ l, close l code message false) w = (inr tt, w') ∧
        emitter w' = emitter w ∧
        trace w'
        = trace w ++ ((λ l, WsClose l (CloseCode_value code) message)
                        <$> listeners) ∧
        ∀ l, ws_closed (objects w' l)
             = bool_decide (l ∈ listeners) || ws_closed (objects w l).
Proof.
  induction listeners as [| l0 listeners IH]; intros w.
  { exists w. simpl. rewrite app_nil_r. by repeat split. }
  unfold for_each in *. cbn [for_in]. rewrite bind_run.
  rewrite close_without_cleanup_run.
  edestruct IH as (w' & -> & He & Ht & Ho). exists w'.
  split; [done |]. split; [by rewrite He |]. split.
  - rewrite Ht. simpl. by rewrite <- app_assoc.
  - intros l. rewrite Ho. simpl.
    destruct (decide (l = l0)) as [-> | Hne].
    + rewrite (bool_decide_eq_true_2 (l0 ∈ l0 :: listeners)) by (by left).
      simpl. by rewrite orb_true_r.
    + destruct (decide (l ∈ listeners)) as [Hin | Hnin].
      * rewrite !bool_decide_eq_true_2; [done | by right | done].
      * rewrite !bool_decide_eq_false_2; [done | | done].
        by intros [? | ?]%elem_of_cons.
Qed.

Lemma close_sets_run code message :
  ∀ (sets : list (Z * gset Listener)) w,
  ∃ w', for_each sets (λ '(_, listeners),
          for_each (elements listeners) (λ listener,
            close listener code message false)) w = (inr tt, w') ∧
        emitter w' = emitter w ∧
        trace w'
        = trace w ++ ((λ l, WsClose l (CloseCode_value code) message)
                        <$> (sets ≫= λ '(_, ls), elements ls)) ∧
        ∀ l, ws_closed (objects w' l)
             = bool_decide (l ∈ sets ≫= λ '(_, ls), elements ls)
               || ws_closed (objects w l).
Proof.
  induction sets as [| [u ls] sets IH]; intros w.
  { exists w. simpl. rewrite app_nil_r. by repeat split. }
  unfold for_each in *. cbn [for_in]. rewrite bind_run.
  destruct (close_each_run code message (elements ls) w)
    as (w1 & Hrun & He1 & Ht1 & Ho1).
  unfold for_each in Hrun. rewrite Hrun.
  destruct (IH w1) as (w' & -> & He & Ht & Ho). exists w'.
  split; [done |]. split; [by rewrite He |]. split.
  - rewrite Ht, Ht1. cbn [mbind list_bind]. by rewrite fmap_app, app_assoc.
  - intros l. rewrite Ho, Ho1. cbn [mbind list_bind].
    destruct (decide (l ∈ elements ls)) as [H1 | H1],
             (decide (l ∈ sets ≫= λ '(_, ls0), elements ls0)) as [H2 | H2];
      rewrite ?(bool_decide_eq_true_2 _ H1), ?(bool_decide_eq_true_2 _ H2),
        ?(bool_decide_eq_false_2 _ H1), ?(bool_decide_eq_false_2 _ H2); simpl;
      rewrite ?orb_true_r.
    + rewrite bool_decide_eq_true_2; [done |]. apply elem_of_app. by left.
    + rewrite bool_decide_eq_true_2; [done |]. apply elem_of_app. by left.
    + rewrite bool_decide_eq_true_2; [done |]. apply elem_of_app. by right.
    + rewrite bool_decide_eq_false_2; [done |].
      by intros [? | ?]%elem_of_app.
Qed.

(** [EventEmitter.close] returns, sets [_closing], closes the websocket
    of every registered listener with the code and message given, takes
    no lock, and leaves the three indices as they are. *)
Theorem emitter_close_keeps_indices code message w :
  let w' := after (emitter_close code message) w in
  (emitter_close code message w).1 = inr tt ∧
  (_channels (emitter w') = _channels (emitter w) ∧
   _users (emitter w') = _users (emitter w) ∧
   _listeners (emitter w') = _listeners (emitter w) ∧
   _closing (emitter w') = true) ∧
  events (emitter_close code message) w
  = ((λ l, WsClose l (CloseCode_value code) message)
       <$> registered (emitter w)) ∧
  (∀ l, l ∈ registered (emitter w) → ws_closed (objects w' l) = true).
Proof.
  intros w'. subst w'. unfold after, events, emitter_close.
  rewrite bind_run. unfold on_emitter at 1. simpl. rewrite bind_run. simpl.
  match goal with |- context [for_each _ _ ?w1] =>
    destruct (close_sets_run code message
                (map_to_list (_listeners (emitter w))) w1)
      as (w' & Hrun & He & Ht & Ho)
  end.
  rewrite Hrun. simpl. rewrite He, Ht. simpl.
  split; [done |]. split; [done |]. split.
  - by rewrite drop_app_length.
  - intros l Hl. rewrite Ho. by rewrite bool_decide_eq_true_2.
Qed.

(** Once [EventEmitter.close] has run, [create_listener] makes no
    listener: it closes the websocket and returns [None], and the
    registry is not touched. *)
Theorem create_listener_after_close ws code message w :
  let w' := after (emitter_close code message) w in
  (create_listener ws w').1 = inr None ∧
  events (create_listener ws) w' = [WsClose ws 1000 ""] ∧
  ws_closed (objects (after (create_listener ws) w') ws) = true ∧
  emitter (after (create_listener ws) w') = emitter w'.
Proof.
  intros w'.
  assert (Hclosing : _closing (emitter w') = true).
  { subst w'. unfold after, emitter_close.
    rewrite bind_run. unfold on_emitter at 1. simpl. rewrite bind_run. simpl.
    match goal with |- context [for_each _ _ ?w1] =>
      destruct (close_sets_run code message
                  (map_to_list (_listeners (emitter w))) w1)
        as (w2 & Hrun & He & _)
    end.
    rewrite Hrun. simpl. by rewrite He. }
  clearbody w'. unfold after, events, create_listener.
  repeat (rewrite bind_run; simpl). rewrite Hclosing.
  unfold ws_close. repeat (rewrite bind_run; simpl).
  rewrite drop_app_length. by rewrite decide_True.
Qed.

(** While the emitter is not closing, [create_listener] returns a
    listener that is not identified and whose websocket is open, and
    writes nothing; closing this listener right away closes its
    websocket and leaves the registry as it is. *)
Theorem create_listener_unidentified ws w :
  _closing (emitter w) = false →
  let w' := after (create_listener ws) w in
  (create_listener ws w).1 = inr (Some ws) ∧
  objects w' ws
  = {| ws_closed := false; user_id := None; _last_hb := time w |} ∧
  events (create_listener ws) w = [] ∧
  emitter w' = emitter w ∧
  (close_default ws w').1 = inr tt ∧
  emitter (after (close_default ws) w') = emitter w ∧
  events (close_default ws) w' = [WsClose ws 1000 ""].
Proof.
  intros Hopen w'. subst w'. unfold after, events, create_listener.
  repeat (rewrite bind_run; simpl). rewrite Hopen.
  repeat (rewrite bind_run; simpl).
  rewrite decide_True by done. rewrite drop_all.
  unfold close_default, close. rewrite bind_run.
  rewrite remove_listener_absent.
  2: { simpl. rewrite decide_True by done. done. }
  unfold ws_close. repeat (rewrite bind_run; simpl).
  by rewrite drop_app_length.
Qed.

Lemma create_listener_unidentified_witness :
  let w := new_world (λ _, Some []) (λ _, inr None) in
  _closing (emitter w) = false ∧
  (create_listener 1%positive w).1 = inr (Some 1%positive).
Proof.
  intros w.
  assert (Hopen : _closing (emitter w) = false) by reflexivity.
  split; [exact Hopen |].
  apply (create_listener_unidentified 1%positive w Hopen).
Defined.

(** ** HEARTBEAT and IDENTIFY *)

Lemma identify_token_run items d token w :
  assoc "d" items = Some d → getitem d "token" = inr token →
  identify_token (PDict items) w
  = (match tokens w token with
     | inr (Some user) => inr user
     | inr None => inl ValueError
     | inl e => inl e
     end, w).
Proof.
  intros Hd Htoken. unfold identify_token.
  rewrite bind_run. simpl. rewrite Hd. simpl.
  rewrite bind_run. unfold lift at 1. rewrite Htoken.
  repeat (rewrite bind_run; simpl).
  by destruct (tokens w token) as [e | [user |]].
Qed.

Lemma listen_frame_identify_run self items op d token user w :
  assoc "op" items = Some op →
  eq_int op 1 = false → eq_int op 2 = true →
  assoc "d" items = Some d → getitem d "token" = inr token →
  tokens w token = inr (Some user) →
  listen_frame self (inr (PDict items)) w
  = let '(r, e) :=
      add_listener_locked self user (pg_conn w user) (emitter w) in
    match r with
    | inl KeyError =>
        close self BAD_PAYLOAD "" true
          (log LockRelease
             (set_emitter e
                (log LockAcquire
                   (log (PgFetchval user)
                      (set_object self
                         {| ws_closed := ws_closed (objects w self);
                            user_id := Some user;
                            _last_hb := _last_hb (objects w self) |} w)))))
    | _ =>
        (r, log LockRelease
              (set_emitter e
                 (log LockAcquire
                    (log (PgFetchval user)
                       (set_object self
                          {| ws_closed := ws_closed (objects w self);
                             user_id := Some user;
                             _last_hb := _last_hb (objects w self) |} w)))))
    end.
Proof.
  intros Hop Hhb Hid Hd Htoken Hcheck.
  unfold listen_frame, try_except, _handle.
  rewrite bind_run. simpl. rewrite bind_run. simpl. rewrite Hop. simpl.
  rewrite Hhb, Hid. rewrite bind_run. unfold try_except at 1.
  rewrite bind_run, (identify_token_run items d token w Hd Htoken), Hcheck.
  simpl. rewrite bind_run. unfold set_user_id. rewrite bind_run. simpl.
  rewrite add_listener_run. simpl. rewrite decide_True by done. simpl.
  destruct (add_listener_locked _ _ _ _) as [[[] | []] e]; done.
Qed.

(** An IDENTIFY frame with a token the verification accepts registers the
    listener under the user of the token, with the channels the store
    returns; nothing is written to the websocket, and the listener sets
    of other users stay as they are, also one the listener is in. *)
Theorem identify_registers self items op d token user channels w :
  assoc "op" items = Some op →
  eq_int op (Opcode_value HEARTBEAT) = false →
  eq_int op (Opcode_value IDENTIFY) = true →
  assoc "d" items = Some d → getitem d "token" = inr token →
  tokens w token = inr (Some user) →
  pg_conn w user = Some channels →
  let w' := after (listen_frame self (inr (PDict items))) w in
  (listen_frame self (inr (PDict items)) w).1 = inr tt ∧
  user_id (objects w' self) = Some user ∧
  listeners_of (emitter w') user
  = {[self]} ∪ listeners_of (emitter w) user ∧
  channels_of (emitter w') user = list_to_set channels ∧
  (∀ c, c ∈ channels → user ∈ members (emitter w') c) ∧
  (∀ user', user' ≠ user →
     listeners_of (emitter w') user' = listeners_of (emitter w) user') ∧
  events (listen_frame self (inr (PDict items))) w
  = [PgFetchval user; LockAcquire; LockRelease].
Proof.
  intros Hop Hhb Hid Hd Htoken Hcheck Hpg w'. subst w'.
  simpl in Hhb, Hid. unfold after, events.
  rewrite (listen_frame_identify_run self items op d token user w) by done.
  rewrite Hpg, add_listener_locked_run. simpl.
  rewrite decide_True by done. simpl.
  unfold listeners_of, channels_of, members. simpl.
  rewrite !lookup_insert_eq. simpl.
  rewrite <- !app_assoc, drop_app_length.
  repeat split; try done.
  - intros c Hc. rewrite join_all_lookup, decide_True by done.
    unfold joined. simpl. set_solver.
  - intros user' Hne. by rewrite lookup_insert_ne.
Qed.

Lemma identify_registers_witness :
  let w := new_world (λ _, Some [10%Z]) (λ _, inr (Some 7%Z)) in
  let items := [("op", PInt 2); ("d", PDict [("token", PStr "t")])] in
  (assoc "op" items = Some (PInt 2) ∧
   tokens w (PStr "t") = inr (Some 7%Z) ∧ pg_conn w 7%Z = Some [10%Z]) ∧
  channels_of
    (emitter (after (listen_frame 1%positive (inr (PDict items))) w)) 7%Z
  = list_to_set [10%Z].
Proof.
  intros w items.
  assert (Hop : assoc "op" items = Some (PInt 2)) by reflexivity.
  assert (Hcheck : tokens w (PStr "t") = inr (Some 7%Z)) by reflexivity.
  assert (Hpg : pg_conn w 7%Z = Some [10%Z]) by reflexivity.
  split; [by repeat split |].
  apply (identify_registers 1%positive items (PInt 2)
           (PDict [("token", PStr "t")]) (PStr "t") 7%Z [10%Z] w Hop
           eq_refl eq_refl eq_refl eq_refl Hcheck Hpg).
Defined.

Lemma listen_frame_rejected_run self items op d token w :
  assoc "op" items = Some op →
  eq_int op 1 = false → eq_int op 2 = true →
  assoc "d" items = Some d → getitem d "token" = inr token →
  tokens w token = inr None ∨ tokens w token = inl ValueError
    ∨ tokens w token = inl RuntimeError →
  user_id (objects w self) = None →
  ws_closed (objects w self) = false →
  listen_frame self (inr (PDict items)) w
  = (inr tt,
     log (WsClose self 4004 "")
       (set_object self
          {| ws_closed := true; user_id := None;
             _last_hb := _last_hb (objects w self) |}
          (log (WsSendJson self (PDict [("op", PInt 7)]) true) w))).
Proof.
  intros Hop Hhb Hid Hd Htoken Hcheck Hnone Hopen.
  assert (Hfail : (identify_token (PDict items) w).1 = inl ValueError ∨
                  (identify_token (PDict items) w).1 = inl RuntimeError).
  { rewrite (identify_token_run items d token w Hd Htoken).
    destruct Hcheck as [-> | [-> | ->]]; simpl; auto. }
  assert (Hsame : (identify_token (PDict items) w).2 = w)
    by (by rewrite (identify_token_run items d token w Hd Htoken)).
  unfold listen_frame, try_except, _handle.
  rewrite bind_run. simpl. rewrite bind_run. simpl. rewrite Hop. simpl.
  rewrite Hhb, Hid. rewrite bind_run. unfold try_except at 1.
  rewrite bind_run.
  destruct (identify_token (PDict items) w) as [r w1]. simpl in Hfail, Hsame.
  subst w1.
  assert (Hrest :
    (notify self INVALIDATE_SESSION PNone;;
     close self BAD_TOKEN "" true;; mret (None : option Z)) w
    = (inr None,
       log (WsClose self 4004 "")
         (set_object self
            {| ws_closed := true; user_id := None;
               _last_hb := _last_hb (objects w self) |}
            (log (WsSendJson self (PDict [("op", PInt 7)]) true) w)))).
  { rewrite bind_run, notify_run, (write_result_open w self Hopen), Hopen.
    simpl.
    rewrite bind_run. unfold close. rewrite bind_run.
    rewrite remove_listener_absent by (simpl; by rewrite Hnone).
    unfold ws_close. repeat (rewrite bind_run; simpl). by rewrite Hnone. }
  destruct Hfail as [-> | ->]; by rewrite Hrest.
Qed.

(** An IDENTIFY frame with a token the verification rejects (it answers
    no, or raises [ValueError] or [RuntimeError]) is answered on an open
    websocket by INVALIDATE_SESSION and a close with BAD_TOKEN; a listener
    that was not identified stays so and the registry is not touched. *)
Theorem identify_rejected self items op d token w :
  assoc "op" items = Some op →
  eq_int op (Opcode_value HEARTBEAT) = false →
  eq_int op (Opcode_value IDENTIFY) = true →
  assoc "d" items = Some d → getitem d "token" = inr token →
  tokens w token = inr None ∨ tokens w token = inl ValueError
    ∨ tokens w token = inl RuntimeError →
  user_id (objects w self) = None →
  ws_closed (objects w self) = false →
  let w' := after (listen_frame self (inr (PDict items))) w in
  (listen_frame self (inr (PDict items)) w).1 = inr tt ∧
  events (listen_frame self (inr (PDict items))) w
  = [WsSendJson self (PDict [("op", PInt 7)]) true;
     WsClose self 4004 ""] ∧
  emitter w' = emitter w ∧
  user_id (objects w' self) = None ∧
  ws_closed (objects w' self) = true.
Proof.
  intros Hop Hhb Hid Hd Htoken Hcheck Hnone Hopen w'. subst w'.
  simpl in Hhb, Hid. unfold after, events.
  rewrite (listen_frame_rejected_run self items op d token w) by done.
  simpl. rewrite <- !app_assoc, drop_app_length, decide_True by done. done.
Qed.

Lemma identify_rejected_witness :
  let w := new_world (λ _, Some [10%Z]) (λ _, inr None) in
  let items := [("op", PInt 2); ("d", PDict [("token", PStr "t")])] in
  (assoc "op" items = Some (PInt 2) ∧ tokens w (PStr "t") = inr None) ∧
  emitter (after (listen_frame 1%positive (inr (PDict items))) w) = emitter w.
Proof.
  intros w items.
  assert (Hop : assoc "op" items = Some (PInt 2)) by reflexivity.
  assert (Hcheck : tokens w (PStr "t") = inr None) by reflexivity.
  split; [by split |].
  apply (identify_rejected 1%positive items (PInt 2)
           (PDict [("token", PStr "t")]) (PStr "t") w Hop
           eq_refl eq_refl eq_refl eq_refl (or_introl Hcheck) eq_refl eq_refl).
Defined.

Lemma listen_frame_heartbeat_run self items op w :
  assoc "op" items = Some op → eq_int op 1 = true →
  ws_closed (objects w self) = false →
  listen_frame self (inr (PDict items)) w
  = (inr tt,
     log (WsSendJson self (PDict [("op", PInt 9)]) true)
       (set_object self
          {| ws_closed := false;
             user_id := user_id (objects w self); _last_hb := time w |} w)).
Proof.
  intros Hop Hhb Hopen. unfold listen_frame, try_except, _handle.
  rewrite bind_run. simpl. rewrite bind_run. simpl. rewrite Hop. simpl.
  rewrite Hhb. rewrite bind_run. simpl. rewrite bind_run.
  unfold set_last_hb. rewrite bind_run. simpl.
  rewrite bind_run, notify_run. rewrite write_result_open.
  - simpl. by rewrite decide_True, Hopen.
  - simpl. by rewrite decide_True.
Qed.

(** A HEARTBEAT frame is answered by HEARTBEAT_ACK, sets [_last_hb] to
    the time of its arrival and leaves the registry as it is; the
    heartbeat task then lets the listener live at a wake-up up to 33
    seconds later and closes it at a wake-up after that. *)
Theorem heartbeat_defers_expiry self items op w wake :
  assoc "op" items = Some op →
  eq_int op (Opcode_value HEARTBEAT) = true →
  ws_closed (objects w self) = false →
  let w' := after (listen_frame self (inr (PDict items))) w in
  objects wake self = objects w' self →
  (events (listen_frame self (inr (PDict items))) w
   = [WsSendJson self (PDict [("op", PInt 9)]) true] ∧
   _last_hb (objects w' self) = time w ∧
   emitter w' = emitter w) ∧
  ((time wake - time w <= 33)%Q → _check_hb self [wake] w' = None) ∧
  ((33 < time wake - time w)%Q →
   _check_hb self [wake] w' = Some (close_default self wake)).
Proof.
  intros Hop Hhb Hopen w'. subst w'. simpl in Hhb. unfold after, events.
  rewrite (listen_frame_heartbeat_run self items op w Hop Hhb Hopen).
  cbn [fst snd]. intros Hwake.
  split.
  { simpl. rewrite decide_True by done. by rewrite drop_app_length. }
  pose proof (response_error_expired (time wake) (time w)) as Hexp.
  cbv zeta in Hexp. cbn [_check_hb]. rewrite Hwake.
  assert (Hobj :
    objects
      (log (WsSendJson self (PDict [("op", PInt 9)]) true)
         (set_object self
            {| ws_closed := false; user_id := user_id (objects w self);
               _last_hb := time w |} w)) self
    = {| ws_closed := false; user_id := user_id (objects w self);
         _last_hb := time w |}).
  { simpl. by rewrite decide_True. }
  rewrite Hobj. cbn [ws_closed _last_hb]. split.
  - intros Hle. destruct (negb (Qle_bool _ _)); [| done].
    assert (Hlt : (33 < time wake - time w)%Q) by (by apply Hexp).
    by apply Qlt_not_le in Hlt.
  - intros Hlt. apply Hexp in Hlt. by rewrite Hlt.
Qed.

Lemma heartbeat_defers_expiry_witness :
  let w := new_world (λ _, Some []) (λ _, inr None) in
  let items := [("op", PInt 1)] in
  (assoc "op" items = Some (PInt 1) ∧
   ws_closed (objects w 1%positive) = false) ∧
  _last_hb
    (objects (after (listen_frame 1%positive (inr (PDict items))) w)
       1%positive) = time w.
Proof.
  intros w items.
  assert (Hop : assoc "op" items = Some (PInt 1)) by reflexivity.
  assert (Hopen : ws_closed (objects w 1%positive) = false) by reflexivity.
  split; [by split |].
  apply (heartbeat_defers_expiry 1%positive items (PInt 1) w
           (after (listen_frame 1%positive (inr (PDict items))) w)
           Hop eq_refl Hopen eq_refl).
Defined.

(** ** Frames of a listener that is not identified *)

Lemma close_unidentified_run self code message w :
  user_id (objects w self) = None →
  close self code message true w
  = (inr tt,
     log (WsClose self (CloseCode_value code) message)
       (set_object self
          {| ws_closed := true; user_id := None;
             _last_hb := _last_hb (objects w self) |} w)).
Proof.
  intros Hnone. unfold close. rewrite bind_run.
  rewrite remove_listener_absent by (by rewrite Hnone).
  unfold ws_close. repeat (rewrite bind_run; simpl). by rewrite Hnone.
Qed.

Lemma identify_token_cases data w :
  ∃ r, identify_token data w = (r, w) ∧
       ∀ user, r = inr user →
               ∃ token, presented (inr data) token ∧
                        tokens w token = inr (Some user).
Proof.
  unfold identify_token, presented. rewrite bind_run. unfold lift at 1.
  destruct (getitem data "d") as [e | d] eqn:Hd; [by eexists |].
  rewrite bind_run. unfold lift at 1.
  destruct (getitem d "token") as [e | token] eqn:Htoken; [by eexists |].
  repeat (rewrite bind_run; simpl).
  destruct (tokens w token) as [e | [user |]] eqn:Hcheck; simpl;
    eexists; (split; [done |]); try done.
  intros ? [= <-]. exists token. split; [| done]. by exists data, d.
Qed.

Local Ltac settle_frame :=
  rewrite ?close_unidentified_run
    by (simpl; rewrite ?decide_True by done; done);
  eexists _, _; split; [reflexivity |]; simpl;
  rewrite ?decide_True by done; done.

(** What a frame that presents no accepted token does to a listener that
    is not identified: the registry and the token verification stay as
    they are, and the listener stays unidentified, whatever the writes
    to its websocket do. *)
Lemma listen_frame_outsider self frame w :
  (∀ token user, presented frame token → tokens w token ≠ inr (Some user)) →
  user_id (objects w self) = None →
  ∃ r w', listen_frame self frame w = (r, w') ∧
          emitter w' = emitter w ∧ tokens w' = tokens w ∧
          user_id (objects w' self) = None.
Proof.
  intros Hreject Hnone.
  unfold listen_frame, try_except. rewrite bind_run. unfold lift at 1.
  destruct frame as [e | data].
  { destruct e; by settle_frame. }
  unfold _handle. rewrite bind_run. unfold lift at 1.
  destruct (getitem data "op") as [e | op].
  { destruct e; by settle_frame. }
  destruct (eq_int op (Opcode_value HEARTBEAT)).
  { rewrite bind_run. simpl. rewrite bind_run.
    unfold set_last_hb. rewrite bind_run. simpl.
    rewrite bind_run, notify_run.
    destruct (write_result _ self) as [e | sent]; [| by settle_frame].
    destruct e; by settle_frame. }
  destruct (eq_int op (Opcode_value IDENTIFY)); [| by settle_frame].
  rewrite bind_run. unfold try_except at 1. rewrite bind_run.
  destruct (identify_token_cases data w) as (r & -> & Huser).
  destruct r as [e | user].
  2: { destruct (Huser user eq_refl) as (token & Hpresented & Htoken).
       by destruct (Hreject token user). }
  assert (Hrest :
    (notify self INVALIDATE_SESSION PNone;;
     close self BAD_TOKEN "" true;; mret (None : option Z)) w
    = match write_result w self with
      | inl e' =>
          (inl e',
           log (WsSendJson self (PDict [("op", PInt 7)])
                  (negb (ws_closed (objects w self)))) w)
      | inr _ =>
          (inr None,
           log (WsClose self 4004 "")
             (set_object self
                {| ws_closed := true; user_id := None;
                   _last_hb := _last_hb (objects w self) |}
                (log (WsSendJson self (PDict [("op", PInt 7)])
                        (negb (ws_closed (objects w self)))) w)))
      end).
  { rewrite bind_run, notify_run.
    destruct (write_result w self) as [e' | sent]; [done |].
    rewrite bind_run. by rewrite close_unidentified_run by done. }
  destruct e; try (by settle_frame).
  - rewrite Hrest.
    destruct (write_result w self) as [e' | sent]; [| by settle_frame].
    destruct e'; by settle_frame.
  - rewrite Hrest.
    destruct (write_result w self) as [e' | sent]; [| by settle_frame].
    destruct e'; by settle_frame.
Qed.

(** Whatever frames a listener that is not identified sends, as long as
    none of them presents a token the verification accepts, [listen]
    leaves the registry as it is and the listener unidentified. *)
Theorem unauthenticated_frames_keep_registry self frames w :
  (∀ frame token user,
     frame ∈ frames → presented frame token →
     tokens w token ≠ inr (Some user)) →
  user_id (objects w self) = None →
  let w' := after (listen self frames) w in
  emitter w' = emitter w ∧ user_id (objects w' self) = None.
Proof.
  intros Hreject Hnone w'. subst w'. unfold after, listen.
  rewrite bind_run, notify_run.
  destruct (write_result w self) as [e | sent]; [done |].
  match goal with |- context [for_each _ _ ?w1] =>
    assert (Hstart : emitter w1 = emitter w ∧ tokens w1 = tokens w ∧
                     user_id (objects w1 self) = None) by done;
    generalize dependent w1
  end.
  induction frames as [| frame frames IH]; intros w1 (He & Ht & Hu).
  { done. }
  unfold for_each in *. cbn [for_in]. rewrite bind_run, bind_run. simpl.
  assert (Hrest : ∀ frame' token user,
            frame' ∈ frames → presented frame' token →
            tokens w token ≠ inr (Some user)).
  { intros frame' token user Hin. apply Hreject. by right. }
  destruct (ws_closed (objects w1 self)).
  - simpl. by apply IH.
  - destruct (listen_frame_outsider self frame w1)
      as (r & w2 & -> & He2 & Ht2 & Hu2); [| done |].
    { intros token user Hpresented. rewrite Ht.
      apply (Hreject frame); [by left | done]. }
    destruct r as [e | []]; simpl.
    + split; [by rewrite He2 | done].
    + apply IH; [done |].
      split; [by rewrite He2 |]. split; [by rewrite Ht2 | done].
Qed.

Lemma unauthenticated_frames_keep_registry_witness :
  let w := new_world (λ _, Some [10%Z])
             (λ token, if token is PStr "good" then inr (Some 7%Z)
                       else inr None) in
  let frames := [identify_frame "bad"; inr (PDict [("op", PInt 1)])] in
  ((∀ frame token user,
      frame ∈ frames → presented frame token →
      tokens w token ≠ inr (Some user)) ∧
   user_id (objects w 1%positive) = None) ∧
  emitter (after (listen 1%positive frames) w) = emitter w.
Proof.
  intros w frames.
  assert (Hreject : ∀ frame token user,
            frame ∈ frames → presented frame token →
            tokens w token ≠ inr (Some user)).
  { intros frame token user Hin (data & d & Hframe & Hd & Htoken).
    apply elem_of_cons in Hin as [-> | Hin].
    - injection Hframe as <-. injection Hd as <-. injection Htoken as <-.
      discriminate.
    - apply list_elem_of_singleton in Hin as ->.
      injection Hframe as <-. discriminate. }
  assert (Hnone : user_id (objects w 1%positive) = None) by reflexivity.
  split; [by split |].
  apply (unauthenticated_frames_keep_registry 1%positive frames w
           Hreject Hnone).
Defined.

(** ** The listeners a fan-out closes *)

Lemma failed_in_app w t0 t to_close :
  failed_in w t0 to_close → failed_in w (t0 ++ t) to_close.
Proof.
  intros Hfailed l Hin. destruct (Hfailed l Hin) as (Hlib & data & Hdata).
  split; [done |]. exists data. apply elem_of_app. by left.
Qed.

(** A loop collects as its turns do. *)
Lemma collects_for_in {A} (body : list Listener → A → M (list Listener)) :
  collects body → collects (λ to_close xs, for_in xs to_close body).
Proof.
  intros Hbody to_close xs. revert to_close.
  induction xs as [| x xs IH]; intros to_close w.
  { exists []. simpl. rewrite app_nil_r. split; [done |]. split; [done |].
    intros to_close' t0 [= <-]. by rewrite app_nil_r. }
  cbn [for_in]. rewrite bind_run.
  destruct (Hbody to_close x w) as (t1 & Ht1 & Hlib1 & Hacc).
  destruct (body to_close x w) as [[e | acc] w1]; simpl in *.
  { exists t1. split; [done |]. split; [done |]. by intros. }
  destruct (IH acc w1) as (t2 & Ht2 & Hlib2 & Hrest).
  exists (t1 ++ t2). rewrite Ht2, Ht1, Hlib2, Hlib1, app_assoc.
  split; [done |]. split; [done |].
  intros to_close' t0 Hrun Hfailed. rewrite app_assoc.
  assert (Hstep : failed_in w1 (t0 ++ t1) acc).
  { intros l Hin. rewrite Hlib1. by apply (Hacc acc t0 eq_refl Hfailed). }
  intros l Hin. rewrite <- Hlib1. by apply (Hrest to_close' _ Hrun Hstep).
Qed.

Lemma collects_event_notify event :
  collects (λ to_close listener,
    sent ← event_notify listener event;
    mret (if sent : bool then to_close else to_close ++ [listener])).
Proof.
  intros to_close l w. rewrite bind_run, event_notify_run.
  exists [dispatch event w l].
  destruct (write_result w l) as [e | sent] eqn:Hres; simpl.
  { split; [done |]. split; [done |]. by intros. }
  split; [done |]. split; [done |].
  intros ? t0 [= <-] Hfailed. destruct sent; [by apply failed_in_app |].
  assert (Hl : ws_closed (objects w l) = true ∧ dead_write w = RuntimeError).
  { unfold write_result in Hres.
    destruct (ws_closed (objects w l)); [| done].
    by destruct (dead_write w). }
  destruct Hl as [Hl Hlib].
  intros l' [Hin | ->%list_elem_of_singleton]%elem_of_app.
  - by apply (failed_in_app w t0 _ to_close).
  - split; [done |]. eexists. apply elem_of_app. right.
    unfold dispatch. rewrite Hl. by left.
Qed.

Lemma collects_notify_user event : collects (notify_user event).
Proof.
  intros to_close user w. unfold notify_user.
  rewrite bind_run, on_emitter_lookup_item by (by intros []).
  destruct (ix_get listeners_ix (emitter w) !! user) as [ls |].
  - apply (collects_for_in _ (collects_event_notify event)).
  - exists []. simpl. rewrite app_nil_r. split; [done |]. split; [done |].
    by intros.
Qed.

(** [close_all] closes the listeners it is given with the defaults of
    [close], and no other. *)
Lemma emits_close_listed (to_close : list Listener) :
  emits (λ t, ∀ l code message, WsClose l code message ∈ t →
              l ∈ to_close ∧ code = 1000%Z ∧ message = EmptyString)
        (close_all to_close).
Proof.
  set (P := λ t : list io_event, ∀ l code message,
              WsClose l code message ∈ t →
              l ∈ to_close ∧ code = 1000%Z ∧ message = EmptyString).
  assert (P_nil : P []) by (intros l code message Hin; by apply elem_of_nil in Hin).
  assert (P_app : ∀ t1 t2, P t1 → P t2 → P (t1 ++ t2)).
  { intros t1 t2 H1 H2 l code message [Hin | Hin]%elem_of_app; eauto. }
  assert (P_lock : P [LockAcquire; LockRelease]).
  { intros l code message Hin. set_solver. }
  unfold close_all, for_each.
  assert (Hsub : ∀ l, l ∈ to_close → l ∈ to_close) by done.
  revert Hsub. generalize to_close at 1 3. intros listed.
  induction listed as [| l listed IH]; intros Hsub; cbn [for_in].
  { by apply emits_ret. }
  apply (emits_bind P P_app).
  2: { intros []. apply IH. intros l' Hin. apply Hsub. by right. }
  unfold close_default, close. apply (emits_bind P P_app).
  { by apply emits_remove_listener. }
  intros _ w. unfold ws_close. repeat (rewrite bind_run; simpl).
  eexists. split; [done |].
  intros l' code message [= -> -> ->]%list_elem_of_singleton.
  split; [apply Hsub; by left | done].
Qed.

(** The shape the three routines share. *)
Lemma fan_out_closes (locked : M (list Listener)) w l code message :
  emits writes locked →
  (∀ w, ∃ t, trace (locked w).2 = trace w ++ t ∧
             ∀ to_close, (locked w).1 = inr to_close → failed_in w t to_close) →
  let run := to_close ← async_with_lock locked; close_all to_close in
  WsClose l code message ∈ events run w →
  dead_write w = RuntimeError ∧
  (∃ data, WsSendJson l data false ∈ events run w) ∧
  code = 1000%Z ∧ message = EmptyString.
Proof.
  intros Hwrites Hlocked run. subst run. unfold events. rewrite bind_run.
  unfold async_with_lock.
  destruct (Hwrites (log LockAcquire w)) as (t & Ht & Hw).
  destruct (Hlocked (log LockAcquire w)) as (t' & Ht' & Hfailed).
  assert (t' = t) as -> by (rewrite Ht in Ht'; by apply app_inv_head in Ht').
  unfold writes in Hw. rewrite Forall_forall in Hw.
  destruct (locked (log LockAcquire w)) as [[e | to_close] w1]; simpl in *.
  - rewrite Ht, <- !app_assoc, drop_app_length.
    intros [Hin | Hin]%elem_of_cons; [done |].
    apply elem_of_app in Hin as [Hin | Hin]; [| set_solver].
    by apply Hw in Hin.
  - match goal with |- context [close_all to_close ?w2] =>
      destruct (emits_close_listed to_close w2) as (t2 & Ht2 & Hlisted)
    end.
    rewrite Ht2. simpl. rewrite Ht, <- !app_assoc, drop_app_length.
    intros [Hin | Hin]%elem_of_cons; [done |].
    apply elem_of_app in Hin as [Hin | Hin]; [by apply Hw in Hin |].
    apply elem_of_cons in Hin as [Hin | Hin]; [done |].
    destruct (Hlisted l code message Hin) as (Hl & -> & ->).
    destruct (Hfailed to_close eq_refl l Hl) as (Hlib & data & Hdata).
    split; [done |]. split; [| done].
    exists data. right. apply elem_of_app. by left.
Qed.

(** Whatever the registry, the only listeners [notify_channel],
    [notify_channels] and [notify_everyone] close are listeners they
    wrote to in the same run and whose write raised [RuntimeError], each
    with the default [close()], code 1000 and no message; so they close
    nothing at all when the library raises another exception. *)
Theorem fan_out_closes_failed_only w l code message :
  (∀ event : LocalEvent,
     WsClose l code message ∈ events (notify_channel event) w →
     dead_write w = RuntimeError ∧
     (∃ data, WsSendJson l data false ∈ events (notify_channel event) w) ∧
     code = 1000%Z ∧ message = EmptyString) ∧
  (∀ event : OuterEvent,
     WsClose l code message ∈ events (notify_channels event) w →
     dead_write w = RuntimeError ∧
     (∃ data, WsSendJson l data false ∈ events (notify_channels event) w) ∧
     code = 1000%Z ∧ message = EmptyString) ∧
  (∀ event : GlobalEvent,
     WsClose l code message ∈ events (notify_everyone event) w →
     dead_write w = RuntimeError ∧
     (∃ data, WsSendJson l data false ∈ events (notify_everyone event) w) ∧
     code = 1000%Z ∧ message = EmptyString).
Proof.
  assert (Hstart : ∀ (A : Type) (xs : A) w0
            (body : list Listener → A → M (list Listener)),
    collects body →
    ∃ t, trace (body [] xs w0).2 = trace w0 ++ t ∧
         ∀ to_close, (body [] xs w0).1 = inr to_close →
                     failed_in w0 t to_close).
  { intros A xs w0 body Hbody.
    destruct (Hbody [] xs w0) as (t & Ht & _ & Hacc).
    exists t. split; [done |]. intros to_close Hrun.
    apply (Hacc to_close [] Hrun). intros l' Hin. by apply elem_of_nil in Hin. }
  split; [| split]; intros event; unfold notify_channel, notify_channels,
    notify_everyone; apply fan_out_closes.
  - apply (emits_bind writes writes_app);
      [apply (emits_gets writes writes_nil) |].
    intros channels. apply (emits_for_in writes writes_nil writes_app).
    apply emits_notify_user.
  - intros w0. rewrite bind_run. simpl.
    apply (Hstart _ _ w0 (λ to_close xs, for_in xs to_close (notify_user event))).
    apply collects_for_in, collects_notify_user.
  - apply (emits_bind writes writes_app);
      [apply (emits_gets writes writes_nil) |].
    intros users.
    apply (emits_for_in writes writes_nil writes_app). intros to_close channel.
    apply (emits_bind writes writes_app);
      [apply (emits_on_emitter writes writes_nil) |].
    intros ms. apply (emits_for_in writes writes_nil writes_app).
    apply emits_notify_user.
  - intros w0. rewrite bind_run. simpl.
    apply (Hstart _ _ w0
             (λ to_close xs, for_in xs to_close
                (λ to_close channel_id,
                   members ← on_emitter (lookup_item channels_ix channel_id);
                   for_in (elements members) to_close (notify_user event)))).
    apply collects_for_in. intros to_close channel w1.
    rewrite bind_run, on_emitter_lookup_item by (by intros []).
    destruct (ix_get channels_ix (emitter w1) !! channel) as [ms |].
    + apply (collects_for_in _ (collects_notify_user event)).
    + exists []. simpl. rewrite app_nil_r. split; [done |]. split; [done |].
      by intros.
  - apply (emits_bind writes writes_app);
      [apply (emits_gets writes writes_nil) |].
    intros listeners.
    apply (emits_for_in writes writes_nil writes_app). intros to_close [_ ls].
    apply emits_notify_listeners.
  - intros w0. rewrite bind_run. simpl.
    apply (Hstart _ _ w0
             (λ to_close xs, for_in xs to_close
                (λ to_close '(_, listeners),
                   for_in (elements listeners) to_close
                     (λ to_close listener,
                        sent ← event_notify listener event;
                        mret (if sent : bool then to_close
                              else to_close ++ [listener]))))).
    apply collects_for_in. intros to_close [user ls] w1.
    apply (collects_for_in _ (collects_event_notify event)).
Qed.

(** ** Runs of the fan-out *)

(** In a registry state that satisfies the membership invariant,
    [notify_channels] calls [event_notify], channel by channel of the
    user of the event, on the listeners of the members of the channel,
    up to the first listener whose write raises an exception that
    [event_notify] does not catch.  When every write succeeds or raises
    [RuntimeError] these are all of them: a listener is written to once
    for each channel its user shares with the user of the event. *)
Theorem notify_channels_audience (event : OuterEvent) w :
  reachable w → membership (emitter w) →
  notified (events (notify_channels event) w)
  = reached w (outer_audience (emitter w) (event_user_id event)) ∧
  ((∀ l, ws_closed (objects w l) = true → dead_write w = RuntimeError) →
   notified (events (notify_channels event) w)
   = outer_audience (emitter w) (event_user_id event)).
Proof.
  intros Hreach Hmem.
  rewrite (notified_fan_out event _ w _ (notify_channels_run event w Hreach Hmem)).
  split; [done |]. intros Hcaught.
  apply reached_all. by apply aborts_caught.
Qed.

(** In a registry state that satisfies the membership invariant, when
    the websocket of every listener of the audience is open,
    [notify_channel] and [notify_channels] return after exactly the
    writes to the audience under the lock, each of them successful, and
    leave the registry and the listeners as they were. *)
Theorem fan_out_all_delivered w :
  reachable w → membership (emitter w) →
  (∀ event : LocalEvent,
     let listeners :=
       audience (emitter w) (elements (members (emitter w) (channel_id event))) in
     (∀ l, l ∈ listeners → ws_closed (objects w l) = false) →
     notify_channel event w
     = (inr tt,
        log_all ([LockAcquire]
                 ++ ((λ l, WsSendJson l
                             (PDict [("op", PInt 0); ("d", payload event);
                                     ("t", name event)]) true) <$> listeners)
                 ++ [LockRelease]) w)) ∧
  (∀ event : OuterEvent,
     let listeners := outer_audience (emitter w) (event_user_id event) in
     (∀ l, l ∈ listeners → ws_closed (objects w l) = false) →
     notify_channels event w
     = (inr tt,
        log_all ([LockAcquire]
                 ++ ((λ l, WsSendJson l
                             (PDict [("op", PInt 0); ("d", payload event);
                                     ("t", name event)]) true) <$> listeners)
                 ++ [LockRelease]) w)).
Proof.
  intros Hreach Hmem.
  assert (Hsent : ∀ (event : Event) (listeners : list Listener),
    (∀ l, l ∈ listeners → ws_closed (objects w l) = false) →
    dispatch event w <$> listeners
    = (λ l, WsSendJson l (PDict [("op", PInt 0); ("d", payload event);
                                 ("t", name event)]) true) <$> listeners).
  { intros event listeners Hopen. apply Forall_fmap_ext_1, Forall_forall.
    intros l Hin. unfold dispatch. by rewrite (Hopen l Hin). }
  split; intros event listeners Hopen; subst listeners.
  - rewrite notify_channel_run by done.
    rewrite aborts_open, unsent_open by done. rewrite close_all_nil.
    unfold delivered. by rewrite Hsent.
  - rewrite notify_channels_run by done.
    rewrite aborts_open, unsent_open by done. rewrite close_all_nil.
    unfold delivered. by rewrite Hsent.
Qed.

Lemma add_listener_objects listener w :
  objects (after (add_listener listener) w) = objects w.
Proof.
  unfold after. rewrite add_listener_run.
  destruct (user_id (objects w listener)) as [user |]; [| done].
  simpl. by destruct (add_listener_locked _ _ _ _).
Qed.

(** A registry with one listener of a user of two channels. *)
Lemma two_channels_world :
  let w := after (add_listener 1%positive)
             (after (set_user_id 1%positive 7%Z)
                (new_world (λ _, Some [10%Z; 11%Z]) (λ _, inr None))) in
  reachable w ∧ membership (emitter w) ∧
  ∀ l, ws_closed (objects w l) = false.
Proof.
  intros w. split; [| split].
  - apply reachable_add, reachable_new. reflexivity.
  - intros user channel. unfold members, channels_of.
    change (_channels (emitter w))
      with (<[11%Z := {[7%Z]}]> {[10%Z := {[7%Z]}]} : gmap Z (gset Z)).
    change (_users (emitter w))
      with ({[7%Z := {[10%Z; 11%Z]}]} : gmap Z (gset Z)).
    destruct (decide (user = 7%Z)) as [-> | Hu];
      (destruct (decide (channel = 10%Z)) as [-> | Hc];
       [| destruct (decide (channel = 11%Z)) as [-> | Hc']]);
      simplify_map_eq; set_solver.
  - intros l. subst w. rewrite add_listener_objects.
    unfold after, set_user_id. rewrite bind_run. simpl.
    by destruct (decide (l = 1%positive)).
Qed.

Lemma notify_channels_audience_witness :
  let w := after (add_listener 1%positive)
             (after (set_user_id 1%positive 7%Z)
                (new_world (λ _, Some [10%Z; 11%Z]) (λ _, inr None))) in
  let event := {| outer_event := {| name := PStr "USER_UPDATE";
                                    payload := PNone |};
                  event_user_id := 7 |} in
  (reachable w ∧ membership (emitter w)) ∧
  notified (events (notify_channels event) w)
  = outer_audience (emitter w) (event_user_id event).
Proof.
  intros w event.
  destruct two_channels_world as (Hreach & Hmem & Hopen).
  split; [by split |].
  apply (proj2 (notify_channels_audience event w Hreach Hmem)).
  intros l Hl. by rewrite Hopen in Hl.
Defined.

Lemma fan_out_all_delivered_witness :
  let w := after (add_listener 1%positive)
             (after (set_user_id 1%positive 7%Z)
                (new_world (λ _, Some [10%Z; 11%Z]) (λ _, inr None))) in
  let event := {| outer_event := {| name := PStr "USER_UPDATE";
                                    payload := PNone |};
                  event_user_id := 7 |} in
  (reachable w ∧ membership (emitter w)) ∧
  (notify_channels event w).1 = inr tt.
Proof.
  intros w event.
  destruct two_channels_world as (Hreach & Hmem & Hopen).
  split; [by split |].
  rewrite (proj2 (fan_out_all_delivered w Hreach Hmem) event
             (λ l _, Hopen l)).
  reflexivity.
Defined.

(** ** Connecting and disconnecting *)

Lemma emitter_eq (e1 e2 : EventEmitter) :
  _channels e1 = _channels e2 → _users e1 = _users e2 →
  _listeners e1 = _listeners e2 → _closing e1 = _closing e2 → e1 = e2.
Proof. destruct e1, e2. simpl. by intros -> -> -> ->. Qed.

(** In a registry state that satisfies the membership invariant, when a
    user unknown to the registry, who has at least one channel, connects
    with one listener and that listener is removed again, the three
    indices are exactly what they were. *)
Theorem add_remove_round_trip listener user channels w :
  reachable w → membership (emitter w) →
  user_id (objects w listener) = Some user →
  pg_conn w user = Some channels → channels ≠ [] →
  _users (emitter w) !! user = None →
  let w1 := after (add_listener listener) w in
  (add_listener listener w).1 = inr tt ∧
  (remove_listener listener w1).1 = inr tt ∧
  emitter (after (remove_listener listener) w1) = emitter w.
Proof.
  intros Hreach Hmem Huser Hpg Hne Hunknown w1.
  destruct (reachable_consistent w Hreach) as (I1 & I2 & I3 & I4 & I5).
  assert (Hnolis : _listeners (emitter w) !! user = None).
  { destruct (_listeners (emitter w) !! user) eqn:Hl; [| done].
    destruct (I2 user) as [cs Hcs]; [by rewrite Hl |]. congruence. }
  assert (Hout : ∀ c, user ∉ members (emitter w) c).
  { intros c Hin%Hmem. unfold channels_of in Hin.
    rewrite Hunknown in Hin. set_solver. }
  assert (Hobj : objects w1 = objects w) by apply add_listener_objects.
  assert (He1 : (add_listener listener w).1 = inr tt ∧ emitter w1 =
    {| _channels := join_all user channels (_channels (emitter w));
       _users := <[user := list_to_set channels]> (_users (emitter w));
       _listeners := <[user := {[listener]}]> (_listeners (emitter w));
       _closing := _closing (emitter w) |}).
  { subst w1. unfold after. rewrite add_listener_run, Huser, Hpg.
    rewrite add_listener_locked_run. simpl. unfold listeners_of.
    rewrite Hnolis. simpl. by rewrite union_empty_r_L. }
  destruct He1 as [Hadd He1]. split; [done |].
  unfold after. rewrite remove_listener_run, Hobj, Huser.
  rewrite bool_decide_eq_true_2
    by (rewrite He1; simpl; apply elem_of_dom; rewrite lookup_insert_eq; eauto).
  destruct (remove_listener_locked_last listener user (emitter w1)
              {[listener]} (list_to_set channels))
    as (e' & -> & Hlis & Husers & Hclo & Hch).
  { rewrite He1. simpl. by rewrite lookup_insert_eq. }
  { set_solver. }
  { set_solver. }
  { rewrite He1. simpl. by rewrite lookup_insert_eq. }
  { intros c Hc%elem_of_list_to_set. unfold members. rewrite He1. simpl.
    rewrite join_all_lookup, decide_True by done. unfold joined. simpl.
    set_solver. }
  simpl. split; [done |].
  apply emitter_eq.
  - apply map_eq. intros c. rewrite Hch, He1. simpl.
    rewrite join_all_lookup.
    destruct (decide (c ∈ channels)) as [Hin | Hin].
    + rewrite decide_True by (by apply elem_of_list_to_set).
      simpl. unfold without, joined.
      specialize (Hout c). unfold members in Hout.
      destruct (_channels (emitter w) !! c) as [us |] eqn:Hus; simpl in *.
      * assert (Hus' : ({[user]} ∪ us) ∖ {[user]} = us) by set_solver.
        rewrite Hus'. rewrite decide_False; [done |].
        intros ->. by apply (I4 c).
      * rewrite decide_True; [done | set_solver].
    + rewrite decide_False; [done |]. by rewrite elem_of_list_to_set.
  - rewrite Husers, He1. simpl.
    rewrite decide_False.
    + rewrite delete_insert_eq. by apply delete_id.
    + destruct channels as [| c channels]; [done |]. set_solver.
  - rewrite Hlis, He1. simpl. rewrite delete_insert_eq. by apply delete_id.
  - by rewrite Hclo, He1.
Qed.

Lemma add_remove_round_trip_witness :
  let w := after (set_user_id 1%positive 7%Z)
             (new_world (λ _, Some [10%Z; 11%Z]) (λ _, inr None)) in
  let w1 := after (add_listener 1%positive) w in
  ((reachable w ∧ membership (emitter w)) ∧
   user_id (objects w 1%positive) = Some 7%Z ∧
   pg_conn w 7%Z = Some [10%Z; 11%Z] ∧
   _users (emitter w) !! 7%Z = None) ∧
  emitter (after (remove_listener 1%positive) w1) = emitter w.
Proof.
  intros w w1.
  assert (Hreach : reachable w) by (apply reachable_new; reflexivity).
  assert (Hmem : membership (emitter w)).
  { intros user channel. unfold members, channels_of. simpl.
    by rewrite !lookup_empty. }
  assert (Huser : user_id (objects w 1%positive) = Some 7%Z) by reflexivity.
  assert (Hpg : pg_conn w 7%Z = Some [10%Z; 11%Z]) by reflexivity.
  assert (Hne : [10%Z; 11%Z] ≠ []) by discriminate.
  assert (Hunknown : _users (emitter w) !! 7%Z = None) by reflexivity.
  split; [done |].
  apply (add_remove_round_trip 1%positive 7%Z [10%Z; 11%Z] w
           Hreach Hmem Huser Hpg Hne Hunknown).
Defined.

(** ** Instances of the registry lemmas *)

Lemma stable_store_invariant_witness :
  let pg := λ _ : Z, Some [10%Z] in
  let w := after (add_listener 1%positive)
             (after (set_user_id 1%positive 7%Z)
                (new_world pg (λ _, inr None))) in
  ((∀ user, pg user ≠ Some []) ∧ reachable_with pg w) ∧
  membership (emitter w) ∧ no_empty_sets (emitter w).
Proof.
  intros pg w.
  assert (Hpg : ∀ user, pg user ≠ Some []) by (intros user; discriminate).
  assert (Hw : reachable_with pg w).
  { apply reachable_with_add, reachable_with_new; reflexivity. }
  split; [by split |].
  apply (stable_store_invariant pg w Hpg Hw).
Defined.

Lemma add_listener_registers_witness :
  let w := after (set_user_id 1%positive 7%Z)
             (new_world (λ _, Some [10%Z; 11%Z]) (λ _, inr None)) in
  (user_id (objects w 1%positive) = Some 7%Z ∧
   pg_conn w 7%Z = Some [10%Z; 11%Z]) ∧
  1%positive ∈ listeners_of (emitter (after (add_listener 1%positive) w)) 7.
Proof.
  intros w.
  assert (Huser : user_id (objects w 1%positive) = Some 7%Z) by reflexivity.
  assert (Hpg : pg_conn w 7%Z = Some [10%Z; 11%Z]) by reflexivity.
  split; [by split |].
  apply (add_listener_registers 1%positive 7%Z [10%Z; 11%Z] w Huser Hpg).
Defined.

Lemma remove_listener_deregisters_witness :
  let w := after (add_listener 1%positive)
             (after (set_user_id 1%positive 7%Z)
                (new_world (λ _, Some [10%Z; 11%Z]) (λ _, inr None))) in
  (reachable w ∧ user_id (objects w 1%positive) = Some 7%Z ∧
   1%positive ∈ listeners_of (emitter w) 7) ∧
  (remove_listener 1%positive w).1 = inr tt.
Proof.
  intros w.
  assert (Hreach : reachable w).
  { apply reachable_add, reachable_new. reflexivity. }
  assert (Huser : user_id (objects w 1%positive) = Some 7%Z) by reflexivity.
  assert (Hin : 1%positive ∈ listeners_of (emitter w) 7).
  { unfold listeners_of.
    change (_listeners (emitter w))
      with ({[7%Z := {[1%positive]}]} : gmap Z (gset Listener)).
    rewrite lookup_singleton_eq. simpl. set_solver. }
  split; [by repeat split |].
  apply (remove_listener_deregisters 1%positive 7%Z w Hreach Huser Hin).
Defined.

End EmitterFacts.

(** * Properties of the registration route *)

Module AuthFacts.

Import Snowflake Auth.
Local Open Scope Z_scope.

Lemma fetchrow_matches users nickname mail user :
  fetchrow users nickname mail = Some user →
  user ∈ users ∧ (name user = nickname ∨ email user = mail).
Proof.
  unfold fetchrow. intros Hfound.
  apply find_some in Hfound as [Hin Hmatch].
  split; [by apply list_elem_of_In |].
  apply orb_prop in Hmatch as [H | H]; apply bool_decide_eq_true in H; auto.
Qed.

(** The difference of two identifiers, shifted as [post_register] does,
    is the difference of their milliseconds, or one less. *)
Lemma snowflake_age EPOCH_OFFSET_MS (old new : SnowflakeGenerator) (t t' : Z) :
  wf old → wf new →
  let age := Z.shiftr (snowflake EPOCH_OFFSET_MS new t'
                       - snowflake EPOCH_OFFSET_MS old t) 22 in
  t' - t - 1 ≤ age ≤ t' - t.
Proof.
  intros Hold Hnew age. subst age.
  rewrite !SnowflakeFacts.snowflake_sum by done.
  destruct Hold as (Hw & Hd & Hs), Hnew as (Hw' & Hd' & Hs').
  rewrite SnowflakeFacts.MAX_WORKER_ID_eq in *.
  rewrite SnowflakeFacts.MAX_DATACENTER_ID_eq in *.
  rewrite SnowflakeFacts.SEQUENCE_MASK_eq in *.
  change (Z.ones 12) with 4095 in *.
  rewrite Z.shiftr_div_pow2 by lia.
  split.
  - apply Z.div_le_lower_bound; lia.
  - apply Z.lt_succ_r, Z.div_lt_upper_bound; lia.
Qed.

Section Register.
Variable life_time : Z.

(** A registration whose nickname or email belongs to a verified user is
    refused, with the nickname named first, and nothing is deleted. *)
Theorem post_register_verified_refused nickname mail new_user_id users user :
  fetchrow users nickname mail = Some user → verified user = true →
  post_register life_time nickname mail new_user_id users
  = inl (HTTPBadRequest
           (if bool_decide (name user = nickname)
            then "Nickname is already registered"
            else "Email is already registered")).
Proof.
  intros Hrow Hverified. unfold post_register. rewrite Hrow, Hverified.
  apply fetchrow_matches in Hrow as [_ Hmatch]. simpl.
  destruct (bool_decide (name user = nickname)) eqn:Hname; [done |].
  apply bool_decide_eq_false in Hname.
  destruct Hmatch as [? | Hmail]; [done |].
  by rewrite bool_decide_eq_true_2.
Qed.

(** A registration that meets an unverified user, both identifiers being
    snowflakes: the old row is deleted when the new identifier was
    composed more than [life_time + 1] milliseconds after the old one,
    and the registration is refused when it was composed at most
    [life_time] milliseconds after it. *)
Theorem post_register_unverified_expiry EPOCH_OFFSET_MS
    (old new : SnowflakeGenerator) (t t' : Z) nickname mail users user :
  wf old → wf new →
  fetchrow users nickname mail = Some user → verified user = false →
  id user = snowflake EPOCH_OFFSET_MS old t →
  let new_user_id := snowflake EPOCH_OFFSET_MS new t' in
  (life_time + 1 < t' - t →
   post_register life_time nickname mail new_user_id users
   = inr (delete_user users (id user))) ∧
  (t' - t ≤ life_time →
   post_register life_time nickname mail new_user_id users
   = inl (HTTPBadRequest
            "User with this name or email is in registration process")).
Proof.
  intros Hold Hnew Hrow Hunverified Hid new_user_id. subst new_user_id.
  unfold post_register. rewrite Hrow, Hunverified, Hid. simpl.
  pose proof (snowflake_age EPOCH_OFFSET_MS old new t t' Hold Hnew) as Hage.
  simpl in Hage.
  split; intros Ht.
  - destruct (Z.ltb_spec life_time
                (Z.shiftr (snowflake EPOCH_OFFSET_MS new t'
                           - snowflake EPOCH_OFFSET_MS old t) 22));
      [by rewrite <- Hid | lia].
  - destruct (Z.ltb_spec life_time
                (Z.shiftr (snowflake EPOCH_OFFSET_MS new t'
                           - snowflake EPOCH_OFFSET_MS old t) 22));
      [lia | done].
Qed.

End Register.

Lemma post_register_verified_refused_witness :
  let user := {| id := 1; name := "ann"; email := "ann@example.org";
                 verified := true |} in
  (fetchrow [user] "bob" "ann@example.org" = Some user ∧
   verified user = true) ∧
  post_register 60000 "bob" "ann@example.org" 2 [user]
  = inl (HTTPBadRequest "Email is already registered").
Proof.
  intros user.
  assert (Hrow : fetchrow [user] "bob" "ann@example.org" = Some user)
    by reflexivity.
  assert (Hverified : verified user = true) by reflexivity.
  split; [by split |].
  apply (post_register_verified_refused 60000 "bob" "ann@example.org" 2
           [user] user Hrow Hverified).
Defined.

Lemma post_register_unverified_expiry_witness :
  let old := {| worker_id := 0; datacenter_id := 0; sequence := 7;
                _last_timestamp := 1000 |} in
  let new := {| worker_id := 0; datacenter_id := 0; sequence := 0;
                _last_timestamp := 70000 |} in
  let user := {| id := snowflake 0 old 1000; name := "ann";
                 email := "ann@example.org"; verified := false |} in
  (wf old ∧ wf new ∧
   fetchrow [user] "ann" "ann@example.net" = Some user ∧
   60000 + 1 < 70000 - 1000) ∧
  post_register 60000 "ann" "ann@example.net" (snowflake 0 new 70000) [user]
  = inr [].
Proof.
  intros old new user.
  assert (Hold : wf old).
  { unfold wf. vm_compute. repeat split; discriminate. }
  assert (Hnew : wf new).
  { unfold wf. vm_compute. repeat split; discriminate. }
  assert (Hrow : fetchrow [user] "ann" "ann@example.net" = Some user)
    by reflexivity.
  assert (Hlate : 60000 + 1 < 70000 - 1000) by lia.
  split; [by repeat split |].
  rewrite (proj1 (post_register_unverified_expiry 60000 0 old new 1000 70000
                    "ann" "ann@example.net" [user] user
                    Hold Hnew Hrow eq_refl eq_refl) Hlate).
  reflexivity.
Defined.

End AuthFacts.

(** * Properties of the middlewares *)

Module MiddlewaresFacts.

Import Middlewares.

(** Given that [HTTPMethodNotAllowed] is a subclass of [HTTPException],
    as it is in aiohttp, the clause that names [HTTPMethodNotAllowed] is
    never the one that handles it: in debug mode too, such an exception
    is answered with its own status and text instead of being raised
    again. *)
Theorem error_handler_method_not_allowed {R} (debug : bool) (e : exception) :
  (isinstance e HTTPMethodNotAllowed = true →
   isinstance e HTTPException = true) →
  isinstance e HTTPMethodNotAllowed = true →
  isinstance e HTTPSuccessful = false →
  isinstance e HTTPRedirection = false →
  error_handler (R := R) debug (Raises e)
  = Returns (json_response (text e) (status e)).
Proof.
  intros Hsub H405 Hok Hredirect. unfold error_handler.
  by rewrite Hok, Hredirect, (Hsub H405).
Qed.

Lemma error_handler_method_not_allowed_witness :
  let e := {| isinstance :=
                λ c, match c with
                     | HTTPException | HTTPMethodNotAllowed | Exception => true
                     | _ => false
                     end;
              status := 405; text := "405: Method Not Allowed" |} in
  error_handler (R := unit) true (Raises e)
  = Returns (json_response "405: Method Not Allowed" 405).
Proof.
  intros e.
  apply (error_handler_method_not_allowed true e
           (λ _, eq_refl) eq_refl eq_refl eq_refl).
Defined.

(** In production mode an exception of the handler leaves
    [error_handler] only if it is a success or a redirection, or an
    instance of none of [HTTPException], [CancelledError] and
    [Exception]; every other one is answered with a JSON message. *)
Theorem error_handler_production_escapes {R} (e e' : exception) :
  error_handler (R := R) false (Raises e) = Raises e' →
  e' = e ∧
  (isinstance e HTTPSuccessful = true ∨ isinstance e HTTPRedirection = true ∨
   (isinstance e HTTPException = false ∧ isinstance e CancelledError = false ∧
    isinstance e Exception = false)).
Proof.
  unfold error_handler.
  destruct (isinstance e HTTPSuccessful) eqn:H1; simpl.
  { intros [= <-]. auto. }
  destruct (isinstance e HTTPRedirection) eqn:H2; simpl.
  { intros [= <-]. auto. }
  destruct (isinstance e HTTPException) eqn:H3; [done |].
  destruct (isinstance e HTTPMethodNotAllowed) eqn:H4; [done |]. simpl.
  destruct (isinstance e CancelledError) eqn:H5; [done |].
  destruct (isinstance e Exception) eqn:H6; [done |].
  intros [= <-]. auto 10.
Qed.

Lemma error_handler_production_escapes_witness :
  let e := {| isinstance :=
                λ c, match c with
                     | HTTPException | HTTPRedirection | Exception => true
                     | _ => false
                     end;
              status := 302; text := "302: Found" |} in
  error_handler (R := unit) false (Raises e) = Raises e ∧
  (isinstance e HTTPSuccessful = true ∨ isinstance e HTTPRedirection = true ∨
   (isinstance e HTTPException = false ∧ isinstance e CancelledError = false ∧
    isinstance e Exception = false)).
Proof.
  intros e.
  assert (Hrun : error_handler (R := unit) false (Raises e) = Raises e)
    by reflexivity.
  split; [exact Hrun |].
  apply (proj2 (error_handler_production_escapes e e Hrun)).
Defined.

End MiddlewaresFacts.
